(** * ecc2cursor: the translation engine, embedded and verified

    A shallow embedding of the TypeScript sources of ecc2cursor
    (lib/constants.ts, lib/transform.ts, lib/context.ts, lib/scanner.ts,
    lib/translators/{agents,commands,contexts,hooks,mcp,skills}.ts and
    sync.ts), followed by the properties its specification states about
    them and by further properties of the code.

    Conventions.
    - A JavaScript string is the list of its UTF-16 code units, each an [N].
    - A path is the list of its components below the file-system root; the
      file system is a finite map from paths to nodes.
    - An [async] function that may reject returns an [option]; [None] is the
      rejected promise (an I/O error that the source does not catch).

    Part I holds the definitions, in the order of the source modules;
    Part II the lemmas and the theorems of the specification; Part III the
    further properties. *)

From Stdlib Require Import String Ascii NArith Lia.
From Stdlib Require DecimalString.
From stdpp Require Import gmap list.

Set Default Proof Using "Type".
Set Warnings "-clear-no-such-hyp".  (* naive_solver clears eagerly *)
Local Open Scope N_scope.

(** * Part I: the embedding *)

(** ** JavaScript strings *)

Module Js.

(** A literal of the source, written with its ASCII characters. *)
Definition lit (s : string) : list N :=
  (λ a, N_of_ascii a) <$> list_ascii_of_string s.
Global Arguments lit : simpl never.

Definition NL : N := 10.
Definition DASH : N := 45.
Definition COLON : N := 58.
Definition SLASH : N := 47.
Definition QUOTE : N := 34.
Definition APOS : N := 39.

(** [\w] of a regular expression without the [u] and [i] flags. *)
Definition is_word (c : N) : bool :=
  ((48 <=? c) && (c <=? 57)) || ((65 <=? c) && (c <=? 90)) ||
  (c =? 95) || ((97 <=? c) && (c <=? 122)).

(** LineTerminator: LF, CR, LS, PS.  The regular expression [.] matches
    every code unit but these. *)
Definition is_line_terminator (c : N) : bool :=
  (c =? 10) || (c =? 13) || (c =? 8232) || (c =? 8233).

(** [\s], which is also what [trim] and [trimStart] strip: WhiteSpace and
    LineTerminator. *)
Definition is_space (c : N) : bool :=
  ((9 <=? c) && (c <=? 13)) || (c =? 32) || (c =? 160) || (c =? 5760) ||
  ((8192 <=? c) && (c <=? 8202)) || (c =? 8232) || (c =? 8233) ||
  (c =? 8239) || (c =? 8287) || (c =? 12288) || (c =? 65279).

(** [s.startsWith(p)] *)
Fixpoint startsWith (p s : list N) : bool :=
  match p, s with
  | [], _ => true
  | a :: p', b :: s' => (a =? b) && startsWith p' s'
  | _ :: _, [] => false
  end.

(** [s.endsWith(p)] *)
Definition endsWith (p s : list N) : bool :=
  startsWith (reverse p) (reverse s).

Fixpoint dropWhile (f : N → bool) (s : list N) : list N :=
  match s with
  | [] => []
  | c :: s' => if f c then dropWhile f s' else s
  end.

Fixpoint takeWhile (f : N → bool) (s : list N) : list N :=
  match s with
  | [] => []
  | c :: s' => if f c then c :: takeWhile f s' else []
  end.

Definition trimStart (s : list N) : list N := dropWhile is_space s.
Definition trimEnd (s : list N) : list N :=
  reverse (dropWhile is_space (reverse s)).
Definition trim (s : list N) : list N := trimEnd (trimStart s).

(** [s.slice(1, -1)] *)
Definition slice_1_m1 (s : list N) : list N :=
  take (length s - 2)%nat (drop 1 s).

(** [s.split(sep)] for a separator of one code unit: never the empty
    list. *)
Fixpoint split (sep : N) (s : list N) : list (list N) :=
  match s with
  | [] => [[]]
  | c :: s' =>
      if c =? sep then [] :: split sep s'
      else match split sep s' with
           | l :: ls => (c :: l) :: ls
           | [] => [[c]]
           end
  end.

(** [parts.join(sep)] *)
Fixpoint join (sep : list N) (parts : list (list N)) : list N :=
  match parts with
  | [] => []
  | p :: ps =>
      match ps with
      | [] => p
      | _ :: _ => p ++ sep ++ join sep ps
      end
  end.

(** [s.indexOf(p)]: where [p] first occurs in [s]. *)
Fixpoint indexOf (p s : list N) {struct s} : option nat :=
  if startsWith p s then Some 0%nat
  else match s with
       | [] => None
       | _ :: s' => S <$> indexOf p s'
       end.

(** Truthiness of a string: the empty string is the one falsy string. *)
Definition truthy (s : list N) : bool :=
  match s with [] => false | _ :: _ => true end.

(** [a || b] where [a] may be [undefined]. *)
Definition or_else (a : option (list N)) (b : list N) : list N :=
  match a with
  | Some s => if truthy s then s else b
  | None => b
  end.

End Js.

Import Js.

(** ** Global replacement by a regular expression

    [subject.replace(/re/g, replacement)] scans the subject from the left;
    where the expression matches, the match is replaced and the scan goes on
    behind it, elsewhere one code unit is copied.  A pattern is given by what
    it matches at one position: it sees the code unit before the position
    (that is what [\b] looks at) and the subject from the position on, and
    answers with the length of its match.  No pattern of this program matches
    the empty string, and no replacement of the modelled rules holds a [$]. *)

Module Re.

Definition matcher := option N → list N → option nat.

(** [skip] counts the code units of the current match that are still to be
    passed over. *)
Fixpoint replace_from (m : matcher) (rep : list N)
    (skip : nat) (prev : option N) (s : list N) : list N :=
  match s with
  | [] => []
  | c :: s' =>
      match skip with
      | S k => replace_from m rep k (Some c) s'
      | O =>
          match m prev s with
          | Some (S n) => rep ++ replace_from m rep n (Some c) s'
          | _ => c :: replace_from m rep 0 (Some c) s'
          end
      end
  end.

Definition replace_global (m : matcher) (rep s : list N) : list N :=
  replace_from m rep 0 None s.

(** A literal pattern such as [/CLAUDE\.md/]. *)
Definition literal (p : list N) : matcher :=
  λ _ s, if startsWith p s then Some (length p) else None.

(** [\b]: exactly one of the two neighbours is a word character; beyond
    either end of the subject there is none. *)
Definition is_word_opt (c : option N) : bool :=
  match c with Some c => is_word c | None => false end.

Definition word_boundary (before after : option N) : bool :=
  xorb (is_word_opt before) (is_word_opt after).

(** A literal between two [\b], such as [/\bBash tool\b/]. *)
Definition word_literal (p : list N) : matcher :=
  λ prev s,
    if startsWith p s
       && word_boundary prev (head s)
       && word_boundary (last p) (head (drop (length p) s))
    then Some (length p) else None.

(** [/\n{k,}/]: a run of at least [k] line feeds, taken greedily. *)
Definition newlines_at_least (k : nat) : matcher :=
  λ _ s,
    let n := length (takeWhile (λ c, c =? NL) s) in
    if (k <=? n)%nat then Some n else None.

End Re.

(** ** JavaScript objects used as records and dictionaries

    The own properties of an object in the order in which the engine
    enumerates them ([Object.keys], [Object.entries]): first the keys that
    are array indices, in ascending order, then the other keys in the order
    of their creation; a key occurs once. *)

Module Obj.

Fixpoint get {V} (o : list (list N * V)) (k : list N) : option V :=
  match o with
  | [] => None
  | (k', v) :: o' => if decide (k' = k) then Some v else get o' k
  end.

(** An array index: the decimal numeral, with no superfluous leading zero,
    of a number below 2^32 - 1. *)
Definition array_index (k : list N) : option N :=
  match k with
  | [] => None
  | c :: rest =>
      if forallb (λ d, (48 <=? d) && (d <=? 57)) k
         && (negb (c =? 48) || bool_decide (rest = []))
      then
        let n := foldl (λ n d, 10 * n + (d - 48)) 0 k in
        if n <? 4294967295 then Some n else None
      else None
  end.

(** A new key [k] is enumerated before the key [k']. *)
Definition precedes (k k' : list N) : bool :=
  match array_index k, array_index k' with
  | Some n, Some n' => n <? n'
  | Some _, None => true
  | None, _ => false
  end.

(** [o[k] = v] where [k] is an own property: it keeps its place. *)
Fixpoint replace {V} (o : list (list N * V)) (k : list N) (v : V)
    : list (list N * V) :=
  match o with
  | [] => []
  | (k', v') :: o' =>
      if decide (k' = k) then (k, v) :: o' else (k', v') :: replace o' k v
  end.

(** [o[k] = v] where [k] is no own property: an array index goes to its
    place among the array indices, another key to the end. *)
Fixpoint create {V} (o : list (list N * V)) (k : list N) (v : V)
    : list (list N * V) :=
  match o with
  | [] => [(k, v)]
  | (k', v') :: o' =>
      if precedes k k' then (k, v) :: (k', v') :: o'
      else (k', v') :: create o' k v
  end.

(** [o[k] = v] *)
Definition set {V} (o : list (list N * V)) (k : list N) (v : V)
    : list (list N * V) :=
  match get o k with
  | Some _ => replace o k v
  | None => create o k v
  end.

(** The properties every object inherits from [Object.prototype]; each of
    them is truthy when read through [o[k]]. *)
Definition inherited : list (list N) :=
  [ lit "constructor"; lit "__defineGetter__"; lit "__defineSetter__";
    lit "hasOwnProperty"; lit "__lookupGetter__"; lit "__lookupSetter__";
    lit "isPrototypeOf"; lit "propertyIsEnumerable"; lit "toString";
    lit "valueOf"; lit "__proto__"; lit "toLocaleString" ].

(** [o[k] = v] where [v] is a string: the setter of [__proto__] ignores a
    value that is no object, and no property is created. *)
Definition set_string (o : list (list N * list N)) (k v : list N)
    : list (list N * list N) :=
  if decide (k = lit "__proto__") then o else set o k v.

End Obj.

(** ** lib/constants.ts *)

(** [prefixName(prefix, name)]: [prefix ? `${prefix}-${name}` : name]. *)
Definition prefixName (prefix name : list N) : list N :=
  if truthy prefix then prefix ++ lit "-" ++ name else name.

Definition SRC_AGENTS : list N := lit "agents".
Definition SRC_COMMANDS : list N := lit "commands".
Definition SRC_HOOKS : list N := lit "hooks".
Definition SRC_MCP : list N := lit "mcp-configs".

Definition SKIP_FILES : list (list N) :=
  [ lit "commands/setup-pm.md"; lit "commands/checkpoint.md";
    lit "commands/verify.md"; lit "commands/learn.md";
    lit "commands/skill-create.md"; lit "commands/instinct-status.md";
    lit "commands/instinct-import.md"; lit "commands/instinct-export.md";
    lit "commands/evolve.md";
    lit "rules/common/hooks.md";
    lit "skills/continuous-learning"; lit "skills/continuous-learning-v2";
    lit "skills/strategic-compact"; lit "skills/eval-harness";
    lit "skills/verification-loop"; lit "skills/iterative-retrieval";
    lit "skills/coding-standards";
    lit "skills/configure-ecc" ].

Definition AGENT_DESCRIPTION_OVERRIDES : list (list N * list N) :=
  [ (lit "code-reviewer.md",
     lit "Expert code review specialist. Proactively reviews code for quality, security, and maintainability. Use immediately after writing or modifying code, when asked to review changes, or before committing.");
    (lit "planner.md",
     lit "Implementation planning for complex features and architectural changes. Use when starting new features, making significant changes, or when requirements need clarification before coding.");
    (lit "tdd-guide.md",
     lit "Test-driven development guide. Use when implementing features, fixing bugs, or when the user wants to write tests first. Enforces RED-GREEN-REFACTOR with 80%+ coverage.");
    (lit "architect.md",
     lit "System design and architectural decisions. Use for infrastructure choices, scalability planning, database schema design, or technology selection.");
    (lit "security-reviewer.md",
     lit "Security vulnerability analysis. Use before commits, when handling auth/crypto/user-input code, or when the user asks for a security review.");
    (lit "build-error-resolver.md",
     lit "Fix build and compilation errors. Use when builds fail, TypeScript/compiler errors occur, or dependency issues arise.");
    (lit "e2e-runner.md",
     lit "End-to-end test generation with Playwright. Use when creating E2E tests, testing user flows, or verifying critical UI paths.");
    (lit "refactor-cleaner.md",
     lit "Dead code removal and refactoring. Use when cleaning up unused code, simplifying complex modules, or reducing technical debt.");
    (lit "doc-updater.md",
     lit "Documentation synchronization. Use when code changes require documentation updates, or when docs are stale or missing.");
    (lit "go-reviewer.md",
     lit "Go code review specialist. Use when reviewing Go code for idioms, performance, and best practices.");
    (lit "go-build-resolver.md",
     lit "Fix Go build errors. Use when Go builds fail, module issues occur, or compilation errors arise.") ].

Definition SKILL_DESCRIPTION_OVERRIDES : list (list N * list N) :=
  [ (lit "commands/plan.md",
     lit "Implementation planning for complex features and architectural changes. Use when starting new features, complex refactoring, or when requirements are unclear. Restates requirements, assesses risks, creates step-by-step plans, and waits for confirmation.");
    (lit "commands/tdd.md",
     lit "Test-driven development workflow. Use when implementing features, fixing bugs, or when the user wants to write tests first. Enforces scaffold-interfaces, write-failing-tests, implement, refactor cycle.");
    (lit "commands/code-review.md",
     lit "Code quality and security review. Use after writing or modifying code, when reviewing changes, or before committing. Checks security, performance, best practices.");
    (lit "commands/e2e.md",
     lit "End-to-end test generation. Use when creating Playwright E2E tests for critical user flows and UI interactions.");
    (lit "commands/build-fix.md",
     lit "Fix build and compilation errors. Use when builds fail or compiler errors occur.");
    (lit "commands/refactor-clean.md",
     lit "Dead code removal and cleanup. Use when removing unused code or simplifying complex modules.");
    (lit "commands/go-review.md",
     lit "Go code review. Use when reviewing Go code for idioms and best practices.");
    (lit "commands/go-test.md",
     lit "Go TDD workflow. Use when writing Go tests or implementing Go features with TDD.");
    (lit "commands/go-build.md",
     lit "Fix Go build errors. Use when Go builds fail or module issues occur.") ].

Definition TOKEN_REQUIRED_MCP_SERVERS : list (list N) :=
  [ lit "github"; lit "gitlab"; lit "bitbucket"; lit "linear"; lit "jira";
    lit "asana"; lit "slack"; lit "discord"; lit "sentry"; lit "datadog";
    lit "pagerduty"; lit "stripe"; lit "twilio"; lit "sendgrid";
    lit "supabase"; lit "firebase"; lit "aws"; lit "vercel"; lit "netlify";
    lit "railway"; lit "openai"; lit "anthropic"; lit "algolia";
    lit "elasticsearch"; lit "redis"; lit "mongodb"; lit "postgres";
    lit "mysql" ].

(** [interface ContentTransform], for a replacement that is a plain
    string. *)
Record ContentTransform := mkTransform {
  pattern : Re.matcher;
  replace : list N;
}.

Definition quoted (s : list N) : list N := QUOTE :: s ++ [QUOTE].

(** [STATIC_TRANSFORMS]: the rules that do not depend on the prefix. *)
Definition STATIC_TRANSFORMS : list ContentTransform :=
  [ mkTransform (Re.literal (lit "~/.claude/")) (lit "~/.cursor/");
    mkTransform (Re.literal (lit "CLAUDE.md")) (lit "project configuration");
    mkTransform (Re.literal (lit "Claude Code CLI")) (lit "Cursor");
    mkTransform (Re.literal (lit "Claude Code")) (lit "Cursor");
    mkTransform (Re.word_literal (lit "Bash tool")) (lit "Shell tool");
    mkTransform (Re.literal (quoted (lit "Bash"))) (quoted (lit "Shell"));
    mkTransform (Re.literal (quoted (lit "Edit")))
                (quoted (lit "StrReplace")) ].

(** ** lib/transform.ts *)

(** The loop of [transformContent] over a list of rules:
    [result = result.replace(pattern, replace)], rule after rule. *)
Definition applyTransforms (ts : list ContentTransform) (content : list N)
    : list N :=
  foldl (λ result t, Re.replace_global (pattern t) (replace t) result)
        content ts.

(** The rewrite pass restricted to the static rules. *)
Definition applyStatic (content : list N) : list N :=
  applyTransforms STATIC_TRANSFORMS content.

(** The last step of [transformContent]:
    [result.replace(/\n{3,}/g, '\n\n')]. *)
Definition collapseBlankLines (content : list N) : list N :=
  Re.replace_global (Re.newlines_at_least 3) [NL; NL] content.

(** [parseFrontmatter]: the opening and the closing delimiter.

    [/^---\s*\n( [\s\S]*? )\n---\s*\n?( [\s\S]* )$/] (blanks added): after the three dashes
    [\s*] takes all the white space there is and gives it back unit by unit
    until a line feed follows and the rest of the expression matches; the
    lazy first group then ends at the first line feed followed by three
    dashes; behind these [\s*] takes all white space, so that [\n?] matches
    nothing and the second group is what remains. *)
Definition CLOSING : list N := NL :: lit "---".
Global Arguments CLOSING : simpl never.

Definition match_close (s : list N) : option (list N * list N) :=
  i ← indexOf CLOSING s;
  Some (take i s, dropWhile is_space (drop (i + 4) s)).

Fixpoint match_open (k : nat) (s : list N) : option (list N * list N) :=
  let here :=
    match s !! k with
    | Some c => if c =? NL then match_close (drop (S k) s) else None
    | None => None
    end in
  match here with
  | Some r => Some r
  | None => match k with
            | O => None
            | S k' => match_open k' s
            end
  end.

Definition match_frontmatter (content : list N)
    : option (list N * list N) :=
  if startsWith (lit "---") content then
    let s := drop 3 content in
    match_open (length (takeWhile is_space s)) s
  else None.

(** [/^( \w[\w-]* ):\s*( .* )$/] (blanks added) on one line: the key is the longest run of
    [[\w-]]; [\s*] takes all the white space behind the colon, and the
    second group must reach the end of the line without a line terminator. *)
Definition is_key_char (c : N) : bool := is_word c || (c =? DASH).

Definition match_kv (line : list N) : option (list N * list N) :=
  match line with
  | [] => None
  | c :: _ =>
      if is_word c then
        let key := takeWhile is_key_char line in
        match drop (length key) line with
        | c' :: rest =>
            if c' =? COLON then
              let v := dropWhile is_space rest in
              if forallb (λ c, negb (is_line_terminator c)) v
              then Some (key, v) else None
            else None
        | [] => None
        end
      else None
  end.

(** The quotes around a value are dropped. *)
Definition unquote (value : list N) : list N :=
  if (startsWith [QUOTE] value && endsWith [QUOTE] value)
     || (startsWith [APOS] value && endsWith [APOS] value)
  then slice_1_m1 value else value.

Definition parse_line (frontmatter : list (list N * list N)) (line : list N)
    : list (list N * list N) :=
  match match_kv line with
  | Some (key, v) => Obj.set_string frontmatter key (unquote (trim v))
  | None => frontmatter
  end.

Record Parsed := mkParsed {
  frontmatter : list (list N * list N);
  body : list N;
}.

(** [parseFrontmatter(content)] *)
Definition parseFrontmatter (content : list N) : Parsed :=
  match match_frontmatter content with
  | None => mkParsed [] content
  | Some (fmRaw, body) =>
      mkParsed (foldl parse_line [] (split NL fmRaw)) body
  end.

(** A header field is a string or a boolean. *)
Inductive field :=
  | FString (s : list N)
  | FBool (b : bool).

Definition field_line (kv : list N * field) : list N :=
  match kv.2 with
  | FBool b => kv.1 ++ lit ": " ++ (if b then lit "true" else lit "false")
  | FString value =>
      let flat :=
        trim (Re.replace_global (Re.newlines_at_least 1) (lit " ") value) in
      kv.1 ++ lit ": " ++ flat
  end.

(** [buildFrontmatter(fields)] *)
Definition buildFrontmatter (fields : list (list N * field)) : list N :=
  join [NL] ([lit "---"] ++ (field_line <$> fields) ++ [lit "---"]).

(** ** The file system (node:fs, node:path)

    A tree is a finite map from paths to nodes; the root is a directory that
    is always there.  The clone of the source repository lives in a fresh
    temporary directory (lib/repo.ts), apart from every target directory: the
    source tree and the target are two trees, the first with its paths
    relative to the clone. *)

Module Fs.

Inductive node :=
  | File (content : list N)
  | Dir.

#[global] Instance node_eq_dec : EqDecision node.
Proof. solve_decision. Defined.

Definition lookup_node (t : gmap (list (list N)) node) (p : list (list N))
    : option node :=
  match p with
  | [] => Some Dir
  | _ :: _ => t !! p
  end.

(** [existsSync(p)] *)
Definition existsSync (t : gmap (list (list N)) node) (p : list (list N))
    : bool :=
  match lookup_node t p with Some _ => true | None => false end.

(** [path.join(base, ...parts)] on a base that is already normalised: the
    parts are cut at the separators; an empty segment and [.] are dropped,
    [..] removes the last component (none at the root). *)
Definition push_segment (p : list (list N)) (seg : list N)
    : list (list N) :=
  if decide (seg = [] ∨ seg = lit ".") then p
  else if decide (seg = lit "..") then take (length p - 1) p
  else p ++ [seg].

Definition join (base : list (list N)) (parts : list (list N))
    : list (list N) :=
  foldl push_segment base (parts ≫= Js.split SLASH).

Definition parent (p : list (list N)) : list (list N) :=
  take (length p - 1) p.

(** The name of [p] when [p] is an entry of the directory [d]. *)
Definition child_of (d p : list (list N)) : option (list N) :=
  match last p with
  | Some n => if decide (p = d ++ [n]) then Some n else None
  | None => None
  end.

Definition children (t : gmap (list (list N)) node) (d : list (list N))
    : list (list N) :=
  omap (λ e, child_of d e.1) (map_to_list t).

(** [readdir(d)], [readdirSync(d)]: fails on what is no directory. *)
Definition readdir (t : gmap (list (list N)) node) (d : list (list N))
    : option (list (list N)) :=
  match lookup_node t d with
  | Some Dir => Some (children t d)
  | _ => None
  end.

(** [readFile(p, 'utf-8')]: fails on what is no file. *)
Definition readFile (t : gmap (list (list N)) node) (p : list (list N))
    : option (list N) :=
  match lookup_node t p with
  | Some (File c) => Some c
  | _ => None
  end.

(** [mkdir(p, { recursive: true })]: every missing directory on the way is
    created; a file on the way makes it fail. *)
Fixpoint mkdir_from (done todo : list (list N))
    (t : gmap (list (list N)) node) : option (gmap (list (list N)) node) :=
  match todo with
  | [] => Some t
  | c :: todo' =>
      let d := done ++ [c] in
      match t !! d with
      | Some (File _) => None
      | Some Dir => mkdir_from d todo' t
      | None => mkdir_from d todo' (<[d := Dir]> t)
      end
  end.

Definition mkdir_p (t : gmap (list (list N)) node) (p : list (list N))
    : option (gmap (list (list N)) node) :=
  mkdir_from [] p t.

(** [writeFile(p, content, 'utf-8')]: the directory of [p] must be there,
    and [p] must not be a directory. *)
Definition writeFile (t : gmap (list (list N)) node) (p : list (list N))
    (content : list N) : option (gmap (list (list N)) node) :=
  match p with
  | [] => None
  | _ :: _ =>
      match lookup_node t (parent p) with
      | Some Dir =>
          match t !! p with
          | Some Dir => None
          | _ => Some (<[p := File content]> t)
          end
      | _ => None
      end
  end.

(** [rm(p, { recursive: true, force: true })]: [p] and all below it. *)
Definition rm_rf (t : gmap (list (list N)) node) (p : list (list N))
    : option (gmap (list (list N)) node) :=
  Some (filter (λ e, ¬ p `prefix_of` e.1) t).

(** [rm(p, { force: true })]: a missing [p] is fine, a directory is not. *)
Definition rm_f (t : gmap (list (list N)) node) (p : list (list N))
    : option (gmap (list (list N)) node) :=
  match lookup_node t p with
  | Some Dir => None
  | _ => Some (delete p t)
  end.

End Fs.

(** A loop whose body may fail: [for (const x of xs) { ... await ... }]. *)
Fixpoint for_each {A S : Type} (body : S → A → option S) (xs : list A)
    (s : S) : option S :=
  match xs with
  | [] => Some s
  | x :: xs' => s' ← body s x; for_each body xs' s'
  end.

(** ** lib/context.ts *)

Record TargetContext := mkContext {
  cursorDir : list (list N);
  skillsDir : list (list N);
  agentsDir : list (list N);
  commandsDir : list (list N);
  mcpFile : list (list N);
}.

(** [createContext(cursorDir)] *)
Definition createContext (cursorDir : list (list N)) : TargetContext :=
  {| cursorDir := cursorDir;
     skillsDir := Fs.join cursorDir [lit "skills"];
     agentsDir := Fs.join cursorDir [lit "agents"];
     commandsDir := Fs.join cursorDir [lit "commands"];
     mcpFile := Fs.join cursorDir [lit "mcp.json"] |}.

(** ** lib/scanner.ts *)

Record ScanResult := mkScan {
  scan_cursorDir : list (list N);
  skills : list (list N);
  agents : list (list N);
  commands : list (list N);
  totalFiles : nat;
}.

(** [scanDir(dir, prefix)] *)
Definition scanDir (t : gmap (list (list N)) Fs.node) (dir : list (list N))
    (prefix : list N) : list (list N) :=
  if negb (truthy prefix) || negb (Fs.existsSync t dir) then []
  else match Fs.readdir t dir with
       | Some entries =>
           filter (λ f, startsWith (prefix ++ lit "-") f = true) entries
       | None => []
       end.

(** [scanDirectory(cursorDir, prefix)] *)
Definition scanDirectory (t : gmap (list (list N)) Fs.node)
    (cursorDir : list (list N)) (prefix : list N) : ScanResult :=
  let ctx := createContext cursorDir in
  let skills := scanDir t (skillsDir ctx) prefix in
  let agents := scanDir t (agentsDir ctx) prefix in
  let commands := scanDir t (commandsDir ctx) prefix in
  {| scan_cursorDir := cursorDir;
     skills := skills;
     agents := agents;
     commands := commands;
     totalFiles := (length skills + length agents + length commands)%nat |}.

(** ** sync.ts: clean *)

Record CleanResult := mkClean {
  clean_skills : list (list N);
  clean_agents : list (list N);
  clean_commands : list (list N);
  totalRemoved : nat;
}.

(** One of the three steps of [runClean]: the entries of [dir] that bear the
    prefix are removed with [rm] and recorded. *)
Definition clean_dir
    (rm : gmap (list (list N)) Fs.node → list (list N)
          → option (gmap (list (list N)) Fs.node))
    (dir : list (list N)) (prefixPattern : list N)
    (t : gmap (list (list N)) Fs.node)
    : option (gmap (list (list N)) Fs.node * list (list N)) :=
  if Fs.existsSync t dir then
    entries ← Fs.readdir t dir;
    for_each
      (λ st f, t' ← rm st.1 (Fs.join dir [f]); Some (t', st.2 ++ [f]))
      (filter (λ d, startsWith prefixPattern d = true) entries)
      (t, [])
  else Some (t, []).

(** [runClean(ctx, prefix)] *)
Definition runClean (t : gmap (list (list N)) Fs.node) (ctx : TargetContext)
    (prefix : list N)
    : option (gmap (list (list N)) Fs.node * CleanResult) :=
  if negb (truthy prefix) then Some (t, mkClean [] [] [] 0)
  else
    let prefixPattern := prefix ++ lit "-" in
    '(t1, skills) ← clean_dir Fs.rm_rf (skillsDir ctx) prefixPattern t;
    '(t2, agents) ← clean_dir Fs.rm_f (agentsDir ctx) prefixPattern t1;
    '(t3, commands) ← clean_dir Fs.rm_f (commandsDir ctx) prefixPattern t2;
    Some (t3, mkClean skills agents commands
                (length skills + length agents + length commands)%nat).

(** ** lib/translators/hooks.ts *)

Record ExtractedRule := mkRule {
  filename : list N;
  title : list N;
  content : list N;
}.

Definition EXTRACTED_RULES : list ExtractedRule :=
[
  {| filename := lit "no-console-log.md";
     title := lit "No console.log in Production Code";
     content :=
lit "# No console.log in Production Code

Remove all `console.log` statements before committing.

## Why
- Clutters production output
- May leak sensitive data
- Indicates incomplete debugging

## Instead
- Use a proper logger (e.g., `winston`, `pino`) for server-side logging
- Use conditional debug logging: `if (process.env.NODE_ENV === 'development')`
- Remove debug logs entirely before committing

## Checklist
- [ ] No `console.log` in committed code
- [ ] Use structured logging for production
- [ ] Debug logging gated behind environment check
" |};
  {| filename := lit "review-before-push.md";
     title := lit "Review Changes Before Pushing";
     content :=
lit "# Review Changes Before Pushing

Always review your changes before pushing to remote.

## Before `git push`
1. Run `git diff` to review unstaged changes
2. Run `git diff --staged` to review staged changes
3. Run `git log --oneline -5` to verify commit history
4. Ensure no secrets, debug code, or incomplete work is included

## Checklist
- [ ] All changes are intentional
- [ ] No hardcoded secrets or API keys
- [ ] No console.log or debug statements
- [ ] Commit messages follow conventional format
- [ ] Tests pass locally
" |};
  {| filename := lit "minimal-docs.md";
     title := lit "Minimal Documentation Files";
     content :=
lit "# Minimal Documentation Files

Avoid creating unnecessary documentation files. Consolidate documentation in existing files.

## Guidelines
- Use the project's README.md for documentation
- Don't create random .md or .txt files for notes
- Keep documentation close to the code it describes
- Use code comments for implementation details
- Use JSDoc/docstrings for API documentation

## Acceptable documentation files
- README.md " ++ [8212] ++ lit " project overview
- CONTRIBUTING.md " ++ [8212] ++ lit " contribution guidelines
- CHANGELOG.md " ++ [8212] ++ lit " version history
- API documentation generated from code
" |}
].

(** [translateHooks(repoDir, ctx, prefix, dryRun)]: the tree after the call
    and the list of the relative paths it reports as written. *)
Definition translateHooks (src tgt : gmap (list (list N)) Fs.node)
    (ctx : TargetContext) (prefix : list N) (dryRun : bool)
    : option (gmap (list (list N)) Fs.node * list (list N)) :=
  let hooksFile := Fs.join [] [SRC_HOOKS; lit "hooks.json"] in
  if negb (Fs.existsSync src hooksFile) then Some (tgt, [])
  else
    let codingStdSkillName := prefixName prefix (lit "coding-standards") in
    let codingStdRulesDir :=
      Fs.join (skillsDir ctx) [codingStdSkillName; lit "rules"] in
    tgt0 ← (if dryRun then Some tgt else Fs.mkdir_p tgt codingStdRulesDir);
    for_each
      (λ st rule,
         let targetRel :=
           lit "skills/" ++ codingStdSkillName ++ lit "/rules/"
             ++ filename rule in
         t' ← (if dryRun then Some st.1
               else Fs.writeFile st.1
                      (Fs.join codingStdRulesDir [filename rule])
                      (content rule));
         Some (t', st.2 ++ [targetRel]))
      EXTRACTED_RULES (tgt0, []).

(** ** lib/translators/agents.ts and commands.ts

    The rewriting of a document body and the two heuristics that read a
    title and a description off a document decide the text that is written,
    not where or whether it is written.  The translators are embedded over
    them: [prefixRewrite prefix] stands for the seven prefix-dependent rules
    of [getContentTransforms(prefix)], applied in order; [stripSections path]
    for the strip pass with the patterns of [STRIP_SECTIONS[path]]. *)

Section translators.
Variable prefixRewrite : list N → list N → list N.
Variable stripSections : list N → list N → list N.
Variable extractTitle : list N → list N.
Variable inferDescription : list N → list N.

(** [transformContent(content, prefix, sourcePath?)] *)
Definition transformContent (content prefix : list N)
    (sourcePath : option (list N)) : list N :=
  let stripped :=
    match sourcePath with
    | Some path => if truthy path then stripSections path content
                   else content
    | None => content
    end in
  collapseBlankLines (applyStatic (prefixRewrite prefix stripped)).

(** [(await readdir(srcDir)).filter((f) => f.endsWith('.md'))] *)
Definition md_files (entries : list (list N)) : list (list N) :=
  filter (λ f, endsWith (lit ".md") f = true) entries.

(** [file.replace(/\.md$/, '')] *)
Definition strip_md (file : list N) : list N :=
  if endsWith (lit ".md") file then take (length file - 3) file else file.

(** [translateAgents(repoDir, ctx, prefix, dryRun)] *)
Definition translateAgents (src tgt : gmap (list (list N)) Fs.node)
    (ctx : TargetContext) (prefix : list N) (dryRun : bool)
    : option (gmap (list (list N)) Fs.node * list (list N)) :=
  let srcDir := Fs.join [] [SRC_AGENTS] in
  match Fs.readdir src srcDir with
  | None => Some (tgt, [])
  | Some entries =>
      let files := md_files entries in
      tgt0 ← Fs.mkdir_p tgt (agentsDir ctx);
      for_each
        (λ st file,
           let sourcePath := SRC_AGENTS ++ lit "/" ++ file in
           if bool_decide (sourcePath ∈ SKIP_FILES) then Some st
           else
             raw ← Fs.readFile src (Fs.join srcDir [file]);
             let doc := parseFrontmatter raw in
             let name :=
               prefixName prefix
                 (or_else (Obj.get (frontmatter doc) (lit "name"))
                          (strip_md file)) in
             let description :=
               or_else (Obj.get AGENT_DESCRIPTION_OVERRIDES file)
                 (or_else (Obj.get (frontmatter doc) (lit "description"))
                          []) in
             let newFm :=
               buildFrontmatter [ (lit "name", FString name);
                                  (lit "description", FString description) ] in
             let transformedBody :=
               transformContent (body doc) prefix (Some sourcePath) in
             let content :=
               newFm ++ [NL; NL] ++ trimStart transformedBody in
             let targetRel := lit "agents/" ++ name ++ lit ".md" in
             let targetFull :=
               Fs.join (agentsDir ctx) [name ++ lit ".md"] in
             t' ← (if dryRun then Some st.1
                   else Fs.writeFile st.1 targetFull content);
             Some (t', st.2 ++ [targetRel]))
        files (tgt0, [])
  end.

(** [translateCommands(repoDir, ctx, prefix, dryRun)] *)
Definition translateCommands (src tgt : gmap (list (list N)) Fs.node)
    (ctx : TargetContext) (prefix : list N) (dryRun : bool)
    : option (gmap (list (list N)) Fs.node * list (list N)) :=
  let srcDir := Fs.join [] [SRC_COMMANDS] in
  match Fs.readdir src srcDir with
  | None => Some (tgt, [])
  | Some entries =>
      let files := md_files entries in
      tgt0 ← (if dryRun then Some tgt else Fs.mkdir_p tgt (commandsDir ctx));
      for_each
        (λ st file,
           let sourcePath := SRC_COMMANDS ++ lit "/" ++ file in
           if bool_decide (sourcePath ∈ SKIP_FILES) then Some st
           else
             raw ← Fs.readFile src (Fs.join srcDir [file]);
             let doc := parseFrontmatter raw in
             let baseName := strip_md file in
             let skillName := prefixName prefix baseName in
             let description :=
               or_else (Obj.get SKILL_DESCRIPTION_OVERRIDES sourcePath)
                 (or_else (Obj.get (frontmatter doc) (lit "description"))
                          (inferDescription raw)) in
             let skillFm :=
               buildFrontmatter [ (lit "name", FString skillName);
                                  (lit "description", FString description) ] in
             let transformedBody :=
               transformContent (body doc) prefix (Some sourcePath) in
             let skillContent :=
               skillFm ++ [NL; NL] ++ trimStart transformedBody in
             let skillTargetDir := Fs.join (skillsDir ctx) [skillName] in
             let skillTargetRel :=
               lit "skills/" ++ skillName ++ lit "/SKILL.md" in
             t1 ← (if dryRun then Some st.1
                   else t0 ← Fs.mkdir_p st.1 skillTargetDir;
                        Fs.writeFile t0
                          (Fs.join skillTargetDir [lit "SKILL.md"])
                          skillContent);
             let title :=
               or_else (Some (extractTitle (body doc)))
                 (Re.replace_global (Re.literal (lit "-")) (lit " ")
                    baseName) in
             let shortDesc :=
               or_else (Obj.get (frontmatter doc) (lit "description"))
                 (default [] (head (split 46 description)) ++ lit ".") in
             let cmdContent :=
               lit "# " ++ title ++ [NL; NL] ++ shortDesc ++ [NL; NL]
               ++ lit "For the full workflow, read and follow the skill at"
               ++ [NL] ++ lit "~/.cursor/skills/" ++ skillName
               ++ lit "/SKILL.md" ++ [NL] in
             let cmdFileName := prefixName prefix baseName ++ lit ".md" in
             let cmdTargetRel := lit "commands/" ++ cmdFileName in
             t2 ← (if dryRun then Some t1
                   else Fs.writeFile t1
                          (Fs.join (commandsDir ctx) [cmdFileName])
                          cmdContent);
             Some (t2, st.2 ++ [skillTargetRel; cmdTargetRel]))
        files (tgt0, [])
  end.
End translators.

(** ** lib/translators/mcp.ts *)

(** The values the sources leave untyped ([unknown]); they are copied, never
    inspected. A number is kept as the numeral that [JSON.stringify] writes
    for it. *)
#[local] Unset Elimination Schemes.
Inductive json :=
  | JNull
  | JBool (b : bool)
  | JNum (literal : list N)
  | JStr (s : list N)
  | JArr (items : list json)
  | JObj (fields : list (list N * json)).
#[local] Set Elimination Schemes.

(** [interface ServerConfig]: the four declared optional properties and the
    index signature. *)
Record ServerConfig := mkServerConfig {
  command : option (list N);
  args : option (list (list N));
  env : option (list (list N * list N));
  config_description : option (list N);
  extra : list (list N * json);
}.

(** What [JSON.parse] has put under a name of [mcpServers]. The interfaces
    declare a server definition there, but nothing validates the file: the
    value is an object, read through [ServerConfig], or any other value of
    JSON. *)
Inductive value :=
  | VNull
  | VBool (b : bool)
  | VNum (literal : list N)
  | VStr (s : list N)
  | VArr (items : list json)
  | VObj (c : ServerConfig).

(** A value read as a condition: [null], [false], zero and the empty string
    are falsy, every other value is truthy. *)
Definition value_truthy (v : value) : bool :=
  match v with
  | VNull => false
  | VBool b => b
  | VNum literal => negb (bool_decide (literal = lit "0"))
  | VStr s => truthy s
  | VArr _ => true
  | VObj _ => true
  end.

(** [interface McpConfig] *)
Record McpConfig := mkMcpConfig {
  mcpServers : list (list N * value);
  otherFields : list (list N * json);
}.

(** What [JSON.parse] yields for the text of an object: the properties of
    [mcpServers], where that is an object, in the order of their
    enumeration, [None] where it is missing or falsy, and the other
    properties. *)
Record McpFile := mkMcpFile {
  file_mcpServers : option (list (list N * value));
  file_otherFields : list (list N * json);
}.

(** [interface AvailableServer] *)
Record AvailableServer := mkAvailableServer {
  name : list N;
  description : list N;
  config : value;
}.

(** [type McpSelection = 'none' | 'all' | string[]] *)
Inductive McpSelection :=
  | SelNone
  | SelAll
  | SelNames (names : list (list N)).

(** [interface McpResult] *)
Record McpResult := mkMcpResult {
  added : nat;
  skipped : nat;
  updatedSelection : McpSelection;
}.

(** [pattern.test(s)]: the pattern matches at some position of [s]. *)
Fixpoint test (at_position : list N → bool) (s : list N) : bool :=
  at_position s ||
  match s with
  | [] => false
  | _ :: s' => test at_position s'
  end.

(** The [i] flag on ASCII letters. *)
Definition upper (c : N) : N :=
  if (97 <=? c) && (c <=? 122) then c - 32 else c.

Definition includes (p s : list N) : bool := test (startsWith p) s.
Definition includes_ci (p s : list N) : bool :=
  includes (upper <$> p) (upper <$> s).

(** The eleven [authPatterns] of [requiresAuth], tested on the serialised
    definition. *)
Definition auth_pattern (json : list N) : bool :=
  (* /api[_-]?key/i *)
  includes_ci (lit "apikey") json || includes_ci (lit "api_key") json
  || includes_ci (lit "api-key") json
  || includes_ci (lit "token") json
  || includes_ci (lit "secret") json
  || includes_ci (lit "password") json
  || includes_ci (lit "auth") json
  || includes_ci (lit "bearer") json
  || includes_ci (lit "credentials") json
  (* /\$\{[^}]*\}/ *)
  || test (λ s, startsWith (lit "${") s && includes (lit "}") (drop 2 s)) json
  || includes (lit "process.env.") json
  (* /YOUR_[A-Z_]+/ *)
  || test (λ s, startsWith (lit "YOUR_") s &&
                match drop 5 s with
                | c :: _ => ((65 <=? c) && (c <=? 90)) || (c =? 95)
                | [] => false
                end) json
  || includes (lit "/path/to/") json.

(** [/key|token|secret|password|auth|api/i.test(k)] *)
Definition auth_env_key (k : list N) : bool :=
  includes_ci (lit "key") k || includes_ci (lit "token") k
  || includes_ci (lit "secret") k || includes_ci (lit "password") k
  || includes_ci (lit "auth") k || includes_ci (lit "api") k.

(** [cursorMcp.mcpServers[name]] read as a condition: an own property
    counts when its value is truthy, an inherited one holds a function or
    the prototype. *)
Definition has_server (servers : list (list N * value))
    (name : list N) : bool :=
  match Obj.get servers name with
  | Some v => value_truthy v
  | None => bool_decide (name ∈ Obj.inherited)
  end.

(** The key of the element [i] of a string or an array. *)
Definition index_key (i : nat) : list N :=
  lit (DecimalString.NilZero.string_of_uint (Nat.to_uint i)).

(** [{ ...config }]: the own properties of an object; the elements of a
    string or an array under their indices; nothing of any other value. *)
Definition spread (config : value) : ServerConfig :=
  match config with
  | VObj c => c
  | VStr s => mkServerConfig None None None None
                (imap (λ i c, (index_key i, JStr [c])) s)
  | VArr items => mkServerConfig None None None None
                    (imap (λ i x, (index_key i, x)) items)
  | VNull | VBool _ | VNum _ => mkServerConfig None None None None []
  end.

(** [{ ...server.config }] without [description], [npx] replaced by
    [bunx]. *)
Definition cleanConfig (config : value) : ServerConfig :=
  let c := spread config in
  {| command := if decide (command c = Some (lit "npx"))
                then Some (lit "bunx") else command c;
     args := args c;
     env := env c;
     config_description := None;
     extra := extra c |}.

(** [resolveSelectedServers(available, selection)] *)
Definition resolveSelectedServers
    (available : list AvailableServer) (selection : McpSelection)
    : list AvailableServer :=
  match selection with
  | SelNone => []
  | SelAll => available
  | SelNames names =>
      let nameSet : gset (list N) := list_to_set names in
      filter (λ s, name s ∈ nameSet) available
  end.

(** The loop of [translateMcp] over the servers to install: the servers of
    the registry and the two counters. *)
Definition install_one (dryRun : bool)
    (st : list (list N * value) * nat * nat) (server : AvailableServer)
    : list (list N * value) * nat * nat :=
  let '(servers, added, skipped) := st in
  if has_server servers (name server) then (servers, added, S skipped)
  else
    let clean := cleanConfig (config server) in
    ((if dryRun then servers
      else Obj.set servers (name server) (VObj clean)),
     S added, skipped).

Definition install_all (dryRun : bool) (toInstall : list AvailableServer)
    (servers : list (list N * value))
    : list (list N * value) * nat * nat :=
  foldl (install_one dryRun) (servers, 0%nat, 0%nat) toInstall.

(** [JSON.parse] and [JSON.stringify] are the engine's, not the program's:
    the program is embedded over them. *)
Section mcp.
(** [JSON.parse(raw)], read as a configuration; [None] when it throws, or
    returns [null], of which no property can be read. *)
Variable JSON_parse : list N → option McpFile.
(** [JSON.stringify(config, null, 2)] *)
Variable JSON_stringify : McpConfig → list N.
(** [JSON.stringify(serverConfig)] *)
Variable JSON_stringify_server : value → list N.

(** [readMcpConfig(mcpFile)]: the empty configuration when the file is
    missing, unreadable or no JSON. *)
Definition readMcpConfig (t : gmap (list (list N)) Fs.node)
    (mcpFile : list (list N)) : McpConfig :=
  if negb (Fs.existsSync t mcpFile) then mkMcpConfig [] []
  else
    match Fs.readFile t mcpFile ≫= JSON_parse with
    | Some file =>
        mkMcpConfig (default [] (file_mcpServers file))
                    (file_otherFields file)
    | None => mkMcpConfig [] []
    end.

(** [writeMcpConfig(mcpFile, config)] *)
Definition writeMcpConfig (t : gmap (list (list N)) Fs.node)
    (mcpFile : list (list N)) (config : McpConfig)
    : option (gmap (list (list N)) Fs.node) :=
  Fs.writeFile t mcpFile (JSON_stringify config ++ [NL]).

(** [requiresAuth(serverConfig)]; [None] when it throws: behind the
    patterns it reads [serverConfig.env], which [null] does not have. *)
Definition requiresAuth (serverConfig : value) : option bool :=
  if auth_pattern (JSON_stringify_server serverConfig) then Some true
  else
    match serverConfig with
    | VNull => None
    | VObj c =>
        Some match env c with
             | Some e => match e with
                         | [] => false
                         | _ :: _ => existsb (λ kv, auth_env_key kv.1) e
                         end
             | None => false
             end
    | VBool _ | VNum _ | VStr _ | VArr _ => Some false
    end.

(** [serverConfig.description || ''] *)
Definition description_of (serverConfig : value) : list N :=
  match serverConfig with
  | VObj c => or_else (config_description c) []
  | _ => []
  end.

(** The loop of [getAvailableServers] over the entries of the source. *)
Fixpoint available_of (srcServers : list (list N * value))
    : option (list AvailableServer) :=
  match srcServers with
  | [] => Some []
  | (name, serverConfig) :: rest =>
      if bool_decide (name ∈ TOKEN_REQUIRED_MCP_SERVERS)
      then available_of rest
      else
        auth ← requiresAuth serverConfig;
        available ← available_of rest;
        Some (if auth : bool then available
              else mkAvailableServer name (description_of serverConfig)
                     serverConfig :: available)
  end.

(** [getAvailableServers(repoDir)] *)
Definition getAvailableServers (src : gmap (list (list N)) Fs.node)
    : option (list AvailableServer) :=
  let srcFile := Fs.join [] [SRC_MCP; lit "mcp-servers.json"] in
  if negb (Fs.existsSync src srcFile) then Some []
  else
    srcRaw ← Fs.readFile src srcFile;
    srcConfig ← JSON_parse srcRaw;
    let srcServers := default [] (file_mcpServers srcConfig) in
    available_of srcServers.

(** [translateMcp(repoDir, ctx, dryRun, selection)] *)
Definition translateMcp (src tgt : gmap (list (list N)) Fs.node)
    (ctx : TargetContext) (dryRun : bool) (selection : McpSelection)
    : option (gmap (list (list N)) Fs.node * McpResult) :=
  available ← getAvailableServers src;
  match available with
  | [] => Some (tgt, mkMcpResult 0 0 selection)
  | _ :: _ =>
      match selection with
      | SelNone => Some (tgt, mkMcpResult 0 0 selection)
      | _ =>
          let toInstall := resolveSelectedServers available selection in
          let cursorMcp := readMcpConfig tgt (mcpFile ctx) in
          let '(servers, added, skipped) :=
            install_all dryRun toInstall (mcpServers cursorMcp) in
          tgt' ← (if negb dryRun && (0 <? added)%nat
                  then writeMcpConfig tgt (mcpFile ctx)
                         (mkMcpConfig servers (otherFields cursorMcp))
                  else Some tgt);
          Some (tgt', mkMcpResult added skipped selection)
      end
  end.
End mcp.

(** ** Vocabulary of the specification *)

(** The three target directories that the scanner lists. *)
Inductive container :=
  | Skills
  | Agents
  | Commands.

Definition container_dir (ctx : TargetContext) (c : container)
    : list (list N) :=
  match c with
  | Skills => skillsDir ctx
  | Agents => agentsDir ctx
  | Commands => commandsDir ctx
  end.

Definition listing (c : container) (r : ScanResult) : list (list N) :=
  match c with
  | Skills => skills r
  | Agents => agents r
  | Commands => commands r
  end.

(** The directory [dir] is there and holds an entry named [item]: the state
    that writing the item into the directory leaves. *)
Definition has_entry (t : gmap (list (list N)) Fs.node)
    (dir : list (list N)) (item : list N) : Prop :=
  Fs.lookup_node t dir = Some Fs.Dir ∧ is_Some (t !! (dir ++ [item])).




(** A key that the line pattern of [parseFrontmatter] reads back: a word
    character followed by word characters and dashes, and not the one name
    that cannot be assigned as a string property. *)
Definition is_header_key (k : list N) : bool :=
  match k with
  | [] => false
  | c :: _ => is_word c
  end
  && forallb is_key_char k
  && negb (bool_decide (k = lit "__proto__")).

Definition no_line_terminator (v : list N) : bool :=
  forallb (λ c, negb (is_line_terminator c)) v.

(** The text that [buildFrontmatter] writes behind the key. *)
Definition render (v : field) : list N :=
  match v with
  | FBool b => if b then lit "true" else lit "false"
  | FString value =>
      trim (Re.replace_global (Re.newlines_at_least 1) (lit " ") value)
  end.

(** A value that survives the writing and the reading unchanged: no line
    terminator, no white space at either end, no pair of quotes around it. *)
Definition plain_value (v : list N) : Prop :=
  no_line_terminator v = true ∧ trim v = v ∧ unquote v = v.

(** No white space at either end. *)
Definition tight (m : list N) : Prop :=
  (∀ c, head m = Some c → is_space c = false) ∧
  (∀ c, last m = Some c → is_space c = false).

(** The code unit before a position: the last one of what has been passed,
    or the one before that. *)
Definition last_or (a : list N) (prev : option N) : option N :=
  match last a with
  | Some c => Some c
  | None => prev
  end.

(** The pattern [m] matches somewhere in [s], which follows [prev]. *)
Definition fires (m : Re.matcher) (prev : option N) (s : list N) : Prop :=
  ∃ a b, s = a ++ b ∧ is_Some (m (last_or a prev) b).

(** [p] occurs in [s]. *)
Definition occurs (p s : list N) : Prop := ∃ a b, s = a ++ p ++ b.

(** The blank lines of a text, counted run by run: the lengths of the
    maximal runs of consecutive empty lines. *)
Fixpoint blank_runs (current : nat) (lines : list (list N)) : list nat :=
  let flush := match current with O => [] | S _ => [current] end in
  match lines with
  | [] => flush
  | [] :: rest => blank_runs (S current) rest
  | (_ :: _) :: rest => flush ++ blank_runs 0 rest
  end.

(** *** Rules that replace a literal

    Every static rule replaces a literal text, one of them between word
    boundaries. *)
Record literal_rule := mkLiteralRule {
  bounded : bool;
  rule_pattern : list N;
  rule_replace : list N;
}.

Definition matcher_of (ρ : literal_rule) : Re.matcher :=
  if bounded ρ then Re.word_literal (rule_pattern ρ)
  else Re.literal (rule_pattern ρ).

Definition transform_of (ρ : literal_rule) : ContentTransform :=
  mkTransform (matcher_of ρ) (rule_replace ρ).

Definition static_rules : list literal_rule :=
  [ mkLiteralRule false (lit "~/.claude/") (lit "~/.cursor/");
    mkLiteralRule false (lit "CLAUDE.md") (lit "project configuration");
    mkLiteralRule false (lit "Claude Code CLI") (lit "Cursor");
    mkLiteralRule false (lit "Claude Code") (lit "Cursor");
    mkLiteralRule true (lit "Bash tool") (lit "Shell tool");
    mkLiteralRule false (quoted (lit "Bash")) (quoted (lit "Shell"));
    mkLiteralRule false (quoted (lit "Edit")) (quoted (lit "StrReplace")) ].

(** What a pattern for the literal [p] has to be for the lemmas below: it
    matches [p] only, and whether it matches depends on the code units around
    the match by their being word characters or not. *)
Record literal_like (m : Re.matcher) (p : list N) : Prop := {
  ll_nonempty : p ≠ [];
  ll_sound : ∀ prev s n,
    m prev s = Some n → n = length p ∧ p `prefix_of` s;
  ll_context : ∀ prev prev' v v',
    Re.is_word_opt prev = Re.is_word_opt prev' →
    Re.is_word_opt (head v) = Re.is_word_opt (head v') →
    m prev (p ++ v) = m prev' (p ++ v');
}.

(** One of two texts begins with the other. *)
Definition comparable (a b : list N) : bool :=
  startsWith a b || startsWith b a.

(** The non-empty suffixes of a text. *)
Fixpoint tails (l : list N) : list (list N) :=
  match l with
  | [] => []
  | _ :: l' => l :: tails l'
  end.

(** An inserted [r] and an occurrence of [q] cannot overlap. *)
Definition no_clash (r q : list N) : bool :=
  forallb (λ r2, negb (comparable r2 q)) (tails r)
  && forallb (λ q2, negb (comparable q2 r)) (tails q).

(** The replacement begins and ends like the pattern, as far as word
    boundaries can tell. *)
Definition same_ends (ρ : literal_rule) : bool :=
  match rule_pattern ρ, rule_replace ρ with
  | _ :: _, _ :: _ =>
      eqb (Re.is_word_opt (head (rule_pattern ρ)))
          (Re.is_word_opt (head (rule_replace ρ)))
      && eqb (Re.is_word_opt (last (rule_pattern ρ)))
             (Re.is_word_opt (last (rule_replace ρ)))
  | _, _ => false
  end.

(** No rule of the list creates a match of [ρ']. *)
Definition harmless (rules : list literal_rule) (ρ' : literal_rule) : bool :=
  forallb (λ ρ, same_ends ρ && no_clash (rule_replace ρ) (rule_pattern ρ'))
          rules.

(** Every rule of the list is harmless for itself and so are those behind
    it. *)
Fixpoint settled (rules : list literal_rule) : bool :=
  match rules with
  | [] => true
  | ρ :: rest => harmless (ρ :: rest) ρ && settled rest
  end.

(** The pattern of [ρ] matches nowhere in [s]. *)
Definition quiet (ρ : literal_rule) (s : list N) : Prop :=
  ¬ fires (matcher_of ρ) None s.

(** The static rules without quotes in their patterns, and the two with. *)
Definition unquoted_rules : list literal_rule := take 5 static_rules.
Definition quoted_rules : list literal_rule := drop 5 static_rules.

(** The directory that receives the guideline documents, and the relative
    paths under which [translateHooks] reports them. *)
Definition hook_rules_dir (ctx : TargetContext) (prefix : list N)
    : list (list N) :=
  Fs.join (skillsDir ctx) [prefixName prefix (lit "coding-standards");
                           lit "rules"].

Definition hook_path (prefix : list N) (rule : ExtractedRule) : list N :=
  lit "skills/" ++ prefixName prefix (lit "coding-standards")
    ++ lit "/rules/" ++ filename rule.

Definition hook_paths (prefix : list N) : list (list N) :=
  hook_path prefix <$> EXTRACTED_RULES.

(** The name of a single directory entry: no separator in it, and none of
    the names that [path.join] interprets. *)
Definition plain_name (seg : list N) : bool :=
  negb (bool_decide (SLASH ∈ seg))
  && negb (bool_decide (seg = [] ∨ seg = lit "."))
  && negb (bool_decide (seg = lit "..")).

(** The body of the loop of [translateHooks], and the tree that the loop
    leaves when every document is written. *)
Definition hook_step (dir : list (list N)) (prefix : list N) (dryRun : bool)
    (st : gmap (list (list N)) Fs.node * list (list N))
    (rule : ExtractedRule)
    : option (gmap (list (list N)) Fs.node * list (list N)) :=
  t' ← (if dryRun then Some st.1
        else Fs.writeFile st.1 (Fs.join dir [filename rule]) (content rule));
  Some (t', st.2 ++ [hook_path prefix rule]).

Definition hook_written (dir : list (list N))
    (t : gmap (list (list N)) Fs.node) (rules : list ExtractedRule)
    : gmap (list (list N)) Fs.node :=
  foldl (λ t r, <[dir ++ [filename r] := Fs.File (content r)]> t) t rules.

(** ** Sample trees and a sample JSON engine *)

(** A target in which the skill [ecc-go-x] has been installed under the
    prefix [ecc-go]. *)
Definition scan_target : gmap (list (list N)) Fs.node :=
  default ∅
    (Fs.mkdir_p ∅ [lit "home"; lit ".cursor"; lit "skills";
                   prefixName (lit "ecc-go") (lit "x")]).

(** A source tree that holds nothing but [hooks/hooks.json]. *)
Definition hooks_only : gmap (list (list N)) Fs.node :=
  <[ [lit "hooks"; lit "hooks.json"] := Fs.File (lit "{ }") ]>
    (<[ [lit "hooks"] := Fs.Dir ]> ∅).

(** A source tree with one agent. *)
Definition one_agent : gmap (list (list N)) Fs.node :=
  <[ [lit "agents"; lit "planner.md"] :=
       Fs.File (lit "---" ++ [NL] ++ lit "name: planner" ++ [NL]
                ++ lit "---" ++ [NL] ++ lit "Plan first." ++ [NL]) ]>
    (<[ [lit "agents"] := Fs.Dir ]> ∅).

(** A source tree with a service list of two, a target whose registry holds
    one of the two already, a target whose registry binds the name of the
    other to [null], and a JSON engine that knows these three texts. *)
Definition server_memory : ServerConfig :=
  mkServerConfig (Some (lit "npx")) (Some [lit "-y"; lit "memory-server"])
                 None (Some (lit "Persistent memory")) [].

Definition server_time : ServerConfig :=
  mkServerConfig (Some (lit "npx")) (Some [lit "-y"; lit "time-server"])
                 None None [].

Definition server_memory_installed : ServerConfig :=
  mkServerConfig (Some (lit "node")) (Some [lit "memory.js"]) None None [].

Definition sample_source : gmap (list (list N)) Fs.node :=
  <[ [lit "mcp-configs"; lit "mcp-servers.json"] := Fs.File (lit "SOURCE") ]>
    (<[ [lit "mcp-configs"] := Fs.Dir ]> ∅).

Definition sample_target : gmap (list (list N)) Fs.node :=
  <[ [lit "home"; lit ".cursor"; lit "mcp.json"] := Fs.File (lit "TARGET") ]>
    (<[ [lit "home"; lit ".cursor"] := Fs.Dir ]>
       (<[ [lit "home"] := Fs.Dir ]> ∅)).


Definition sample_parse (raw : list N) : option McpFile :=
  if decide (raw = lit "SOURCE") then
    Some (mkMcpFile (Some [ (lit "memory", VObj server_memory);
                            (lit "time", VObj server_time) ]) [])
  else if decide (raw = lit "TARGET") then
    Some (mkMcpFile (Some [ (lit "memory", VObj server_memory_installed) ])
            [])
  else if decide (raw = lit "NULLED") then
    Some (mkMcpFile (Some [ (lit "time", VNull) ]) [])
  else None.

Definition sample_stringify (config : McpConfig) : list N := lit "MERGED".

Definition sample_stringify_server (serverConfig : value) : list N :=
  match serverConfig with
  | VObj c => default [] (command c)
  | _ => lit "null"
  end.

(** ** lib/transform.ts: the title and the description of a document *)

Definition HASH : N := 35.

(** A pattern with the [m] flag that begins with [^] is tried where a line
    begins: at the start of the subject and behind every line terminator,
    from left to right; the first match is the result. *)
Fixpoint search_lines {A} (at_line_start : list N → option A) (bol : bool)
    (s : list N) : option A :=
  match (if bol then at_line_start s else None) with
  | Some r => Some r
  | None =>
      match s with
      | [] => None
      | c :: s' => search_lines at_line_start (is_line_terminator c) s'
      end
  end.

(** [/^#\s+( .+ )$/m] behind the [#] (blanks added): [\s+] takes all the
    white space there is and gives it back unit by unit, down to one, until
    the group finds a code unit that is no line terminator; the group then
    runs to the end of the line, where [$] holds.  [k] is the number of code
    units that [\s+] holds. *)
Fixpoint heading_text (k : nat) (s : list N) : option (list N) :=
  match k with
  | O => None
  | S k' =>
      match takeWhile (λ c, negb (is_line_terminator c)) (drop k s) with
      | [] => heading_text k' s
      | c :: g => Some (c :: g)
      end
  end.

Definition match_heading (s : list N) : option (list N) :=
  match s with
  | c :: s' =>
      if c =? HASH then heading_text (length (takeWhile is_space s')) s'
      else None
  | [] => None
  end.

(** [extractTitle(content)] *)
Definition extractTitle (content : list N) : list N :=
  match search_lines match_heading true content with
  | Some g => trim g
  | None => []
  end.

(** [content.replace(/^---[\s\S]*?---\s*\n?/, '')]: without the [m] flag the
    pattern is tried at the start only; the lazy middle part ends at the
    first [---] behind the opening one; [\s*] takes all the white space
    behind it, which leaves nothing to [\n?]. *)
Definition strip_header (content : list N) : list N :=
  if startsWith (lit "---") content then
    match indexOf (lit "---") (drop 3 content) with
    | Some i => dropWhile is_space (drop (i + 3) (drop 3 content))
    | None => content
    end
  else content.

(** [/^#.*\n+( [^#\n][^\n]+ )/m] where a line begins (blanks added): [.*]
    runs to the end of the line, which has to be a line feed; [\n+] takes
    all the line feeds there are; the group is a code unit that is neither
    [#] nor a line feed, followed by one code unit at least, up to the next
    line feed.  Nothing that one of the parts gives back lets another part
    match. *)
Definition match_first_paragraph (s : list N) : option (list N) :=
  match s with
  | c :: s' =>
      if c =? HASH then
        let after := dropWhile (λ c, negb (is_line_terminator c)) s' in
        let k := length (takeWhile (λ c, c =? NL) after) in
        match k, drop k after with
        | S _, c1 :: rest =>
            if c1 =? HASH then None
            else match takeWhile (λ c, negb (c =? NL)) rest with
                 | [] => None
                 | c2 :: g => Some (c1 :: c2 :: g)
                 end
        | _, _ => None
        end
      else None
  | [] => None
  end.

(** [inferDescription(content)] *)
Definition inferDescription (content : list N) : list N :=
  let body := strip_header content in
  match search_lines match_first_paragraph true body with
  | Some g =>
      let desc := trim g in
      if (200 <? length desc)%nat then take 197 desc ++ lit "..." else desc
  | None =>
      or_else (Some (extractTitle content))
              (lit "Imported from Everything Claude Code")
  end.

(** ** lib/scanner.ts: both places *)

(** [scanAll(prefix)], with the two directories that it asks the process
    for: [homedir()] and [process.cwd()]. *)
Definition scanAll (t : gmap (list (list N)) Fs.node)
    (homedir cwd : list (list N)) (prefix : list N) : list ScanResult :=
  let userDir := Fs.join homedir [lit ".cursor"] in
  let results :=
    if Fs.existsSync t userDir then
      let result := scanDirectory t userDir prefix in
      if (0 <? totalFiles result)%nat then [result] else []
    else [] in
  let projectDir := Fs.join cwd [lit ".cursor"] in
  if Fs.existsSync t projectDir && negb (bool_decide (projectDir = userDir))
  then
    let result := scanDirectory t projectDir prefix in
    if (0 <? totalFiles result)%nat then results ++ [result] else results
  else results.

(** ** Vocabulary of the further properties *)

(** The number of line feeds that a text begins with. *)
Definition leading_newlines (s : list N) : nat :=
  length (takeWhile (λ c, c =? NL) s).

(** Every name in the tree is the name of a directory entry. *)
Definition plain_names (t : gmap (list (list N)) Fs.node) : Prop :=
  map_Forall (λ p _, forallb plain_name p = true) t.

(** What the two ways of removing have in common: the path is gone, and
    nothing has changed but paths below it, which are gone too. *)
Definition removes
    (rm : gmap (list (list N)) Fs.node → list (list N)
          → option (gmap (list (list N)) Fs.node)) : Prop :=
  ∀ t p t', rm t p = Some t' →
    t' !! p = None ∧
    ∀ q, t' !! q ≠ t !! q → t' !! q = None ∧ p `prefix_of` q.

(** A target in which a skill, an agent and a command have been installed
    under the prefix [ecc], beside an agent of the user and the registry. *)
Definition installed_target : gmap (list (list N)) Fs.node :=
  <[ [lit "home"; lit ".cursor"; lit "mcp.json"] := Fs.File (lit "{ }") ]>
  (<[ [lit "home"; lit ".cursor"; lit "commands"; lit "ecc-plan.md"]
        := Fs.File (lit "# plan") ]>
  (<[ [lit "home"; lit ".cursor"; lit "commands"] := Fs.Dir ]>
  (<[ [lit "home"; lit ".cursor"; lit "agents"; lit "mine.md"]
        := Fs.File (lit "my own agent") ]>
  (<[ [lit "home"; lit ".cursor"; lit "agents"; lit "ecc-planner.md"]
        := Fs.File (lit "planner") ]>
  (<[ [lit "home"; lit ".cursor"; lit "agents"] := Fs.Dir ]>
  (<[ [lit "home"; lit ".cursor"; lit "skills"; lit "ecc-plan"; lit "SKILL.md"]
        := Fs.File (lit "plan") ]>
  (<[ [lit "home"; lit ".cursor"; lit "skills"; lit "ecc-plan"] := Fs.Dir ]>
  (<[ [lit "home"; lit ".cursor"; lit "skills"] := Fs.Dir ]>
  (<[ [lit "home"; lit ".cursor"] := Fs.Dir ]>
  (<[ [lit "home"] := Fs.Dir ]> ∅)))))))))).

(** ** lib/translators/mcp.ts: the names of the installed servers *)

Section installed.
Variable JSON_parse : list N → option McpFile.


(** The source repository lists a server under the name [k] with the
    definition [c]. *)
Definition source_server (src : gmap (list (list N)) Fs.node)
    (k : list N) (c : value) : Prop :=
  ∃ raw file,
    Fs.readFile src (Fs.join [] [SRC_MCP; lit "mcp-servers.json"])
      = Some raw ∧
    JSON_parse raw = Some file ∧
    (k, c) ∈ default [] (file_mcpServers file).
End installed.

(** The servers of the sample source that are available. *)
Definition sample_available : list AvailableServer :=
  [ mkAvailableServer (lit "memory") (lit "Persistent memory")
      (VObj server_memory);
    mkAvailableServer (lit "time") [] (VObj server_time) ].

(** ** lib/translators/contexts.ts and skills.ts *)

Definition SRC_SKILLS : list N := lit "skills".
Definition SRC_CONTEXTS : list N := lit "contexts".

Section more_translators.
Variable prefixRewrite : list N → list N → list N.
Variable stripSections : list N → list N → list N.

(** [translateContexts(repoDir, ctx, prefix, dryRun)] *)
Definition translateContexts (src tgt : gmap (list (list N)) Fs.node)
    (ctx : TargetContext) (prefix : list N) (dryRun : bool)
    : option (gmap (list (list N)) Fs.node * list (list N)) :=
  let srcDir := Fs.join [] [SRC_CONTEXTS] in
  match Fs.readdir src srcDir with
  | None => Some (tgt, [])
  | Some entries =>
      for_each
        (λ st file,
           let sourcePath := SRC_CONTEXTS ++ lit "/" ++ file in
           raw ← Fs.readFile src (Fs.join srcDir [file]);
           let baseName := strip_md file in
           let skillName := prefixName prefix (lit "ctx-" ++ baseName) in
           let description := inferDescription raw in
           let fm :=
             buildFrontmatter [ (lit "name", FString skillName);
                                (lit "description", FString description) ] in
           let transformedBody :=
             transformContent prefixRewrite stripSections raw prefix
               (Some sourcePath) in
           let content := fm ++ [NL; NL] ++ trimStart transformedBody in
           let skillDir := Fs.join (skillsDir ctx) [skillName] in
           let targetRel := lit "skills/" ++ skillName ++ lit "/SKILL.md" in
           t' ← (if dryRun then Some st.1
                 else t0 ← Fs.mkdir_p st.1 skillDir;
                      Fs.writeFile t0 (Fs.join skillDir [lit "SKILL.md"])
                        content);
           Some (t', st.2 ++ [targetRel]))
        (md_files entries) (tgt, [])
  end.

(** The innermost loop of [translateSkills]: the documents of one
    sub-directory of a skill. *)
Definition copy_sub_files (src : gmap (list (list N)) Fs.node)
    (prefix : list N) (dryRun : bool)
    (skillName : list N) (skillOutDir subPath : list (list N)) (sub : list N)
    (subFiles : list (list N))
    (st : gmap (list (list N)) Fs.node * list (list N))
    : option (gmap (list (list N)) Fs.node * list (list N)) :=
  for_each
    (λ st sf,
       if negb (endsWith (lit ".md") sf) then Some st
       else
         rawSub ← Fs.readFile src (Fs.join subPath [sf]);
         let transformedSub :=
           transformContent prefixRewrite stripSections rawSub prefix None in
         let subTargetRel :=
           lit "skills/" ++ skillName ++ lit "/" ++ sub ++ lit "/" ++ sf in
         t' ← (if dryRun then Some st.1
               else t0 ← Fs.mkdir_p st.1 (Fs.join skillOutDir [sub]);
                    Fs.writeFile t0 (Fs.join skillOutDir [sub; sf])
                      transformedSub);
         Some (t', st.2 ++ [subTargetRel]))
    subFiles st.

(** [translateSkills(repoDir, ctx, prefix, dryRun)] *)
Definition translateSkills (src tgt : gmap (list (list N)) Fs.node)
    (ctx : TargetContext) (prefix : list N) (dryRun : bool)
    : option (gmap (list (list N)) Fs.node * list (list N)) :=
  let srcDir := Fs.join [] [SRC_SKILLS] in
  match Fs.readdir src srcDir with
  | None => Some (tgt, [])
  | Some dirs =>
      for_each
        (λ st dir,
           if bool_decide (SRC_SKILLS ++ lit "/" ++ dir ∈ SKIP_FILES)
           then Some st
           else
             let skillSrcDir := Fs.join srcDir [dir] in
             let skillMdPath := Fs.join skillSrcDir [lit "SKILL.md"] in
             if negb (Fs.existsSync src skillMdPath) then Some st
             else
               let skillName := prefixName prefix dir in
               let skillOutDir := Fs.join (skillsDir ctx) [skillName] in
               raw ← Fs.readFile src skillMdPath;
               let doc := parseFrontmatter raw in
               let description :=
                 or_else (Obj.get (frontmatter doc) (lit "description"))
                         (lit "Imported skill: " ++ dir) in
               let fm :=
                 buildFrontmatter
                   [ (lit "name", FString skillName);
                     (lit "description", FString description) ] in
               let transformedBody :=
                 transformContent prefixRewrite stripSections (body doc)
                   prefix
                   (Some (SRC_SKILLS ++ lit "/" ++ dir ++ lit "/SKILL.md")) in
               let content := fm ++ [NL; NL] ++ trimStart transformedBody in
               let targetRel :=
                 lit "skills/" ++ skillName ++ lit "/SKILL.md" in
               t1 ← (if dryRun then Some st.1
                     else t0 ← Fs.mkdir_p st.1 skillOutDir;
                          Fs.writeFile t0
                            (Fs.join skillOutDir [lit "SKILL.md"]) content);
               subEntries ← Fs.readdir src skillSrcDir;
               for_each
                 (λ st sub,
                    if decide (sub = lit "SKILL.md") then Some st
                    else
                      let subPath := Fs.join skillSrcDir [sub] in
                      match Fs.readdir src subPath with
                      | None => Some st
                      | Some subFiles =>
                          copy_sub_files src prefix dryRun skillName
                            skillOutDir subPath sub subFiles st
                      end)
                 subEntries (t1, st.2 ++ [targetRel]))
        dirs (tgt, [])
  end.
End more_translators.

(** A source tree with one context and one skill that has a rule. *)
Definition sample_repo : gmap (list (list N)) Fs.node :=
  <[ [lit "skills"; lit "tdd"; lit "rules"; lit "red.md"]
       := Fs.File (lit "Write the failing test with Claude Code.") ]>
  (<[ [lit "skills"; lit "tdd"; lit "rules"] := Fs.Dir ]>
  (<[ [lit "skills"; lit "tdd"; lit "SKILL.md"]
        := Fs.File (lit "---" ++ [NL] ++ lit "description: Test first"
                    ++ [NL] ++ lit "---" ++ [NL] ++ lit "# TDD" ++ [NL]) ]>
  (<[ [lit "skills"; lit "tdd"] := Fs.Dir ]>
  (<[ [lit "skills"] := Fs.Dir ]>
  (<[ [lit "commands"; lit "plan.md"]
        := Fs.File (lit "# Plan" ++ [NL; NL] ++ lit "Plan the work."
                    ++ [NL]) ]>
  (<[ [lit "commands"] := Fs.Dir ]>
  (<[ [lit "contexts"; lit "dev.md"]
        := Fs.File (lit "# Development" ++ [NL; NL]
                    ++ lit "Write code first." ++ [NL]) ]>
  (<[ [lit "contexts"] := Fs.Dir ]> ∅)))))))).

(** Rules that leave a text as it is, in the place of the rules that
    depend on the prefix and of the patterns of [STRIP_SECTIONS]. *)
Definition no_rewrite (key content : list N) : list N := content.

(** The documents of the [commands] directory that [translateCommands]
    translates, and the two paths that it reports for each of them. *)
Definition translated_commands (entries : list (list N)) : list (list N) :=
  filter (λ file, SRC_COMMANDS ++ lit "/" ++ file ∉ SKIP_FILES)
         (md_files entries).

Definition command_paths (prefix file : list N) : list (list N) :=
  [ lit "skills/" ++ prefixName prefix (strip_md file) ++ lit "/SKILL.md";
    lit "commands/" ++ prefixName prefix (strip_md file) ++ lit ".md" ].

(** What is in the tree stays in the tree, a directory as a directory. *)
Definition keeps (t t' : gmap (list (list N)) Fs.node) : Prop :=
  ∀ q, (t !! q = Some Fs.Dir → t' !! q = Some Fs.Dir) ∧
       (is_Some (t !! q) → is_Some (t' !! q)).

(** * Part II: lemmas and theorems *)

(** ** Strings *)

Lemma startsWith_prefix p s : startsWith p s = true ↔ p `prefix_of` s.
Proof.
  revert s. induction p as [|a p IH]; intros s; simpl.
  - split; [intros _; apply prefix_nil | done].
  - destruct s as [|b s].
    + split; [done | intros H; by apply prefix_nil_not in H].
    + rewrite andb_true_iff, N.eqb_eq, IH. split.
      * intros [-> H]. by apply prefix_cons.
      * intros H. split;
          [by apply prefix_cons_inv_1 in H | by apply prefix_cons_inv_2 in H].
Qed.

Lemma startsWith_app p s : startsWith p (p ++ s) = true.
Proof. apply startsWith_prefix. by apply prefix_app_r. Qed.

Lemma truthy_false s : truthy s = false ↔ s = [].
Proof. by destruct s. Qed.

Lemma truthy_true s : truthy s = true ↔ s ≠ [].
Proof. by destruct s. Qed.

Lemma prefixName_nonempty p b : p ≠ [] → prefixName p b = p ++ [DASH] ++ b.
Proof. intros Hp. unfold prefixName. by destruct p. Qed.

(** Two prefixes without a dash are told apart by the dash that ends them. *)
Lemma dash_free_prefix_unique (p p' b : list N) :
  DASH ∉ p → DASH ∉ p' →
  (p' ++ [DASH]) `prefix_of` (p ++ [DASH] ++ b) → p' = p.
Proof.
  revert p. induction p' as [|a p' IH]; intros [|c p] Hp Hp' Hpre; simpl in *.
  - done.
  - apply prefix_cons_inv_1 in Hpre. subst c. exfalso. apply Hp. by left.
  - apply prefix_cons_inv_1 in Hpre. subst a. exfalso. apply Hp'. by left.
  - pose proof (prefix_cons_inv_1 _ _ _ _ Hpre) as ->.
    apply prefix_cons_inv_2 in Hpre. f_equal. apply IH; [| |done].
    + intros ?. apply Hp. by right.
    + intros ?. apply Hp'. by right.
Qed.

(** ** The file system *)

Lemma child_of_Some d p n : Fs.child_of d p = Some n ↔ p = d ++ [n].
Proof.
  unfold Fs.child_of. split.
  - destruct (last p) as [n'|]; [|done]. case_decide; [|done]. congruence.
  - intros ->. rewrite last_snoc. by rewrite decide_True.
Qed.

Lemma elem_of_children (t : gmap (list (list N)) Fs.node) d n :
  n ∈ Fs.children t d ↔ is_Some (t !! (d ++ [n])).
Proof.
  unfold Fs.children. rewrite list_elem_of_omap. split.
  - intros ([p x] & Hin & Hc). simpl in Hc. apply child_of_Some in Hc as ->.
    apply elem_of_map_to_list in Hin. eauto.
  - intros [x Hx]. exists (d ++ [n], x). split.
    + by apply elem_of_map_to_list.
    + by apply child_of_Some.
Qed.

Lemma existsSync_dir (t : gmap (list (list N)) Fs.node) d :
  Fs.lookup_node t d = Some Fs.Dir → Fs.existsSync t d = true.
Proof. unfold Fs.existsSync. by intros ->. Qed.

(** What [scanDir] lists: the entries of an existing directory whose name
    starts with the prefix and a dash, and nothing without a prefix. *)
Lemma elem_of_scanDir (t : gmap (list (list N)) Fs.node) dir prefix f :
  f ∈ scanDir t dir prefix ↔
    prefix ≠ [] ∧ has_entry t dir f ∧ (prefix ++ [DASH]) `prefix_of` f.
Proof.
  unfold scanDir, has_entry, Fs.readdir, Fs.existsSync.
  destruct (decide (prefix = [])) as [->|Hne].
  { split; [by intros ?%elem_of_nil | by intros [? _]]. }
  rewrite (proj2 (truthy_true _) Hne). simpl.
  destruct (Fs.lookup_node t dir) as [[|]|] eqn:Hd; simpl.
  - split; [by intros ?%elem_of_nil | by intros (_ & [? _] & _)].
  - rewrite list_elem_of_filter, elem_of_children, startsWith_prefix.
    change (lit "-") with [DASH]. split.
    + intros [? ?]. by repeat split.
    + intros (_ & [_ ?] & ?). by split.
  - split; [by intros ?%elem_of_nil | by intros (_ & [? _] & _)].
Qed.

Lemma elem_of_listing t cursorDir prefix c f :
  f ∈ listing c (scanDirectory t cursorDir prefix) ↔
    f ∈ scanDir t (container_dir (createContext cursorDir) c) prefix.
Proof. by destruct c. Qed.

Lemma parent_snoc (dir : list (list N)) item : Fs.parent (dir ++ [item]) = dir.
Proof.
  unfold Fs.parent. rewrite length_app, Nat.add_sub. apply take_app_length.
Qed.

Lemma lookup_node_cons (t : gmap (list (list N)) Fs.node) p :
  p ≠ [] → Fs.lookup_node t p = t !! p.
Proof. by destruct p. Qed.

Lemma lookup_node_insert_ne (t : gmap (list (list N)) Fs.node) p q x :
  p ≠ q → Fs.lookup_node (<[p := x]> t) q = Fs.lookup_node t q.
Proof. intros Hne. destruct q; [done|]. simpl. by rewrite lookup_insert_ne. Qed.

(** When [writeFile] succeeds, and what it leaves. *)
Lemma writeFile_Some (t t' : gmap (list (list N)) Fs.node) p c :
  Fs.writeFile t p c = Some t' ↔
    p ≠ [] ∧ Fs.lookup_node t (Fs.parent p) = Some Fs.Dir ∧
    t !! p ≠ Some Fs.Dir ∧ t' = <[p := Fs.File c]> t.
Proof.
  unfold Fs.writeFile. destruct p as [|x l]; [naive_solver|].
  destruct (Fs.lookup_node t (Fs.parent (x :: l))) as [[|]|]; try naive_solver.
  destruct (t !! (x :: l)) as [[|]|]; naive_solver.
Qed.

(** Writing a file into a directory leaves the entry there. *)
Lemma writeFile_has_entry (t t' : gmap (list (list N)) Fs.node) dir item c :
  Fs.writeFile t (dir ++ [item]) c = Some t' → has_entry t' dir item.
Proof.
  intros (_ & Hd & _ & ->)%writeFile_Some. rewrite parent_snoc in Hd. split.
  - rewrite lookup_node_insert_ne; [done|].
    intros Heq%(f_equal length). rewrite length_app in Heq. simpl in Heq. lia.
  - by rewrite lookup_insert_eq.
Qed.

(** ** Selection resolution (lib/translators/mcp.ts) *)

Section selection.
Implicit Types (A : list AvailableServer) (names : list (list N)).

Lemma resolve_names_filter A names :
  resolveSelectedServers A (SelNames names) = filter (λ s, name s ∈ names) A.
Proof.
  simpl. apply list_filter_iff. intros s. by rewrite elem_of_list_to_set.
Qed.

Lemma resolve_names_unknown A names n :
  n ∉ name <$> A →
  resolveSelectedServers A (SelNames (n :: names)) =
  resolveSelectedServers A (SelNames names).
Proof.
  intros Hn. rewrite !resolve_names_filter.
  induction A as [|a A IH]; [done|].
  rewrite fmap_cons, not_elem_of_cons in Hn. destruct Hn as [Hna Hn].
  rewrite !filter_cons, IH by done.
  destruct (decide (name a ∈ n :: names)) as [Hin|Hin];
    destruct (decide (name a ∈ names)) as [Hin'|Hin']; try done.
  - apply elem_of_cons in Hin as [?|?]; congruence.
  - exfalso. apply Hin. by apply elem_of_cons; right.
Qed.

(** C7. Selection resolution: ['none'] resolves to the empty list, ['all']
    to the available list itself, and an explicit list of names to the
    elements of the available list whose name is in it, in the order of
    the available list; a name that no available server bears changes
    nothing.  The function is total: no selection makes it fail. *)
Theorem resolveSelectedServers_spec A :
  resolveSelectedServers A SelNone = [] ∧
  resolveSelectedServers A SelAll = A ∧
  ∀ names,
    resolveSelectedServers A (SelNames names)
      = filter (λ s, name s ∈ names) A ∧
    resolveSelectedServers A (SelNames names) `sublist_of` A ∧
    (∀ s, s ∈ resolveSelectedServers A (SelNames names)
          ↔ s ∈ A ∧ name s ∈ names) ∧
    (∀ n, n ∉ name <$> A →
          resolveSelectedServers A (SelNames (n :: names))
            = resolveSelectedServers A (SelNames names)).
Proof.
  split; [done|]. split; [done|]. intros names.
  rewrite resolve_names_filter. split; [done|].
  split; [apply sublist_filter|]. split.
  - intros s. rewrite list_elem_of_filter. tauto.
  - intros n Hn. rewrite <- resolve_names_filter.
    by apply resolve_names_unknown.
Qed.
End selection.

(** ** The scanner and the naming policy (lib/scanner.ts, sync.ts) *)

(** C8. No-prefix mode: with the empty prefix, whatever the target holds,
    [scanDirectory] returns three empty lists and a total of zero, and
    [runClean] removes nothing and returns the all-empty result. *)
Theorem no_prefix_mode (t : gmap (list (list N)) Fs.node)
    (cursorDir : list (list N)) (ctx : TargetContext) :
  scanDirectory t cursorDir [] = mkScan cursorDir [] [] [] 0 ∧
  runClean t ctx [] = Some (t, mkClean [] [] [] 0).
Proof. done. Qed.

(** An item installed under [p] is listed by a scan for [p'] exactly when
    its name starts with [p'] and a dash. *)
Lemma scan_reports_iff (t : gmap (list (list N)) Fs.node) cursorDir c p b p' :
  has_entry t (container_dir (createContext cursorDir) c) (prefixName p b) →
  prefixName p b ∈ listing c (scanDirectory t cursorDir p') ↔
    p' ≠ [] ∧ (p' ++ [DASH]) `prefix_of` prefixName p b.
Proof.
  intros He. rewrite elem_of_listing, elem_of_scanDir. tauto.
Qed.

Lemma scan_target_has_entry :
  has_entry scan_target
    (container_dir (createContext [lit "home"; lit ".cursor"]) Skills)
    (prefixName (lit "ecc-go") (lit "x")).
Proof. split; [done|]. by exists Fs.Dir. Qed.

(** C1, as stated, fails: the item installed under the prefix [ecc-go] is
    reported by a scan for the other prefix [ecc]. *)
Lemma scan_other_prefix_counterexample :
  let p := lit "ecc-go" in
  let p' := lit "ecc" in
  let b := lit "x" in
  p ≠ [] ∧ p' ≠ p ∧
  has_entry scan_target
    (container_dir (createContext [lit "home"; lit ".cursor"]) Skills)
    (prefixName p b) ∧
  prefixName p b ∈
    listing Skills (scanDirectory scan_target [lit "home"; lit ".cursor"] p').
Proof.
  split; [done|]. split; [done|]. split; [apply scan_target_has_entry|].
  apply scan_reports_iff; [apply scan_target_has_entry|].
  split; [done|]. by exists (lit "go-x").
Qed.

(** C1, amended. For every non-empty prefix [p] and base name [b], once the
    item named [prefixName p b] is an entry of one of the three listed
    directories, [scanDirectory] for [p] reports it there; a scan for another
    prefix [p'] reports it exactly when [p'] is not empty and the name of the
    item starts with [p'] and a dash, hence never when neither [p] nor [p']
    holds a dash. *)
Theorem scan_naming (t : gmap (list (list N)) Fs.node) cursorDir c p b :
  p ≠ [] →
  has_entry t (container_dir (createContext cursorDir) c) (prefixName p b) →
  prefixName p b ∈ listing c (scanDirectory t cursorDir p) ∧
  ∀ p', p' ≠ p →
    (prefixName p b ∈ listing c (scanDirectory t cursorDir p') ↔
       p' ≠ [] ∧ (p' ++ [DASH]) `prefix_of` prefixName p b) ∧
    (DASH ∉ p → DASH ∉ p' →
       prefixName p b ∉ listing c (scanDirectory t cursorDir p')).
Proof.
  intros Hp He. split.
  - apply scan_reports_iff; [done|]. split; [done|].
    rewrite prefixName_nonempty by done. rewrite (assoc_L (++)).
    by apply prefix_app_r.
  - intros p' Hne. split; [by apply scan_reports_iff|].
    intros Hd Hd' [_ Hpre]%scan_reports_iff; [|done].
    rewrite prefixName_nonempty in Hpre by done.
    by apply dash_free_prefix_unique in Hpre.
Qed.

Lemma scan_naming_witness :
  prefixName (lit "ecc-go") (lit "x") ∈
    listing Skills
      (scanDirectory scan_target [lit "home"; lit ".cursor"] (lit "ecc-go")).
Proof.
  exact (proj1 (scan_naming scan_target [lit "home"; lit ".cursor"] Skills
                  (lit "ecc-go") (lit "x") ltac:(done)
                  scan_target_has_entry)).
Defined.

(** ** The header codec (lib/transform.ts) *)





Lemma match_open_Some k s r :
  match_open k s = Some r →
  ∃ j, (j ≤ k)%nat ∧ s !! j = Some NL ∧ match_close (drop (S j) s) = Some r.
Proof.
  induction k as [|k IH]; simpl.
  - destruct (s !! 0%nat) as [c|] eqn:Hc; [|done].
    destruct (c =? NL) eqn:Hnl; [|done]. apply N.eqb_eq in Hnl as ->.
    destruct (match_close (drop 1 s)) eqn:Hm; [|done].
    intros [= <-]. exists 0%nat. eauto.
  - destruct (s !! S k) as [c|] eqn:Hc.
    + destruct (c =? NL) eqn:Hnl.
      * apply N.eqb_eq in Hnl as ->.
        destruct (match_close (drop (S (S k)) s)) eqn:Hm.
        -- intros [= <-]. exists (S k). eauto.
        -- intros (j & ? & ?)%IH. exists j. split; [lia | done].
      * intros (j & ? & ?)%IH. exists j. split; [lia | done].
    + intros (j & ? & ?)%IH. exists j. split; [lia | done].
Qed.


Lemma takeWhile_Forall f s : Forall (λ c, f c = true) (takeWhile f s).
Proof.
  induction s as [|c s IH]; simpl; [constructor|].
  destruct (f c) eqn:Hc; by constructor.
Qed.


Lemma takeWhile_app_all f a s :
  Forall (λ c, f c = true) a → takeWhile f (a ++ s) = a ++ takeWhile f s.
Proof.
  induction 1 as [|c a Hc _ IH]; simpl; [done|]. by rewrite Hc, IH.
Qed.



Lemma dropWhile_suffix (f : N → bool) s : dropWhile f s `suffix_of` s.
Proof.
  induction s as [|c s IH]; simpl; [done|].
  destruct (f c); [by apply suffix_cons_r | done].
Qed.




(** ** The header round trip *)

Ltac char_class :=
  unfold is_key_char, is_word, is_space, is_line_terminator,
         NL, DASH, COLON, QUOTE, APOS in *;
  repeat match goal with
         | H : _ = true |- _ =>
             rewrite ?orb_true_iff, ?andb_true_iff, ?N.leb_le, ?N.eqb_eq in H
         | H : _ = false |- _ =>
             rewrite ?orb_false_iff, ?andb_false_iff, ?N.leb_gt, ?N.eqb_neq in H
         | |- _ = true =>
             rewrite ?orb_true_iff, ?andb_true_iff, ?N.leb_le, ?N.eqb_eq
         | |- _ = false =>
             rewrite ?orb_false_iff, ?andb_false_iff, ?N.leb_gt, ?N.eqb_neq
         end;
  try lia.

Lemma word_not_space c : is_word c = true → is_space c = false.
Proof. intros H. char_class. Qed.

Lemma word_not_dash c : is_word c = true → c ≠ DASH.
Proof. intros H. char_class. Qed.

Lemma word_not_NL c : is_word c = true → (c =? NL) = false.
Proof. intros H. char_class. Qed.

Lemma key_char_not_colon c : is_key_char c = true → (c =? COLON) = false.
Proof. intros H. char_class. Qed.

Lemma key_char_not_NL c : is_key_char c = true → c ≠ NL.
Proof. intros H. char_class. Qed.

Lemma line_terminator_NL c : is_line_terminator c = false → c ≠ NL.
Proof. intros H. char_class. Qed.

(** *** [join] and [split] *)

Lemma join_cons2 sep p q ps :
  join sep (p :: q :: ps) = p ++ sep ++ join sep (q :: ps).
Proof. done. Qed.

Lemma join_snoc sep ps q :
  ps ≠ [] → join sep (ps ++ [q]) = join sep ps ++ sep ++ q.
Proof.
  induction ps as [|p ps IH]; [done|]. intros _.
  destruct ps as [|p' ps]; [done|].
  change ((p :: p' :: ps) ++ [q]) with (p :: p' :: (ps ++ [q])).
  rewrite !join_cons2. change (p' :: ps ++ [q]) with ((p' :: ps) ++ [q]).
  rewrite IH by done. by rewrite <- !(assoc_L (++)).
Qed.

Lemma split_no_sep sep l : sep ∉ l → split sep l = [l].
Proof.
  induction l as [|c l IH]; [done|]. intros Hn. simpl.
  apply not_elem_of_cons in Hn as [Hc Hl].
  destruct (c =? sep) eqn:E; [apply N.eqb_eq in E; congruence|].
  by rewrite IH.
Qed.

Lemma split_app sep l s :
  sep ∉ l → split sep (l ++ sep :: s) = l :: split sep s.
Proof.
  induction l as [|c l IH]; intros Hn; simpl.
  - by rewrite N.eqb_refl.
  - apply not_elem_of_cons in Hn as [Hc Hl].
    destruct (c =? sep) eqn:E; [apply N.eqb_eq in E; congruence|].
    by rewrite IH.
Qed.

Lemma split_join sep lines :
  lines ≠ [] → Forall (λ l, sep ∉ l) lines →
  split sep (join [sep] lines) = lines.
Proof.
  induction lines as [|l lines IH]; [done|]. intros _ Hall.
  apply Forall_cons in Hall as [Hl Hall].
  destruct lines as [|l' lines]; [by apply split_no_sep|].
  rewrite join_cons2. change ([sep] ++ ?x) with (sep :: x).
  rewrite split_app by done. by rewrite IH.
Qed.

(** *** Trimming *)

Lemma dropWhile_spec f s :
  s = takeWhile f s ++ dropWhile f s ∧
  ∀ c, head (dropWhile f s) = Some c → f c = false.
Proof.
  induction s as [|c s [IH1 IH2]]; simpl; [done|].
  destruct (f c) eqn:Hc; simpl.
  - split; [by f_equal | done].
  - split; [done|]. by intros ? [= <-].
Qed.

Lemma dropWhile_head f s :
  (∀ c, head s = Some c → f c = false) → dropWhile f s = s.
Proof. destruct s as [|c s]; [done|]. simpl. intros H. by rewrite H. Qed.

Lemma trimEnd_spec y :
  ∃ b, y = trimEnd y ++ b ∧ Forall (λ c, is_space c = true) b ∧
       ∀ c, last (trimEnd y) = Some c → is_space c = false.
Proof.
  unfold trimEnd. destruct (dropWhile_spec is_space (reverse y)) as [H1 H2].
  exists (reverse (takeWhile is_space (reverse y))). split; [|split].
  - rewrite <- reverse_app, <- H1. by rewrite reverse_involutive.
  - apply Forall_reverse, takeWhile_Forall.
  - intros c. rewrite last_reverse. apply H2.
Qed.

Lemma trimEnd_tight m :
  (∀ c, last m = Some c → is_space c = false) → trimEnd m = m.
Proof.
  intros H. unfold trimEnd. rewrite dropWhile_head.
  - apply reverse_involutive.
  - intros c. rewrite head_reverse. apply H.
Qed.

Lemma trim_spec x : tight (trim x).
Proof.
  unfold trim, trimStart.
  destruct (dropWhile_spec is_space x) as [_ Hh].
  destruct (trimEnd_spec (dropWhile is_space x)) as (b & Hb & _ & Hl).
  split; [|done]. intros c Hc. apply Hh. rewrite Hb.
  destruct (trimEnd (dropWhile is_space x)); [done|]. done.
Qed.

Lemma trim_tight m : tight m → trim m = m.
Proof.
  intros [Hh Hl]. unfold trim, trimStart.
  rewrite dropWhile_head by done. by apply trimEnd_tight.
Qed.

Lemma trim_idemp x : trim (trim x) = trim x.
Proof. apply trim_tight, trim_spec. Qed.

Lemma trimStart_trim x : dropWhile is_space (trim x) = trim x.
Proof. apply dropWhile_head, trim_spec. Qed.

Lemma render_tight v : tight (render v).
Proof.
  destruct v as [value|[|]]; simpl; [apply trim_spec| |];
    split; intros c; vm_compute; by intros [= <-].
Qed.

(** *** Replacement where nothing matches *)

Lemma replace_from_no_match (m : Re.matcher) rep s :
  (∀ prev a b, s = a ++ b → m prev b = None) →
  ∀ prev, Re.replace_from m rep 0 prev s = s.
Proof.
  induction s as [|c s IH]; intros Hm prev; [done|]. simpl.
  rewrite (Hm prev [] (c :: s)) by done. f_equal. apply IH.
  intros prev' a b ->. by apply (Hm prev' (c :: a)).
Qed.

Lemma newlines_no_match k s prev :
  head s ≠ Some NL → Re.newlines_at_least (S k) prev s = None.
Proof.
  unfold Re.newlines_at_least. destruct s as [|c s]; [done|]. simpl.
  intros Hc. destruct (c =? NL) eqn:E; [|done].
  apply N.eqb_eq in E. congruence.
Qed.

Lemma replace_newlines_id k rep s :
  NL ∉ s → Re.replace_global (Re.newlines_at_least (S k)) rep s = s.
Proof.
  intros Hn. apply replace_from_no_match. intros prev a b ->.
  apply newlines_no_match. destruct b as [|c b]; [done|].
  intros [= ->]. apply Hn. apply elem_of_app. right. by left.
Qed.

(** *** Finding the closing delimiter behind the lines *)

Lemma indexOf_startsWith p s : startsWith p s = true → indexOf p s = Some 0%nat.
Proof. intros H. destruct s; simpl; by rewrite H. Qed.

Lemma indexOf_skip p a l s :
  head p = Some a → (a ∉ l) →
  indexOf p (l ++ s) = (Nat.add (length l) <$> indexOf p s).
Proof.
  intros Hp. induction l as [|c l IH]; intros Hn.
  - simpl. by destruct (indexOf p s).
  - apply not_elem_of_cons in Hn as [Hc Hl].
    change ((c :: l) ++ s) with (c :: (l ++ s)). simpl.
    destruct p as [|a' p]; [done|]. injection Hp as ->. simpl.
    destruct (a =? c) eqn:E; [apply N.eqb_eq in E; congruence|]. simpl.
    rewrite IH by done. by destruct (indexOf (a :: p) s).
Qed.

Lemma join_head sep c l ls : join sep ((c :: l) :: ls) = c :: join sep (l :: ls).
Proof. by destruct ls. Qed.

Lemma indexOf_join_lines lines rest :
  lines ≠ [] →
  Forall (λ l, (NL ∉ l) ∧ ∃ c l', l = c :: l' ∧ c ≠ DASH) lines →
  indexOf CLOSING (join [NL] lines ++ CLOSING ++ rest)
  = Some (length (join [NL] lines)).
Proof.
  induction lines as [|l lines IH]; [done|]. intros _ Hall.
  apply Forall_cons in Hall as [[Hl _] Hall].
  destruct lines as [|l2 lines].
  - simpl join. rewrite (indexOf_skip _ NL) by done.
    rewrite indexOf_startsWith by apply startsWith_app.
    simpl. f_equal. lia.
  - rewrite join_cons2, <- !(assoc_L (++)).
    rewrite (indexOf_skip _ NL) by done.
    pose proof Hall as Hall'. apply Forall_cons in Hall' as [[_ Hc] _].
    destruct Hc as (c & l2' & -> & Hc).
    assert (indexOf CLOSING
              ([NL] ++ join [NL] ((c :: l2') :: lines) ++ CLOSING ++ rest)
            = S <$> indexOf CLOSING
                      (join [NL] ((c :: l2') :: lines) ++ CLOSING ++ rest))
      as ->.
    { rewrite join_head.
      change ([NL] ++ (c :: ?x) ++ ?y) with (NL :: c :: (x ++ y)).
      cbn [indexOf]. replace (startsWith CLOSING _) with false; [done|].
      symmetry. unfold CLOSING. change (lit "---") with [DASH; DASH; DASH].
      cbn [startsWith]. rewrite N.eqb_refl.
      destruct (DASH =? c) eqn:E; [|done].
      apply N.eqb_eq in E. congruence. }
    rewrite IH by done. simpl. f_equal.
    rewrite !length_app. simpl. lia.
Qed.

(** *** Reading one line back *)

Lemma field_line_render kv : field_line kv = kv.1 ++ lit ": " ++ render kv.2.
Proof. by destruct kv as [k [v|[|]]]. Qed.

Lemma forallb_Forall {A} (f : A → bool) l :
  forallb f l = true ↔ Forall (λ x, f x = true) l.
Proof.
  induction l as [|x l IH]; simpl.
  - split; [constructor | done].
  - rewrite andb_true_iff, IH, Forall_cons. tauto.
Qed.

Lemma is_header_key_spec k :
  is_header_key k = true →
  (∃ c k', k = c :: k' ∧ is_word c = true) ∧
  Forall (λ c, is_key_char c = true) k ∧ k ≠ lit "__proto__".
Proof.
  unfold is_header_key. rewrite !andb_true_iff, negb_true_iff.
  intros [[Hh Hall] Hp]. split; [|split].
  - destruct k as [|c k']; [done|]. eauto.
  - by apply forallb_Forall.
  - by apply bool_decide_eq_false in Hp.
Qed.

Lemma match_kv_field k v :
  is_header_key k = true → tight v → no_line_terminator v = true →
  match_kv (k ++ lit ": " ++ v) = Some (k, v).
Proof.
  intros ((c & k' & -> & Hc) & Hall & _)%is_header_key_spec [Hh _] Hlt.
  unfold match_kv. change ((c :: k') ++ ?x) with (c :: (k' ++ x)).
  cbv beta iota. rewrite Hc. change (c :: (k' ++ ?x)) with ((c :: k') ++ x).
  rewrite takeWhile_app_all by done.
  change (lit ": " ++ v) with (COLON :: 32 :: v).
  change (takeWhile is_key_char (COLON :: 32 :: v)) with (@nil N).
  rewrite app_nil_r, drop_app_length.
  change (COLON =? COLON) with true. cbv iota.
  change (dropWhile is_space (32 :: v)) with (dropWhile is_space v).
  rewrite dropWhile_head by done.
  unfold no_line_terminator in Hlt. by rewrite Hlt.
Qed.

Lemma parse_line_field fm kv :
  is_header_key kv.1 = true → no_line_terminator (render kv.2) = true →
  parse_line fm (field_line kv)
  = Obj.set fm kv.1 (unquote (render kv.2)).
Proof.
  intros Hk Hlt. unfold parse_line.
  rewrite field_line_render, match_kv_field by (done || apply render_tight).
  rewrite trim_tight by apply render_tight.
  unfold Obj.set_string. apply is_header_key_spec in Hk as (_ & _ & Hp).
  by rewrite decide_False.
Qed.

(** *** Assigning to an object *)

Lemma obj_get_keys {V} (o : list (list N * V)) k :
  k ∈ o.*1 ↔ is_Some (Obj.get o k).
Proof.
  induction o as [|[k0 v0] o IH]; simpl.
  - rewrite elem_of_nil. split; [done | by intros [? ?]].
  - rewrite elem_of_cons, IH. destruct (decide (k0 = k)) as [->|Hne].
    + split; [eauto | by left].
    + split; [by intros [->|?] | by right].
Qed.

Lemma obj_get_None {V} (o : list (list N * V)) k :
  Obj.get o k = None ↔ k ∉ o.*1.
Proof. rewrite obj_get_keys, eq_None_not_Some. done. Qed.

Lemma obj_get_replace {V} (o : list (list N * V)) k v k' :
  is_Some (Obj.get o k) →
  Obj.get (Obj.replace o k v) k'
  = if decide (k = k') then Some v else Obj.get o k'.
Proof.
  induction o as [|[k0 v0] o IH]; simpl.
  - by intros [? ?].
  - destruct (decide (k0 = k)) as [->|Hne]; simpl.
    + by destruct (decide (k = k')).
    + intros Hk. destruct (decide (k0 = k')) as [->|Hne'].
      * by rewrite decide_False by done.
      * by apply IH.
Qed.

Lemma obj_get_create {V} (o : list (list N * V)) k v k' :
  Obj.get o k = None →
  Obj.get (Obj.create o k v) k'
  = if decide (k = k') then Some v else Obj.get o k'.
Proof.
  induction o as [|[k0 v0] o IH]; simpl.
  - done.
  - destruct (decide (k0 = k)) as [->|Hne]; [done|]. intros Hk.
    destruct (Obj.precedes k k0); simpl.
    + destruct (decide (k = k')) as [->|]; [done|].
      by destruct (decide (k0 = k')).
    + destruct (decide (k0 = k')) as [->|Hne'].
      * by rewrite decide_False by done.
      * by apply IH.
Qed.

Lemma obj_get_set {V} (o : list (list N * V)) k v k' :
  Obj.get (Obj.set o k v) k' = if decide (k = k') then Some v else Obj.get o k'.
Proof.
  unfold Obj.set. destruct (Obj.get o k) eqn:Hk.
  - by apply obj_get_replace.
  - by apply obj_get_create.
Qed.

Lemma obj_create_Permutation {V} (o : list (list N * V)) k v :
  Obj.create o k v ≡ₚ (k, v) :: o.
Proof.
  induction o as [|[k0 v0] o IH]; simpl; [done|].
  destruct (Obj.precedes k k0); [done|]. rewrite IH. apply Permutation_swap.
Qed.

Lemma obj_replace_keys {V} (o : list (list N * V)) k v :
  (Obj.replace o k v).*1 = o.*1.
Proof.
  induction o as [|[k0 v0] o IH]; [done|]. cbn [Obj.replace].
  destruct (decide (k0 = k)) as [->|]; rewrite !fmap_cons; cbn [fst];
    [done | by rewrite IH].
Qed.

Lemma obj_replace_Forall {V} (P : list N * V → Prop)
    (o : list (list N * V)) k v :
  Forall P o → P (k, v) → Forall P (Obj.replace o k v).
Proof.
  intros Ho Hkv. induction Ho as [|[k0 v0] o Hx Ho IH]; simpl; [done|].
  destruct (decide (k0 = k)); constructor; done.
Qed.

(** A fresh key adds one property and leaves the others. *)
Lemma obj_set_fresh {V} (o : list (list N * V)) k v :
  k ∉ o.*1 → Obj.set o k v ≡ₚ o ++ [(k, v)].
Proof.
  intros Hk%obj_get_None. unfold Obj.set. rewrite Hk.
  rewrite obj_create_Permutation. by rewrite Permutation_cons_append.
Qed.

Lemma foldl_set_fresh {V W} (g : W → V) (H : list (list N * W))
    (acc : list (list N * V)) :
  NoDup (acc.*1 ++ H.*1) →
  foldl (λ fm kv, Obj.set fm kv.1 (g kv.2)) acc H
  ≡ₚ acc ++ ((λ kv, (kv.1, g kv.2)) <$> H).
Proof.
  revert acc. induction H as [|[k w] H IH]; intros acc Hnd; simpl.
  - by rewrite app_nil_r.
  - assert (k ∉ acc.*1) as Hk.
    { apply NoDup_app in Hnd as (_ & Hd & _). intros Hin.
      apply (Hd _ Hin). by left. }
    rewrite IH.
    + rewrite obj_set_fresh by done. by rewrite <- (assoc_L (++)).
    + rewrite (fmap_Permutation fst _ _ (obj_set_fresh acc k (g w) Hk)).
      rewrite fmap_app. simpl. by rewrite <- (assoc_L (++)).
Qed.

(** *** The document that [buildFrontmatter] writes, read back *)

Lemma buildFrontmatter_shape kv H :
  buildFrontmatter (kv :: H)
  = lit "---" ++ [NL] ++ join [NL] (field_line <$> kv :: H) ++ CLOSING.
Proof.
  unfold buildFrontmatter. rewrite fmap_cons.
  change (join [NL] (field_line kv :: (field_line <$> H)) ++ CLOSING)
    with (join [NL] (field_line kv :: (field_line <$> H))
            ++ [NL] ++ lit "---").
  rewrite <- (join_snoc [NL] (field_line kv :: _) (lit "---")) by done.
  reflexivity.
Qed.

Lemma field_line_ok kv :
  is_header_key kv.1 = true → no_line_terminator (render kv.2) = true →
  (NL ∉ field_line kv) ∧
  ∃ c l', field_line kv = c :: l' ∧ is_word c = true.
Proof.
  intros Hk Hlt. rewrite field_line_render.
  apply is_header_key_spec in Hk as ((c & k' & Hkc & Hc) & Hall & _).
  split.
  - rewrite !elem_of_app. intros [Hin|[Hin|Hin]].
    + rewrite Forall_forall in Hall. by apply Hall, key_char_not_NL in Hin.
    + vm_compute in Hin. apply elem_of_cons in Hin as [[=]|Hin].
      apply elem_of_cons in Hin as [[=]|Hin]. by apply elem_of_nil in Hin.
    + apply forallb_Forall in Hlt. rewrite Forall_forall in Hlt.
      apply Hlt, negb_true_iff, line_terminator_NL in Hin. done.
  - rewrite Hkc. eauto.
Qed.

Lemma match_frontmatter_build kv H :
  Forall (λ kv, is_header_key kv.1 = true
                ∧ no_line_terminator (render kv.2) = true) (kv :: H) →
  match_frontmatter (buildFrontmatter (kv :: H))
  = Some (join [NL] (field_line <$> kv :: H), []).
Proof.
  intros Hall. rewrite buildFrontmatter_shape.
  set (lines := field_line <$> kv :: H).
  assert (Forall (λ l, (NL ∉ l) ∧ ∃ c l', l = c :: l' ∧ is_word c = true) lines)
    as Hlines.
  { apply Forall_fmap. eapply Forall_impl; [exact Hall|].
    intros kv' [? ?]. by apply field_line_ok. }
  assert (∃ c J, join [NL] lines = c :: J ∧ is_word c = true)
    as (c & J & HJ & Hc).
  { subst lines. rewrite fmap_cons in *.
    apply Forall_cons in Hlines as [(_ & c & l' & Hl & Hc) _].
    rewrite Hl, join_head. eauto. }
  unfold match_frontmatter. rewrite startsWith_app.
  rewrite (drop_app_length' (lit "---") _ 3) by done.
  assert (match_close (join [NL] lines ++ CLOSING)
          = Some (join [NL] lines, [])) as Hclose.
  { unfold match_close. rewrite <- (app_nil_r CLOSING) at 2.
    rewrite indexOf_join_lines.
    - cbn [mbind option_bind].
      rewrite take_app_length.
      rewrite drop_ge; [done|].
      rewrite length_app. change (length CLOSING) with 4%nat. lia.
    - by subst lines.
    - eapply Forall_impl; [exact Hlines|]. intros l (? & c' & l' & ? & ?).
      split; [done|]. exists c', l'. split; [done|]. by apply word_not_dash. }
  rewrite HJ in *. change ([NL] ++ (c :: J) ++ CLOSING) with (NL :: c :: J ++ CLOSING).
  cbn [takeWhile]. change (is_space NL) with true. cbv iota.
  rewrite (word_not_space c Hc). cbn [length match_open lookup list_lookup].
  rewrite (word_not_NL c Hc). rewrite N.eqb_refl.
  change (drop 1 (NL :: c :: J ++ CLOSING)) with ((c :: J) ++ CLOSING).
  by rewrite Hclose.
Qed.

(** What reading back a written header yields in general: every key with
    its rendered value, the quotes around it dropped, and nothing else. *)
Lemma parse_build (H : list (list N * field)) :
  NoDup H.*1 →
  Forall (λ kv, is_header_key kv.1 = true
                ∧ no_line_terminator (render kv.2) = true) H →
  frontmatter (parseFrontmatter (buildFrontmatter H))
  ≡ₚ (λ kv, (kv.1, unquote (render kv.2))) <$> H.
Proof.
  intros Hnd Hall. destruct H as [|kv H]; [done|].
  unfold parseFrontmatter. rewrite match_frontmatter_build by done.
  cbn [frontmatter]. rewrite split_join.
  - assert (∀ l acc,
        Forall (λ kv, is_header_key kv.1 = true
                      ∧ no_line_terminator (render kv.2) = true) l →
        foldl parse_line acc (field_line <$> l)
        = foldl (λ fm kv, Obj.set fm kv.1 (unquote (render kv.2))) acc l)
      as Hfold.
    { induction l as [|kv' l IH]; intros acc Hl; [done|].
      apply Forall_cons in Hl as [[? ?] Hl]. rewrite fmap_cons. cbn [foldl].
      rewrite parse_line_field by done. by apply IH. }
    rewrite Hfold by done.
    by rewrite (foldl_set_fresh (λ v, unquote (render v)) _ []).
  - done.
  - apply Forall_fmap. eapply Forall_impl; [exact Hall|].
    intros kv' [? ?]. by apply field_line_ok.
Qed.

Lemma plain_value_render v : plain_value v → render (FString v) = v.
Proof.
  intros (Hlt & Ht & _). unfold render. rewrite replace_newlines_id; [done|].
  intros Hin. apply forallb_Forall in Hlt. rewrite Forall_forall in Hlt.
  by apply Hlt in Hin.
Qed.

(** C3, as stated, fails: a value with no line feed in it, written and read
    back, has lost the quotes around it. *)
Lemma roundtrip_counterexample :
  let H := [(lit "description", FString (quoted (lit "Does X.")))] in
  (∀ k v, (k, FString v) ∈ H → NL ∉ v) ∧
  (lit "description", FString (quoted (lit "Does X."))) ∈ H ∧
  frontmatter (parseFrontmatter (buildFrontmatter H))
  = [(lit "description", lit "Does X.")].
Proof.
  split; [|split].
  - intros k v Hin%list_elem_of_singleton. injection Hin as -> ->.
    vm_compute. intros Hin.
    repeat (apply elem_of_cons in Hin as [[=]|Hin]). by apply elem_of_nil in Hin.
  - by left.
  - by vm_compute.
Qed.

(** C3, amended. Header round trip: for every header whose keys are distinct
    and match the key pattern of the parser, and whose values are strings
    without a line terminator, without white space at either end and without
    a pair of quotes around them, the (key, value) pairs that
    [parseFrontmatter] recovers from [buildFrontmatter H] are those of [H]. *)
Theorem header_roundtrip (H : list (list N * field)) :
  NoDup H.*1 →
  Forall (λ kv, is_header_key kv.1 = true
                ∧ ∃ v, kv.2 = FString v ∧ plain_value v) H →
  ∀ k v, (k, v) ∈ frontmatter (parseFrontmatter (buildFrontmatter H))
         ↔ (k, FString v) ∈ H.
Proof.
  intros Hnd Hall k v. rewrite parse_build; [|done|].
  - rewrite list_elem_of_fmap. rewrite Forall_forall in Hall. split.
    + intros ([k' f] & [= -> ->] & Hin).
      destruct (Hall _ Hin) as (_ & v' & Hf & Hp). cbn [snd] in Hf. subst f.
      cbn [fst snd]. rewrite plain_value_render by done.
      destruct Hp as (_ & _ & ->). done.
    + intros Hin. exists (k, FString v). split; [|done].
      destruct (Hall _ Hin) as (_ & v' & [= <-] & Hp).
      cbn [fst snd]. rewrite plain_value_render by done.
      destruct Hp as (_ & _ & ->). done.
  - eapply Forall_impl; [exact Hall|]. intros kv (? & v' & -> & Hp).
    split; [done|]. rewrite plain_value_render by done. apply Hp.
Qed.

Lemma header_roundtrip_witness :
  (lit "name", lit "ecc-planner") ∈
    frontmatter
      (parseFrontmatter
         (buildFrontmatter
            [ (lit "name", FString (lit "ecc-planner"));
              (lit "description", FString (lit "Plans 'big' features.")) ])).
Proof.
  apply (header_roundtrip
           [ (lit "name", FString (lit "ecc-planner"));
             (lit "description", FString (lit "Plans 'big' features.")) ]).
  - vm_compute. repeat constructor; set_solver.
  - repeat constructor; try (by vm_compute); eexists; (split; [done|]);
      repeat split; by vm_compute.
  - by left.
Defined.

(** ** The replacement engine *)

Section engine.
Variables (m : Re.matcher) (rep : list N).

Lemma last_or_cons c a prev : last_or (c :: a) prev = last_or a (Some c).
Proof.
  unfold last_or. destruct a as [|c' a]; [done|].
  rewrite last_cons. by destruct (last (c' :: a)).
Qed.

Lemma last_or_app a b prev : last_or (a ++ b) prev = last_or b (last_or a prev).
Proof.
  revert prev. induction a as [|c a IH]; intros prev; [done|].
  simpl. by rewrite !last_or_cons, IH.
Qed.

(** Passing over the rest of a match. *)
Lemma replace_from_skip n prev s :
  Re.replace_from m rep n prev s
  = Re.replace_from m rep 0 (last_or (take n s) prev) (drop n s).
Proof.
  revert prev s. induction n as [|n IH]; intros prev s.
  - by rewrite take_0, drop_0.
  - destruct s as [|c s]; [done|]. simpl. rewrite IH.
    by rewrite last_or_cons.
Qed.

(** The scan, one step at a time. *)
Lemma replace_from_copy prev c s :
  (m prev (c :: s) = None ∨ m prev (c :: s) = Some 0%nat) →
  Re.replace_from m rep 0 prev (c :: s)
  = c :: Re.replace_from m rep 0 (Some c) s.
Proof. simpl. by intros [-> | ->]. Qed.

Lemma replace_from_match prev s n :
  m prev s = Some (S n) → s ≠ [] →
  Re.replace_from m rep 0 prev s
  = rep ++ Re.replace_from m rep 0 (last_or (take (S n) s) prev)
                                   (drop (S n) s).
Proof.
  intros Hm Hs. destruct s as [|c s]; [done|]. simpl. rewrite Hm.
  by rewrite replace_from_skip, last_or_cons.
Qed.

(** Induction along the scan. *)
Lemma replace_from_ind (P : option N → list N → list N → Prop) :
  (∀ prev, P prev [] []) →
  (∀ prev c s,
     (m prev (c :: s) = None ∨ m prev (c :: s) = Some 0%nat) →
     P (Some c) s (Re.replace_from m rep 0 (Some c) s) →
     P prev (c :: s) (c :: Re.replace_from m rep 0 (Some c) s)) →
  (∀ prev c s n,
     m prev (c :: s) = Some (S n) →
     let prev' := last_or (take (S n) (c :: s)) prev in
     let s' := drop (S n) (c :: s) in
     P prev' s' (Re.replace_from m rep 0 prev' s') →
     P prev (c :: s) (rep ++ Re.replace_from m rep 0 prev' s')) →
  ∀ prev s, P prev s (Re.replace_from m rep 0 prev s).
Proof.
  intros Hnil Hcopy Hmatch prev s.
  remember (length s) as k eqn:Hk. revert prev s Hk.
  induction k as [k IH] using lt_wf_ind. intros prev [|c s] Hk; [done|].
  destruct (m prev (c :: s)) as [[|n]|] eqn:Hm.
  - rewrite replace_from_copy by auto. apply Hcopy; [auto|].
    apply (IH (length s)); [simpl in Hk; lia | done].
  - rewrite (replace_from_match _ _ n) by done. apply (Hmatch _ _ _ n); [done|].
    apply (IH (length (drop (S n) (c :: s)))); [|done].
    rewrite length_drop. simpl in *. lia.
  - rewrite replace_from_copy by auto. apply Hcopy; [auto|].
    apply (IH (length s)); [simpl in Hk; lia | done].
Qed.

(** Where the pattern matches nowhere, nothing is replaced. *)
Lemma replace_from_id prev s :
  ¬ fires m prev s → Re.replace_from m rep 0 prev s = s.
Proof.
  revert prev. induction s as [|c s IH]; intros prev Hf; [done|].
  assert (m prev (c :: s) = None) as Hm.
  { destruct (m prev (c :: s)) eqn:E; [|done]. exfalso. apply Hf.
    exists [], (c :: s). split; [done|]. change (last_or [] prev) with prev.
    rewrite E. eauto. }
  rewrite replace_from_copy by auto. f_equal. apply IH.
  intros (a & b & -> & Hab). apply Hf. exists (c :: a), b.
  split; [done|]. by rewrite last_or_cons.
Qed.

(** The code units of the result are those of the subject and of the
    replacement. *)
Lemma replace_from_elem x prev s :
  x ∈ Re.replace_from m rep 0 prev s → x ∈ s ∨ x ∈ rep.
Proof.
  apply (replace_from_ind (λ _ s t, x ∈ t → x ∈ s ∨ x ∈ rep)).
  - by intros _ ?%elem_of_nil.
  - intros _ c s' _ IH [->|Hin]%elem_of_cons; [left; by left|].
    destruct (IH Hin); [left; by right | by right].
  - intros prev0 c s' n _ prev' s'' IH [Hin|Hin]%elem_of_app; [by right|].
    destruct (IH Hin) as [Hd|]; [left | by right].
    by eapply subseteq_drop.
Qed.
End engine.

(** ** The clean-up of blank lines (lib/transform.ts) *)

Lemma replace_from_blind (m : Re.matcher) rep :
  (∀ p p' s, m p s = m p' s) →
  ∀ n p p' s, Re.replace_from m rep n p s = Re.replace_from m rep n p' s.
Proof.
  intros Hm n p p' s. revert n p p'.
  induction s as [|c s IH]; intros n p p'; [done|]. simpl.
  destruct n as [|n]; [|done]. rewrite (Hm p p').
  by destruct (m p' (c :: s)) as [[|k]|].
Qed.

Section newlines.
Variables (k : nat) (rep : list N).
Let m := Re.newlines_at_least (S k).

Lemma newlines_blind n p p' s :
  Re.replace_from m rep n p s = Re.replace_from m rep n p' s.
Proof using Type. by apply replace_from_blind. Qed.

Lemma takeWhile_run j rest :
  head rest ≠ Some NL →
  takeWhile (λ c, c =? NL) (replicate j NL ++ rest) = replicate j NL.
Proof using Type.
  intros Hr. induction j as [|j IH]; simpl.
  - destruct rest as [|c rest]; [done|]. simpl.
    destruct (c =? NL) eqn:E; [|done]. apply N.eqb_eq in E. subst c.
    by destruct Hr.
  - by rewrite IH.
Qed.

(** Text without a line feed is copied. *)
Lemma replace_newlines_text t s :
  NL ∉ t →
  Re.replace_global m rep (t ++ s) = t ++ Re.replace_global m rep s.
Proof using Type.
  unfold Re.replace_global. generalize (@None N).
  induction t as [|c t IH]; intros prev Hn; [apply newlines_blind|].
  apply not_elem_of_cons in Hn as [Hc Hn].
  change ((c :: t) ++ s) with (c :: (t ++ s)).
  rewrite replace_from_copy.
  - simpl. f_equal. rewrite IH by done. f_equal. apply newlines_blind.
  - left. apply newlines_no_match. simpl. by intros [= ->].
Qed.

(** A run that is too short is copied. *)
Lemma replace_newlines_short j rest :
  (j ≤ k)%nat → head rest ≠ Some NL →
  Re.replace_global m rep (replicate j NL ++ rest)
  = replicate j NL ++ Re.replace_global m rep rest.
Proof using Type.
  intros Hj Hr. unfold Re.replace_global. generalize (@None N).
  induction j as [|j IH]; intros prev; [apply newlines_blind|].
  change (replicate (S j) NL ++ rest) with (NL :: (replicate j NL ++ rest)).
  rewrite replace_from_copy.
  - simpl. f_equal. rewrite IH by lia. f_equal. apply newlines_blind.
  - left. unfold m, Re.newlines_at_least.
    change (NL :: (replicate j NL ++ rest)) with (replicate (S j) NL ++ rest).
    rewrite takeWhile_run by done. rewrite length_replicate.
    destruct (S k <=? S j)%nat eqn:E; [|done].
    apply Nat.leb_le in E. lia.
Qed.

(** A run that is long enough is replaced as a whole. *)
Lemma replace_newlines_long j rest :
  (k < j)%nat → head rest ≠ Some NL →
  Re.replace_global m rep (replicate j NL ++ rest)
  = rep ++ Re.replace_global m rep rest.
Proof using Type.
  intros Hj Hr. unfold Re.replace_global.
  destruct j as [|j]; [lia|].
  rewrite (replace_from_match _ _ _ _ j).
  - rewrite drop_app_length' by (by rewrite length_replicate).
    f_equal. apply newlines_blind.
  - unfold m, Re.newlines_at_least.
    rewrite takeWhile_run by done. rewrite length_replicate.
    destruct (S k <=? S j)%nat eqn:E; [done|].
    apply Nat.leb_gt in E. lia.
  - done.
Qed.
End newlines.

(** C6, as stated, fails: two consecutive blank lines, a run of fewer than
    three, do not stay; one of them is removed. *)
Lemma collapse_counterexample :
  let x := lit "a" ++ [NL; NL; NL] ++ lit "b" in
  blank_runs 0 (split NL x) = [2%nat] ∧
  collapseBlankLines x = lit "a" ++ [NL; NL] ++ lit "b" ∧
  blank_runs 0 (split NL (collapseBlankLines x)) = [1%nat].
Proof. by vm_compute. Qed.

(** C6, amended. Blank-line collapse: in every input, a run of [k]
    consecutive line feeds that follows text without a line feed and is not
    followed by another line feed is replaced by exactly two line feeds (one
    blank line) when [k] is 3 or more (two or more blank lines) and is left
    as it is when [k] is less than 3; the text before it is unchanged, and
    the rest of the input is treated in the same way. *)
Theorem collapseBlankLines_runs (t rest : list N) (k : nat) :
  NL ∉ t → head rest ≠ Some NL →
  collapseBlankLines (t ++ replicate k NL ++ rest)
  = t ++ replicate (if (3 <=? k)%nat then 2 else k) NL
      ++ collapseBlankLines rest.
Proof.
  intros Ht Hr. unfold collapseBlankLines.
  rewrite replace_newlines_text by done. f_equal.
  destruct (3 <=? k)%nat eqn:E.
  - apply Nat.leb_le in E. by rewrite replace_newlines_long by (done || lia).
  - apply Nat.leb_gt in E. by rewrite replace_newlines_short by (done || lia).
Qed.

Lemma collapseBlankLines_runs_witness :
  collapseBlankLines (lit "a" ++ replicate 4 NL ++ lit "b")
  = lit "a" ++ replicate 2 NL ++ collapseBlankLines (lit "b").
Proof.
  apply (collapseBlankLines_runs (lit "a") (lit "b") 4).
  - vm_compute. by intros [[=]|?%elem_of_nil]%elem_of_cons.
  - by vm_compute.
Defined.

(** ** Rewriting twice (lib/constants.ts, lib/transform.ts) *)

Lemma static_rules_spec :
  STATIC_TRANSFORMS = transform_of <$> static_rules.
Proof. reflexivity. Qed.

Lemma applyTransforms_cons ρ rules s :
  applyTransforms (transform_of <$> ρ :: rules) s
  = applyTransforms (transform_of <$> rules)
      (Re.replace_global (matcher_of ρ) (rule_replace ρ) s).
Proof. done. Qed.

Lemma applyTransforms_app rules1 rules2 s :
  applyTransforms (transform_of <$> rules1 ++ rules2) s
  = applyTransforms (transform_of <$> rules2)
      (applyTransforms (transform_of <$> rules1) s).
Proof. unfold applyTransforms. by rewrite fmap_app, foldl_app. Qed.

(** *** The two kinds of pattern *)

Lemma literal_literal_like p : p ≠ [] → literal_like (Re.literal p) p.
Proof.
  intros Hp. split; [done| |].
  - unfold Re.literal. intros _ s n.
    destruct (startsWith p s) eqn:E; [|done].
    intros [= <-]. by apply startsWith_prefix in E.
  - intros. unfold Re.literal. by rewrite !startsWith_app.
Qed.

Lemma word_literal_like p : p ≠ [] → literal_like (Re.word_literal p) p.
Proof.
  intros Hp. split; [done| |].
  - unfold Re.word_literal. intros prev s n.
    destruct (startsWith p s) eqn:E; [|done].
    apply startsWith_prefix in E.
    destruct (_ && _ && _); [|done]. by intros [= <-].
  - intros prev prev' v v' Hprev Hv. unfold Re.word_literal, Re.word_boundary.
    rewrite !startsWith_app, !drop_app_length, !head_app.
    destruct p as [|c p]; [done|]. simpl head. by rewrite Hprev, Hv.
Qed.

Lemma matcher_of_literal_like ρ :
  rule_pattern ρ ≠ [] → literal_like (matcher_of ρ) (rule_pattern ρ).
Proof.
  intros Hp. unfold matcher_of.
  destruct (bounded ρ); [by apply word_literal_like | by apply literal_literal_like].
Qed.

Lemma same_ends_spec ρ :
  same_ends ρ = true →
  rule_pattern ρ ≠ [] ∧ rule_replace ρ ≠ [] ∧
  Re.is_word_opt (head (rule_pattern ρ)) = Re.is_word_opt (head (rule_replace ρ)) ∧
  Re.is_word_opt (last (rule_pattern ρ)) = Re.is_word_opt (last (rule_replace ρ)).
Proof.
  unfold same_ends. destruct (rule_pattern ρ) as [|c p]; [done|].
  destruct (rule_replace ρ) as [|d r]; [done|].
  rewrite andb_true_iff. intros [H1%eqb_prop H2%eqb_prop]. done.
Qed.

Lemma fires_literal p s :
  p ≠ [] → fires (Re.literal p) None s ↔ occurs p s.
Proof.
  intros Hp. unfold fires, occurs, Re.literal. split.
  - intros (a & b & -> & Hm). destruct (startsWith p b) eqn:E.
    + apply startsWith_prefix in E as [k ->]. eauto.
    + by destruct Hm.
  - intros (a & b & ->). exists a, (p ++ b). split; [done|].
    rewrite startsWith_app. eauto.
Qed.

(** *** Texts that cannot overlap *)

Lemma elem_of_tails_self q : q ≠ [] → q ∈ tails q.
Proof. destruct q; [done|]. intros _. by left. Qed.

Lemma elem_of_tails_app a b : b ≠ [] → b ∈ tails (a ++ b).
Proof.
  intros Hb. induction a as [|c a IH]; simpl.
  - by apply elem_of_tails_self.
  - by right.
Qed.

Lemma tails_tail c q q2 : q2 ∈ tails q → q2 ∈ tails (c :: q).
Proof. intros. by right. Qed.

Lemma comparable_prefixes a b l :
  a `prefix_of` l → b `prefix_of` l → comparable a b = true.
Proof.
  intros Ha Hb. unfold comparable. apply orb_true_iff.
  destruct (prefix_weak_total _ _ _ Ha Hb); [left|right];
    by apply startsWith_prefix.
Qed.

Lemma forallb_elem {A} (f : A → bool) l x :
  forallb f l = true → x ∈ l → f x = true.
Proof.
  intros H Hin. apply forallb_Forall in H. rewrite Forall_forall in H. auto.
Qed.

Lemma no_clash_inserted r q r2 t :
  no_clash r q = true → r2 ∈ tails r → ¬ q `prefix_of` r2 ++ t.
Proof.
  unfold no_clash. rewrite andb_true_iff. intros [H _] Hin Hq.
  apply (forallb_elem _ _ _ H) in Hin. apply negb_true_iff in Hin.
  rewrite (comparable_prefixes r2 q (r2 ++ t)) in Hin; [done| |done].
  by apply prefix_app_r.
Qed.

Lemma no_clash_tail r q q2 t :
  no_clash r q = true → q2 ∈ tails q → ¬ q2 `prefix_of` r ++ t.
Proof.
  unfold no_clash. rewrite andb_true_iff. intros [_ H] Hin Hq.
  apply (forallb_elem _ _ _ H) in Hin. apply negb_true_iff in Hin.
  rewrite (comparable_prefixes q2 r (r ++ t)) in Hin; [done|done|].
  by apply prefix_app_r.
Qed.

Lemma last_or_nonempty l prev : l ≠ [] → last_or l prev = last l.
Proof.
  intros Hl. unfold last_or. destruct (last l) eqn:E; [done|].
  by apply last_None in E.
Qed.

(** *** Where a match in the rewritten text comes from *)

Section origin.
Variables (m : Re.matcher) (p r : list N).
Hypothesis Hm : literal_like m p.
Hypothesis Hr : r ≠ [].
Hypothesis Hhead : Re.is_word_opt (head p) = Re.is_word_opt (head r).
Hypothesis Hlast : Re.is_word_opt (last p) = Re.is_word_opt (last r).

Lemma match_take prev s n :
  m prev s = Some n → take n s = p ∧ s = p ++ drop n s.
Proof using Hm.
  intros [-> [k ->]]%(ll_sound _ _ Hm).
  by rewrite take_app_length, drop_app_length.
Qed.

(** A text that no inserted [r] can begin, found at the head of the
    result, stands at the head of the subject, followed alike. *)
Lemma prefix_transfer q' prev s v' :
  (∀ q2 t, q2 ∈ tails q' → ¬ q2 `prefix_of` r ++ t) →
  Re.replace_from m r 0 prev s = q' ++ v' →
  ∃ v0, s = q' ++ v0 ∧
        Re.is_word_opt (head v0) = Re.is_word_opt (head v').
Proof using All.
  revert q' v'.
  apply (replace_from_ind m r (λ _ s t, ∀ q' v',
    (∀ q2 t, q2 ∈ tails q' → ¬ q2 `prefix_of` r ++ t) →
    t = q' ++ v' →
    ∃ v0, s = q' ++ v0 ∧
          Re.is_word_opt (head v0) = Re.is_word_opt (head v'))).
  - intros _ q' v' _ Heq. symmetry in Heq.
    apply app_eq_nil in Heq as [-> ->]. by exists [].
  - intros _ c s' _ IH [|c' q''] v' Hq Heq.
    + simpl in Heq. subst v'. by exists (c :: s').
    + injection Heq as <- Heq.
      destruct (IH q'' v') as (v0 & -> & Hv); [|done|by exists v0].
      intros q2 t' Hin. apply Hq. by right.
  - intros prev' c s' n Hmt prev'' s'' _ [|c' q''] v' Hq Heq.
    + simpl in Heq. subst v'. exists (c :: s'). split; [done|].
      destruct (match_take _ _ _ Hmt) as [_ ->].
      rewrite !head_app. destruct Hm as [Hp _ _].
      destruct p as [|x p']; [done|]. destruct r as [|y r']; [done|].
      exact Hhead.
    + exfalso. apply (Hq (c' :: q'') (Re.replace_from m r 0 prev'' s''));
        [by left|].
      rewrite Heq. by apply prefix_app_r.
Qed.

Variables (m' : Re.matcher) (p' : list N).
Hypothesis Hm' : literal_like m' p'.
Hypothesis Hclash : no_clash r p' = true.

(** A match of [m'] in the result stands where [m'] matches in the
    subject, at a position that the scan has copied. *)
Lemma fires_origin prev s prev' :
  Re.is_word_opt prev' = Re.is_word_opt prev →
  fires m' prev' (Re.replace_from m r 0 prev s) →
  ∃ a b, s = a ++ b ∧ is_Some (m' (last_or a prev) b)
         ∧ m (last_or a prev) b = None.
Proof using All.
  revert prev'.
  apply (replace_from_ind m r (λ prev s t, ∀ prev',
    Re.is_word_opt prev' = Re.is_word_opt prev →
    fires m' prev' t →
    ∃ a b, s = a ++ b ∧ is_Some (m' (last_or a prev) b)
           ∧ m (last_or a prev) b = None)).
  - intros prev0 prev' _ (a & b & Heq & [n Hn]). symmetry in Heq.
    apply app_eq_nil in Heq as [-> ->].
    apply (ll_sound _ _ Hm') in Hn as [_ Hn%prefix_nil_inv].
    by destruct Hm'.
  - intros prev0 c s' Hc IH prev' Hcl (a & b & Heq & [n Hn]).
    destruct a as [|c' a].
    + simpl in Heq. subst b. change (last_or [] prev') with prev' in Hn.
      pose proof (ll_sound _ _ Hm' _ _ _ Hn) as [_ [v' Hv]].
      destruct p' as [|x p''];
        [exfalso; by apply (ll_nonempty _ _ Hm')|].
      injection Hv as <- Hv. rewrite Hv in Hn.
      destruct (prefix_transfer p'' (Some c) s' v') as (v0 & -> & Hv0);
        [|done|].
      { intros q2 t' Hin. eapply no_clash_tail; [exact Hclash|]. by right. }
      exists [], (c :: p'' ++ v0). split; [done|].
      change (last_or [] prev0) with prev0. split.
      * change (c :: p'' ++ ?v) with ((c :: p'') ++ v) in *.
        rewrite (ll_context _ _ Hm' prev0 prev' v0 v') by done. eauto.
      * destruct Hc as [Hc|Hc]; [done|].
        apply (ll_sound _ _ Hm) in Hc as [Hc _]. destruct Hm as [Hp _ _].
        symmetry in Hc. by apply nil_length_inv in Hc.
    + injection Heq as <- Heq. rewrite last_or_cons in Hn.
      destruct (IH (Some c)) as (a0 & b0 & -> & H1 & H2); [done| |].
      { exists a, b. eauto. }
      exists (c :: a0), b0. by rewrite last_or_cons.
  - intros prev0 c s' n Hmt prev1 s1 IH prev' Hcl (a & b & Heq & [k Hk]).
    destruct (match_take _ _ _ Hmt) as [Htake Hs'].
    assert (∃ k0, a = r ++ k0 ∧ Re.replace_from m r 0 prev1 s1 = k0 ++ b)
      as (k0 & -> & Ht).
    { apply app_eq_inv in Heq as [(k0 & -> & ->)|(k0 & -> & Ht)].
      - destruct k0 as [|y k0].
        + exists []. by rewrite !app_nil_r.
        + exfalso. apply (ll_sound _ _ Hm') in Hk as [_ Hk].
          eapply no_clash_inserted; [exact Hclash| |exact Hk].
          by apply elem_of_tails_app.
      - by exists k0. }
    rewrite last_or_app in Hk.
    destruct (IH (last_or r prev')) as (a0 & b0 & Hd & H1 & H2).
    + unfold prev1. rewrite Htake, !last_or_nonempty by (done || by destruct Hm).
      by symmetry.
    + exists k0, b. eauto.
    + exists (take (S n) (c :: s') ++ a0), b0.
      rewrite last_or_app. split; [|done].
      rewrite <- (assoc_L (++)). fold s1 in Hd. rewrite <- Hd.
      unfold s1. by rewrite take_drop.
Qed.
End origin.

(** *** One rule after the other *)

Lemma rule_keeps_quiet ρ ρ' s :
  same_ends ρ = true → rule_pattern ρ' ≠ [] →
  no_clash (rule_replace ρ) (rule_pattern ρ') = true →
  quiet ρ' s →
  quiet ρ' (Re.replace_global (matcher_of ρ) (rule_replace ρ) s).
Proof.
  intros (Hp & Hr & Hh & Hl)%same_ends_spec Hp' Hcl Hq Hf. apply Hq.
  destruct (fires_origin (matcher_of ρ) (rule_pattern ρ) (rule_replace ρ)
              (matcher_of_literal_like ρ Hp) Hr Hh Hl
              (matcher_of ρ') (rule_pattern ρ')
              (matcher_of_literal_like ρ' Hp') Hcl None s None eq_refl Hf)
    as (a & b & -> & H1 & _).
  by exists a, b.
Qed.

Lemma rule_self_quiet ρ s :
  same_ends ρ = true →
  no_clash (rule_replace ρ) (rule_pattern ρ) = true →
  quiet ρ (Re.replace_global (matcher_of ρ) (rule_replace ρ) s).
Proof.
  intros Hse Hcl Hf. pose proof Hse as (Hp & Hr & Hh & Hl)%same_ends_spec.
  destruct (fires_origin (matcher_of ρ) (rule_pattern ρ) (rule_replace ρ)
              (matcher_of_literal_like ρ Hp) Hr Hh Hl
              (matcher_of ρ) (rule_pattern ρ)
              (matcher_of_literal_like ρ Hp) Hcl None s None eq_refl Hf)
    as (a & b & _ & [n H1] & H2).
  congruence.
Qed.

Lemma harmless_keeps_quiet rules ρ' s :
  rule_pattern ρ' ≠ [] → harmless rules ρ' = true → quiet ρ' s →
  quiet ρ' (applyTransforms (transform_of <$> rules) s).
Proof.
  intros Hp'. revert s. induction rules as [|ρ rules IH]; intros s Hh Hq.
  - done.
  - simpl in Hh. apply andb_true_iff in Hh as [[Hse Hcl]%andb_true_iff Hh].
    rewrite applyTransforms_cons. apply IH; [done|].
    by apply rule_keeps_quiet.
Qed.

Lemma settled_quiet rules s :
  settled rules = true →
  Forall (λ ρ, quiet ρ (applyTransforms (transform_of <$> rules) s)) rules.
Proof.
  revert s. induction rules as [|ρ rules IH]; intros s Hs; [constructor|].
  cbn [settled harmless forallb] in Hs.
  apply andb_true_iff in Hs as [[[Hse Hcl]%andb_true_iff Hh]%andb_true_iff Hs].
  rewrite applyTransforms_cons. constructor.
  - apply harmless_keeps_quiet;
      [by apply same_ends_spec in Hse as [? _] | exact Hh |].
    by apply rule_self_quiet.
  - by apply IH.
Qed.

Lemma quiet_apply_id rules y :
  Forall (λ ρ, quiet ρ y) rules →
  applyTransforms (transform_of <$> rules) y = y.
Proof.
  induction 1 as [|ρ rules Hq _ IH]; [done|].
  rewrite applyTransforms_cons. unfold Re.replace_global.
  by rewrite replace_from_id.
Qed.

Lemma apply_elem c rules s :
  c ∈ applyTransforms (transform_of <$> rules) s →
  c ∈ s ∨ ∃ ρ, ρ ∈ rules ∧ c ∈ rule_replace ρ.
Proof.
  revert s. induction rules as [|ρ rules IH]; intros s; [by left|].
  rewrite applyTransforms_cons.
  intros [[Hin|Hin]%replace_from_elem|(ρ' & ? & ?)]%IH.
  - by left.
  - right. exists ρ. split; [by left | done].
  - right. exists ρ'. split; [by right | done].
Qed.

(** *** Replacing by a longer text *)

Section longer.
Variables (m : Re.matcher) (p r : list N).
Hypothesis Hm : literal_like m p.
Hypothesis Hlen : (length p ≤ length r)%nat.

Lemma replace_from_length prev s :
  (length s ≤ length (Re.replace_from m r 0 prev s))%nat ∧
  ((length p < length r)%nat → fires m prev s →
   (length s < length (Re.replace_from m r 0 prev s))%nat).
Proof using All.
  apply (replace_from_ind m r (λ prev s t,
    (length s ≤ length t)%nat ∧
    ((length p < length r)%nat → fires m prev s →
     (length s < length t)%nat))).
  - intros prev0. split; [done|]. intros _ (a & b & Heq & [n Hn]).
    symmetry in Heq. apply app_eq_nil in Heq as [-> ->].
    apply (ll_sound _ _ Hm) in Hn as [_ Hn%prefix_nil_inv].
    by destruct Hm.
  - intros prev0 c s' Hc [IH1 IH2]. split; [simpl; lia|].
    intros Hlt (a & b & Heq & [n Hn]). destruct a as [|c' a].
    + simpl in Heq. subst b. change (last_or [] prev0) with prev0 in Hn.
      destruct Hc as [Hc|Hc]; [congruence|].
      apply (ll_sound _ _ Hm) in Hc as [Hc _]. destruct Hm as [Hp _ _].
      symmetry in Hc. by apply nil_length_inv in Hc.
    + injection Heq as <- ->. rewrite last_or_cons in Hn.
      simpl. apply -> Nat.succ_lt_mono. apply IH2; [done|].
      exists a, b. eauto.
  - intros prev0 c s' n Hmt prev1 s1 [IH1 _].
    destruct (match_take m p Hm _ _ _ Hmt) as [_ Hs].
    fold s1 in Hs. rewrite Hs, !length_app. split; lia.
Qed.
End longer.

(** C4, as stated, fails: a quoted Bash followed by Bash and a quote is
    rewritten to a quoted Shell followed by Bash and a quote, in which the
    closing quote of Shell now opens a quoted Bash; the second pass rewrites
    that one too. *)
Lemma applyStatic_counterexample :
  let x := quoted (lit "Bash") ++ lit "Bash" ++ [QUOTE] in
  applyStatic x = quoted (lit "Shell") ++ lit "Bash" ++ [QUOTE] ∧
  applyStatic (applyStatic x) = quoted (lit "Shell") ++ lit "Shell" ++ [QUOTE] ∧
  applyStatic (applyStatic x) ≠ applyStatic x.
Proof. by vm_compute. Qed.

(** *** The static rules *)

Lemma applyStatic_split x :
  applyStatic x
  = applyTransforms (transform_of <$> quoted_rules)
      (applyTransforms (transform_of <$> unquoted_rules) x).
Proof.
  unfold applyStatic. rewrite static_rules_spec.
  rewrite <- (take_drop 5 static_rules) at 1. apply applyTransforms_app.
Qed.

Lemma unquoted_harmless ρ :
  ρ ∈ unquoted_rules →
  rule_pattern ρ ≠ [] ∧ harmless quoted_rules ρ = true.
Proof.
  intros Hin.
  assert (forallb (λ ρ, negb (bool_decide (rule_pattern ρ = []))
                        && harmless quoted_rules ρ) unquoted_rules = true)
    as H by (by vm_compute).
  apply (forallb_elem _ _ _ H) in Hin.
  apply andb_true_iff in Hin as [H1%negb_true_iff%bool_decide_eq_false H2].
  done.
Qed.

(** The five rules without quotes match nowhere in a text rewritten once. *)
Lemma unquoted_quiet x : Forall (λ ρ, quiet ρ (applyStatic x)) unquoted_rules.
Proof.
  rewrite applyStatic_split. apply Forall_forall. intros ρ Hin.
  destruct (unquoted_harmless ρ Hin) as [Hp Hh].
  apply harmless_keeps_quiet; [done..|].
  assert (settled unquoted_rules = true) as Hs by (by vm_compute).
  pose proof (settled_quiet unquoted_rules x Hs) as Hq.
  rewrite Forall_forall in Hq. by apply Hq.
Qed.

Lemma quoted_nonempty s : quoted s ≠ [].
Proof. done. Qed.

Lemma quiet_quoted p r s :
  p ≠ [] → quiet (mkLiteralRule false p r) s ↔ ¬ occurs p s.
Proof. intros Hp. unfold quiet. by rewrite <- (fires_literal p s Hp). Qed.

Lemma occurs_elem c p s : c ∈ p → occurs p s → c ∈ s.
Proof. intros Hc (a & b & ->). rewrite !elem_of_app. auto. Qed.

(** A text rewritten once that holds no quoted tool name is not changed by
    rewriting it again. *)
Lemma applyStatic_fixed y :
  Forall (λ ρ, quiet ρ y) unquoted_rules →
  ¬ occurs (quoted (lit "Bash")) y → ¬ occurs (quoted (lit "Edit")) y →
  applyStatic y = y.
Proof.
  intros Hu H6 H7. rewrite applyStatic_split.
  rewrite (quiet_apply_id unquoted_rules) by done.
  apply quiet_apply_id.
  repeat constructor; by apply quiet_quoted; [apply quoted_nonempty|].
Qed.

(** Replacing a quoted name by the longer one makes the text longer. *)
Lemma replace_quoted_length a b s :
  (length a ≤ length b)%nat →
  let t := Re.replace_global (Re.literal (quoted a)) (quoted b) s in
  (length s ≤ length t)%nat ∧
  ((length a < length b)%nat → occurs (quoted a) s →
   (length s < length t)%nat).
Proof.
  intros Hab t.
  assert (length (quoted a) ≤ length (quoted b))%nat as Hlen.
  { unfold quoted. simpl. rewrite !length_app. simpl. lia. }
  pose proof (replace_from_length (Re.literal (quoted a)) (quoted a) (quoted b)
                (literal_literal_like _ (quoted_nonempty a)) Hlen None s)
    as [H1 H2].
  split; [done|]. intros Hlt Hocc. apply H2.
  - unfold quoted. simpl. rewrite !length_app. simpl. lia.
  - by apply fires_literal; [apply quoted_nonempty|].
Qed.

Lemma applyStatic_quoted y :
  Forall (λ ρ, quiet ρ y) unquoted_rules →
  applyStatic y
  = Re.replace_global (Re.literal (quoted (lit "Edit")))
      (quoted (lit "StrReplace"))
      (Re.replace_global (Re.literal (quoted (lit "Bash")))
         (quoted (lit "Shell")) y).
Proof.
  intros Hu. rewrite applyStatic_split.
  by rewrite (quiet_apply_id unquoted_rules).
Qed.

(** A text that holds a quoted tool name grows when it is rewritten. *)
Lemma applyStatic_grows_Bash y :
  Forall (λ ρ, quiet ρ y) unquoted_rules →
  occurs (quoted (lit "Bash")) y →
  (length y < length (applyStatic y))%nat.
Proof.
  intros Hu Hocc. rewrite applyStatic_quoted by done.
  destruct (replace_quoted_length (lit "Bash") (lit "Shell") y) as [_ H6];
    [vm_compute; lia|].
  specialize (H6 ltac:(vm_compute; lia) Hocc).
  destruct (replace_quoted_length (lit "Edit") (lit "StrReplace")
              (Re.replace_global (Re.literal (quoted (lit "Bash")))
                 (quoted (lit "Shell")) y)) as [H7 _];
    [vm_compute; lia|].
  lia.
Qed.

Lemma applyStatic_grows_Edit y :
  Forall (λ ρ, quiet ρ y) unquoted_rules →
  ¬ occurs (quoted (lit "Bash")) y →
  occurs (quoted (lit "Edit")) y →
  (length y < length (applyStatic y))%nat.
Proof.
  intros Hu Hb Hocc. rewrite applyStatic_quoted by done.
  unfold Re.replace_global at 2. rewrite replace_from_id.
  - destruct (replace_quoted_length (lit "Edit") (lit "StrReplace") y)
      as [_ H7]; [vm_compute; lia|].
    apply H7; [vm_compute; lia | done].
  - by rewrite (fires_literal _ _ (quoted_nonempty _)).
Qed.

(** A text without a quote is rewritten to a text without a quote. *)
Lemma applyStatic_no_quote x : QUOTE ∉ x → QUOTE ∉ applyStatic x.
Proof.
  intros Hx. rewrite applyStatic_split.
  set (x5 := applyTransforms (transform_of <$> unquoted_rules) x).
  assert (QUOTE ∉ x5) as H5.
  { intros [?|(ρ & Hin & Hq)]%apply_elem; [done|].
    assert (forallb (λ ρ, negb (bool_decide (QUOTE ∈ rule_replace ρ)))
              unquoted_rules = true) as H by (by vm_compute).
    apply (forallb_elem _ _ _ H) in Hin.
    by apply negb_true_iff, bool_decide_eq_false in Hin. }
  rewrite quiet_apply_id; [done|].
  repeat constructor; apply quiet_quoted; try apply quoted_nonempty;
    intros Hocc; apply H5; (eapply occurs_elem; [|exact Hocc]); by left.
Qed.

(** C4, amended. Rewrite idempotence of the static rules: rewriting a second
    time changes nothing exactly when the text rewritten once holds neither
    Bash nor Edit between double quotes; in particular it changes nothing
    for every input without a double quote.  (The five rules without quotes
    in their pattern never match in a text rewritten once.) *)
Theorem applyStatic_twice (x : list N) :
  (applyStatic (applyStatic x) = applyStatic x ↔
     ¬ occurs (quoted (lit "Bash")) (applyStatic x) ∧
     ¬ occurs (quoted (lit "Edit")) (applyStatic x)) ∧
  (QUOTE ∉ x → applyStatic (applyStatic x) = applyStatic x).
Proof.
  pose proof (unquoted_quiet x) as Hu. split; [split|].
  - intros Heq.
    assert (¬ occurs (quoted (lit "Bash")) (applyStatic x)) as Hb.
    { intros Hocc. pose proof (applyStatic_grows_Bash _ Hu Hocc) as Hlt.
      rewrite Heq in Hlt. lia. }
    split; [done|]. intros Hocc.
    pose proof (applyStatic_grows_Edit _ Hu Hb Hocc) as Hlt.
    rewrite Heq in Hlt. lia.
  - intros [Hb He]. by apply applyStatic_fixed.
  - intros Hx%applyStatic_no_quote.
    apply applyStatic_fixed; [done| |]; intros Hocc; apply Hx;
      (eapply occurs_elem; [|exact Hocc]); by left.
Qed.

Lemma applyStatic_twice_witness :
  let x := lit "Run the Bash tool of Claude Code CLI; see CLAUDE.md in ~/.claude/rules." in
  applyStatic (applyStatic x) = applyStatic x.
Proof.
  intros x. apply (proj2 (applyStatic_twice x)).
  vm_compute. intros Hin.
  repeat (apply elem_of_cons in Hin as [[=]|Hin]). by apply elem_of_nil in Hin.
Defined.

(** ** The hook translator (lib/translators/hooks.ts) *)

(** What [mkdir] leaves: the directory is there, with the directories on
    the way to it; nothing else has changed, and nothing was overwritten. *)
Lemma mkdir_from_spec (base todo : list (list N)) (t t' : gmap (list (list N)) Fs.node) :
  Fs.mkdir_from base todo t = Some t' →
  (∀ k, (0 < k ≤ length todo)%nat → t' !! (base ++ take k todo) = Some Fs.Dir) ∧
  (∀ q, t' !! q ≠ t !! q →
        t !! q = None ∧ ∃ k, (0 < k ≤ length todo)%nat ∧ q = base ++ take k todo).
Proof.
  revert base t. induction todo as [|c todo IH]; intros base t; simpl.
  - intros [= <-]. split; [intros k; lia | done].
  - assert (∀ t0, t0 !! (base ++ [c]) = Some Fs.Dir →
              (∀ q, t0 !! q ≠ t !! q → t !! q = None ∧ q = base ++ [c]) →
              Fs.mkdir_from (base ++ [c]) todo t0 = Some t' →
              (∀ k, (0 < k ≤ S (length todo))%nat →
                    t' !! (base ++ take k (c :: todo)) = Some Fs.Dir) ∧
              (∀ q, t' !! q ≠ t !! q →
                    t !! q = None ∧
                    ∃ k, (0 < k ≤ S (length todo))%nat
                         ∧ q = base ++ take k (c :: todo))) as Hstep.
    { intros t0 Hd Hfr Hmk. apply IH in Hmk as [H1 H2]. split.
      - intros [|k] Hk; [lia|]. simpl. destruct k as [|k].
        + rewrite take_0. destruct (decide (t' !! (base ++ [c]) = t0 !! (base ++ [c])))
            as [->|Hne]; [done|].
          apply H2 in Hne as [Hn _]. congruence.
        + rewrite (cons_middle c base). rewrite (assoc_L (++)).
          apply H1. simpl in *. lia.
      - intros q Hq. destruct (decide (t' !! q = t0 !! q)) as [Heq|Hne].
        + rewrite Heq in Hq. apply Hfr in Hq as [? ->]. split; [done|].
          exists 1%nat. split; [lia|]. simpl. by rewrite take_0.
        + apply H2 in Hne as [Hn (k & Hk & ->)].
          destruct (decide (t0 !! ((base ++ [c]) ++ take k todo)
                            = t !! ((base ++ [c]) ++ take k todo)))
            as [Heq|Hne'].
          * split; [congruence|]. exists (S k). split; [lia|].
            by rewrite <- (assoc_L (++)).
          * apply Hfr in Hne' as [? Habs]. split; [done|].
            exists (S k). split; [lia|]. by rewrite <- (assoc_L (++)). }
    destruct (t !! (base ++ [c])) as [[|]|] eqn:Hc; [done| |].
    + apply Hstep; [done|]. by intros q [].
    + apply Hstep; [by rewrite lookup_insert_eq|].
      intros q Hq. destruct (decide (q = base ++ [c])) as [->|Hne]; [done|].
      by rewrite lookup_insert_ne in Hq.
Qed.

Lemma mkdir_p_spec (p : list (list N)) (t t' : gmap (list (list N)) Fs.node) :
  Fs.mkdir_p t p = Some t' →
  Fs.lookup_node t' p = Some Fs.Dir ∧
  (∀ q, t' !! q ≠ t !! q →
        t !! q = None ∧ t' !! q = Some Fs.Dir ∧ q `prefix_of` p).
Proof.
  intros [H1 H2]%mkdir_from_spec. split.
  - destruct p as [|c p]; [done|]. simpl.
    specialize (H1 (length (c :: p))). rewrite firstn_all in H1.
    apply H1. simpl. lia.
  - intros q Hq. destruct (H2 q Hq) as (Hn & k & Hk & ->). split; [done|].
    split; [by apply H1 | apply prefix_take].
Qed.

(** [mkdir] fails only on a file that is in the way. *)
Lemma mkdir_from_None (base todo : list (list N)) (t : gmap (list (list N)) Fs.node) :
  Fs.mkdir_from base todo t = None →
  ∃ k c, (0 < k ≤ length todo)%nat ∧ t !! (base ++ take k todo) = Some (Fs.File c).
Proof.
  revert base t. induction todo as [|x todo IH]; intros base t; [done|]. simpl.
  destruct (t !! (base ++ [x])) as [[c|]|] eqn:Hx.
  - intros _. exists 1%nat, c. simpl. rewrite take_0. split; [lia|done].
  - intros (k & c & Hk & Hc)%IH. exists (S k), c. split; [lia|].
    simpl. by rewrite (cons_middle x base), (assoc_L (++)).
  - intros (k & c & Hk & Hc)%IH. exists (S k), c. split; [lia|].
    simpl. rewrite (cons_middle x base), (assoc_L (++)).
    rewrite lookup_insert_ne in Hc; [done|].
    intros Heq%(f_equal length). rewrite !length_app in Heq.
    rewrite length_take in Heq. simpl in Heq. lia.
Qed.

(** On a target that does not exist yet, [mkdir] succeeds. *)
Lemma mkdir_p_empty (p : list (list N)) : is_Some (Fs.mkdir_p ∅ p).
Proof.
  unfold Fs.mkdir_p. destruct (Fs.mkdir_from [] p ∅) eqn:Hmk; [done|].
  apply mkdir_from_None in Hmk as (k & c & _ & Hc).
  by rewrite lookup_empty in Hc.
Qed.

Lemma join_plain (base : list (list N)) seg :
  plain_name seg = true → Fs.join base [seg] = base ++ [seg].
Proof.
  unfold plain_name. rewrite !andb_true_iff, !negb_true_iff.
  intros [[Hs%bool_decide_eq_false Hd%bool_decide_eq_false]
          Hdd%bool_decide_eq_false].
  unfold Fs.join. simpl. rewrite app_nil_r, split_no_sep by done. simpl.
  unfold Fs.push_segment. by rewrite !decide_False.
Qed.

Section hooks_loop.
Variables (dir : list (list N)) (prefix : list N).

Let body := hook_step dir prefix.
Let written := hook_written dir.

Lemma hooks_loop_dry rules t acc :
  for_each (body true) rules (t, acc)
  = Some (t, acc ++ (hook_path prefix <$> rules)).
Proof using Type.
  revert acc. induction rules as [|r rules IH]; intros acc; simpl.
  - by rewrite app_nil_r.
  - rewrite IH. by rewrite <- (assoc_L (++)).
Qed.

Lemma hooks_loop_real rules t acc :
  Forall (λ r, plain_name (filename r) = true) rules →
  NoDup (filename <$> rules) →
  Fs.lookup_node t dir = Some Fs.Dir →
  for_each (body false) rules (t, acc)
  = if decide (Forall (λ r, t !! (dir ++ [filename r]) ≠ Some Fs.Dir) rules)
    then Some (written t rules, acc ++ (hook_path prefix <$> rules))
    else None.
Proof using Type.
  revert t acc. induction rules as [|r rules IH]; intros t acc Hpl Hnd Hdir.
  - cbn [for_each]. destruct (decide _) as [_|Hn].
    + simpl. by rewrite app_nil_r.
    + destruct Hn. constructor.
  - apply Forall_cons in Hpl as [Hr Hpl]. rewrite fmap_cons in Hnd.
    apply NoDup_cons in Hnd as [Hnin Hnd].
    cbn [for_each].
    change (body false (t, acc) r)
      with (t' ← Fs.writeFile t (Fs.join dir [filename r]) (content r);
            Some (t', acc ++ [hook_path prefix r])).
    rewrite join_plain by done.
    destruct (decide (t !! (dir ++ [filename r]) = Some Fs.Dir)) as [Hd|Hd].
    + assert (Fs.writeFile t (dir ++ [filename r]) (content r) = None) as ->.
      { destruct (Fs.writeFile t _ _) eqn:E; [|done].
        apply writeFile_Some in E as (_ & _ & ? & _). done. }
      rewrite decide_False; [done|]. by intros [? _]%Forall_cons.
    + assert (Fs.writeFile t (dir ++ [filename r]) (content r)
              = Some (<[dir ++ [filename r] := Fs.File (content r)]> t)) as ->.
      { apply writeFile_Some. rewrite parent_snoc.
        split; [by destruct dir|]. done. }
      cbn [mbind option_bind]. rewrite IH; [|done|done|].
      * assert (∀ r', r' ∈ rules →
                  (<[dir ++ [filename r] := Fs.File (content r)]> t)
                    !! (dir ++ [filename r']) = t !! (dir ++ [filename r']))
          as Hother.
        { intros r' Hin. apply lookup_insert_ne.
          intros [= Heq]%app_inv_head. apply Hnin. rewrite Heq.
          by apply list_elem_of_fmap_2. }
        destruct (decide (Forall _ rules)) as [Hall|Hall].
        -- rewrite decide_True.
           ++ by rewrite <- (assoc_L (++)).
           ++ constructor; [done|]. rewrite Forall_forall in Hall |- *.
              intros r' Hin. rewrite <- Hother by done. by apply Hall.
        -- rewrite decide_False; [done|]. intros [_ Hall']%Forall_cons.
           apply Hall. rewrite Forall_forall in Hall' |- *.
           intros r' Hin. rewrite Hother by done. by apply Hall'.
      * rewrite lookup_node_insert_ne; [done|].
        intros Heq%(f_equal length). rewrite length_app in Heq.
        simpl in Heq. lia.
Qed.

Lemma written_other (rules : list ExtractedRule) (t : gmap (list (list N)) Fs.node) q :
  (∀ r, r ∈ rules → q ≠ dir ++ [filename r]) →
  written t rules !! q = t !! q.
Proof using Type.
  revert t. induction rules as [|r rules IH]; intros t Hq; [done|].
  simpl. rewrite IH.
  - rewrite lookup_insert_ne; [done|]. intros Heq. by eapply Hq; [left|].
  - intros r' Hin. apply Hq. by right.
Qed.

Lemma written_file (rules : list ExtractedRule) (t : gmap (list (list N)) Fs.node) r :
  NoDup (filename <$> rules) → r ∈ rules →
  written t rules !! (dir ++ [filename r]) = Some (Fs.File (content r)).
Proof using Type.
  revert t. induction rules as [|r' rules IH]; intros t Hnd Hin.
  - by apply elem_of_nil in Hin.
  - rewrite fmap_cons in Hnd. apply NoDup_cons in Hnd as [Hnin Hnd].
    simpl. apply elem_of_cons in Hin as [->|Hin]; [|by apply IH].
    rewrite written_other; [by rewrite lookup_insert_eq|].
    intros r0 Hin0 [= Heq]%app_inv_head. apply Hnin. rewrite Heq.
    by apply list_elem_of_fmap_2.
Qed.
End hooks_loop.

Lemma translateHooks_unfold (src tgt : gmap (list (list N)) Fs.node)
    ctx prefix dryRun :
  translateHooks src tgt ctx prefix dryRun
  = if Fs.existsSync src [SRC_HOOKS; lit "hooks.json"] then
      tgt0 ← (if dryRun then Some tgt
              else Fs.mkdir_p tgt (hook_rules_dir ctx prefix));
      for_each (hook_step (hook_rules_dir ctx prefix) prefix dryRun)
               EXTRACTED_RULES (tgt0, [])
    else Some (tgt, []).
Proof.
  unfold translateHooks.
  change (Fs.join [] [SRC_HOOKS; lit "hooks.json"])
    with [SRC_HOOKS; lit "hooks.json"].
  by destruct (Fs.existsSync _ _).
Qed.

Lemma extracted_rules_plain :
  Forall (λ r, plain_name (filename r) = true) EXTRACTED_RULES.
Proof. unfold EXTRACTED_RULES. repeat constructor. Qed.

Lemma extracted_rules_nodup : NoDup (filename <$> EXTRACTED_RULES).
Proof. apply (bool_decide_unpack _). by vm_compute. Qed.

(** C5. Hook gating: what [translateHooks] does depends on the source tree
    only through the existence of [hooks/hooks.json].  Without the file it
    writes nothing and returns the empty list.  With it, the result is the
    same for any two source trees; the paths returned are those of the three
    curated documents under the rules directory of the prefixed
    coding-standards skill; a run that is not dry succeeds unless a file
    blocks the directory or a directory blocks a document, writes each
    document with its curated content, and changes nothing else but the
    directories it creates on the way; a dry run writes nothing. *)
Theorem translateHooks_gating (src tgt : gmap (list (list N)) Fs.node)
    (ctx : TargetContext) (prefix : list N) :
  let hooksFile := [SRC_HOOKS; lit "hooks.json"] in
  let rulesDir := hook_rules_dir ctx prefix in
  (Fs.existsSync src hooksFile = false →
     ∀ dryRun, translateHooks src tgt ctx prefix dryRun = Some (tgt, [])) ∧
  (Fs.existsSync src hooksFile = true →
     (∀ src' dryRun, Fs.existsSync src' hooksFile = true →
        translateHooks src' tgt ctx prefix dryRun
        = translateHooks src tgt ctx prefix dryRun) ∧
     length (hook_paths prefix) = 3%nat ∧
     translateHooks src tgt ctx prefix true = Some (tgt, hook_paths prefix) ∧
     (is_Some (translateHooks src tgt ctx prefix false) ↔
        is_Some (Fs.mkdir_p tgt rulesDir) ∧
        ∀ r, r ∈ EXTRACTED_RULES → tgt !! (rulesDir ++ [filename r]) ≠ Some Fs.Dir) ∧
     (∀ tgt' written,
        translateHooks src tgt ctx prefix false = Some (tgt', written) →
        written = hook_paths prefix ∧
        (∀ r, r ∈ EXTRACTED_RULES →
              Fs.readFile tgt' (rulesDir ++ [filename r]) = Some (content r)) ∧
        (∀ q, tgt' !! q ≠ tgt !! q →
              (∃ r, r ∈ EXTRACTED_RULES ∧ q = rulesDir ++ [filename r]) ∨
              (tgt !! q = None ∧ tgt' !! q = Some Fs.Dir
               ∧ q `prefix_of` rulesDir)))).
Proof.
  intros hooksFile rulesDir. split.
  { intros Hex dryRun. rewrite translateHooks_unfold. fold hooksFile.
    by rewrite Hex. }
  intros Hex. split; [|split; [done|split; [|split]]].
  - intros src' dryRun Hex'. rewrite !translateHooks_unfold. fold hooksFile.
    by rewrite Hex, Hex'.
  - rewrite translateHooks_unfold. fold hooksFile. rewrite Hex.
    cbn [mbind option_bind]. apply hooks_loop_dry.
  - rewrite translateHooks_unfold. fold hooksFile rulesDir. rewrite Hex.
    destruct (Fs.mkdir_p tgt rulesDir) as [t0|] eqn:Hmk; cbn [mbind option_bind].
    + destruct (mkdir_p_spec _ _ _ Hmk) as [Hdir Hfr].
      rewrite hooks_loop_real
        by (done || apply extracted_rules_plain || apply extracted_rules_nodup).
      assert (∀ r, t0 !! (rulesDir ++ [filename r]) = Some Fs.Dir
                   ↔ tgt !! (rulesDir ++ [filename r]) = Some Fs.Dir) as Hsame.
      { intros r.
        destruct (decide (t0 !! (rulesDir ++ [filename r])
                          = tgt !! (rulesDir ++ [filename r]))) as [->|Hne];
          [done|].
        apply Hfr in Hne as (_ & _ & Hpre). apply prefix_length in Hpre.
        rewrite length_app in Hpre. simpl in Hpre. lia. }
      destruct (decide (Forall _ EXTRACTED_RULES)) as [Hall|Hall].
      * split; [|eauto]. intros _. split; [eauto|].
        rewrite Forall_forall in Hall. intros r Hin. rewrite <- Hsame.
        by apply Hall.
      * split; [by intros [? ?]|]. intros [_ Hno]. destruct Hall.
        apply Forall_forall. intros r Hin. rewrite Hsame. by apply Hno.
    + split; [by intros [? ?] | by intros [[? ?] _]].
  - intros tgt' written. rewrite translateHooks_unfold. fold hooksFile rulesDir.
    rewrite Hex.
    destruct (Fs.mkdir_p tgt rulesDir) as [t0|] eqn:Hmk; cbn [mbind option_bind];
      [|done].
    destruct (mkdir_p_spec _ _ _ Hmk) as [Hdir Hfr].
    rewrite hooks_loop_real
      by (done || apply extracted_rules_plain || apply extracted_rules_nodup).
    destruct (decide (Forall _ EXTRACTED_RULES)) as [Hall|Hall]; [|done].
    intros Heq.
    assert (tgt' = hook_written rulesDir t0 EXTRACTED_RULES) as ->
      by congruence.
    assert (written = [] ++ (hook_path prefix <$> EXTRACTED_RULES)) as ->
      by congruence.
    clear Heq. split; [reflexivity|]. split.
    + intros r Hin. unfold Fs.readFile.
      rewrite lookup_node_cons by (by destruct rulesDir).
      by rewrite written_file by (done || apply extracted_rules_nodup).
    + intros q Hq.
      destruct (decide (q ∈ (λ r, rulesDir ++ [filename r]) <$> EXTRACTED_RULES))
        as [Hin|Hno].
      { left. apply list_elem_of_fmap in Hin as (r & -> & Hin). eauto. }
      right.
      assert (∀ r, r ∈ EXTRACTED_RULES → q ≠ rulesDir ++ [filename r]) as Hno'.
      { intros r Hin ->. apply Hno.
        by apply (list_elem_of_fmap_2 (λ r, rulesDir ++ [filename r])). }
      rewrite written_other in Hq |- * by done. by apply Hfr.
Qed.

Lemma translateHooks_gating_witness :
  ∃ tgt',
    translateHooks hooks_only ∅ (createContext [lit "home"; lit ".cursor"])
      (lit "ecc") false
    = Some (tgt', hook_paths (lit "ecc")).
Proof.
  destruct (translateHooks_gating hooks_only ∅
              (createContext [lit "home"; lit ".cursor"]) (lit "ecc"))
    as [_ H].
  destruct H as (_ & _ & _ & Hsome & Hres); [by vm_compute|].
  destruct (proj2 Hsome) as [[tgt' w] Heq].
  - split; [apply mkdir_p_empty|]. intros r _. by rewrite lookup_empty.
  - exists tgt'. rewrite Heq. by destruct (Hres _ _ Heq) as [-> _].
Defined.

(** ** Dry runs (lib/translators) *)

(** A loop whose body, run dry, leaves the tree alone and records what the
    real body records, does so as a whole. *)
Lemma for_each_dry {A}
    (real dry : gmap (list (list N)) Fs.node * list (list N) → A
                → option (gmap (list (list N)) Fs.node * list (list N)))
    (xs : list A) :
  (∀ st x st1, real st x = Some st1 →
               ∀ t, dry (t, st.2) x = Some (t, st1.2)) →
  ∀ st stf, for_each real xs st = Some stf →
            ∀ t, for_each dry xs (t, st.2) = Some (t, stf.2).
Proof.
  intros Hbody. induction xs as [|x xs IH]; intros st stf; simpl.
  - by intros [= <-].
  - destruct (real st x) as [st1|] eqn:Hr; [|done]. simpl.
    intros Hrest t. rewrite (Hbody _ _ _ Hr). simpl.
    by apply (IH st1).
Qed.

(** A loop whose body never changes the tree does not change it. *)
Lemma for_each_frame {A}
    (body : gmap (list (list N)) Fs.node * list (list N) → A
            → option (gmap (list (list N)) Fs.node * list (list N)))
    (xs : list A) :
  (∀ st x st1, body st x = Some st1 → st1.1 = st.1) →
  ∀ st stf, for_each body xs st = Some stf → stf.1 = st.1.
Proof.
  intros Hbody. induction xs as [|x xs IH]; intros st stf; simpl.
  - by intros [= <-].
  - destruct (body st x) as [st1|] eqn:Hb; [|done]. simpl.
    intros Hrest%IH. rewrite Hrest. by eapply Hbody.
Qed.

Section dry_run.
Variable prefixRewrite : list N → list N → list N.
Variable stripSections : list N → list N → list N.
Variable extractTitle : list N → list N.
Variable inferDescription : list N → list N.

(** [translateHooks]: a dry run changes nothing and reports what the real
    run reports. *)
Lemma translateHooks_dry_run (src tgt tgt' : gmap (list (list N)) Fs.node)
    ctx prefix written :
  translateHooks src tgt ctx prefix false = Some (tgt', written) →
  translateHooks src tgt ctx prefix true = Some (tgt, written).
Proof using Type.
  rewrite !translateHooks_unfold.
  destruct (Fs.existsSync src _); [|by intros [= <- <-]].
  destruct (Fs.mkdir_p tgt _) as [t0|]; [|done]. cbn [mbind option_bind].
  intros Hreal.
  apply (for_each_dry _ (hook_step (hook_rules_dir ctx prefix) prefix true))
    with (t := tgt) in Hreal; [done|].
  intros [t acc] r st1. unfold hook_step. cbn [fst snd].
  destruct (Fs.writeFile _ _ _); [|done]. by intros [= <-].
Qed.

(** X23. [translateCommands]: a dry run changes nothing and reports what
    the real run reports. *)
Lemma translateCommands_dry_run
    (src tgt tgt' : gmap (list (list N)) Fs.node) ctx prefix written :
  translateCommands prefixRewrite stripSections extractTitle
    inferDescription src tgt ctx prefix false = Some (tgt', written) →
  translateCommands prefixRewrite stripSections extractTitle
    inferDescription src tgt ctx prefix true = Some (tgt, written).
Proof using Type.
  unfold translateCommands.
  destruct (Fs.readdir src _) as [entries|]; [|by intros [= <- <-]].
  destruct (Fs.mkdir_p tgt _) as [t0|]; [|done]. cbn [mbind option_bind].
  intros Hreal.
  eapply (for_each_dry _ _ _ _ (t0, []) (tgt', written) Hreal tgt).
  Unshelve.
  intros [t acc] file st1. cbn [fst snd].
  destruct (bool_decide _); [by intros [= <-]|].
  destruct (Fs.readFile src _) as [raw|]; [|done]. cbn [mbind option_bind].
  destruct (Fs.mkdir_p t _) as [t1|]; [|done]. cbn [mbind option_bind].
  destruct (Fs.writeFile t1 _ _) as [t2|]; [|done]. cbn [mbind option_bind].
  destruct (Fs.writeFile t2 _ _) as [t3|]; [|done]. cbn [mbind option_bind].
  by intros [= <-].
Qed.

(** X24. [translateAgents]: a dry run reports what the real run reports,
    but where the source has an [agents] directory it leaves the tree that
    [mkdir] on the target directory of the agents leaves. *)
Lemma translateAgents_dry_run
    (src tgt tgt' : gmap (list (list N)) Fs.node) ctx prefix written :
  translateAgents prefixRewrite stripSections src tgt ctx prefix false
    = Some (tgt', written) →
  translateAgents prefixRewrite stripSections src tgt ctx prefix true
    = Some (match Fs.readdir src [SRC_AGENTS] with
            | Some _ => default tgt (Fs.mkdir_p tgt (agentsDir ctx))
            | None => tgt
            end, written).
Proof using Type.
  unfold translateAgents.
  change (Fs.join [] [SRC_AGENTS]) with [SRC_AGENTS].
  destruct (Fs.readdir src _) as [entries|]; [|by intros [= <- <-]].
  destruct (Fs.mkdir_p tgt _) as [t0|]; [|done]. cbn [mbind option_bind].
  intros Hreal.
  eapply (for_each_dry _ _ _ _ (t0, []) (tgt', written) Hreal t0).
  Unshelve.
  intros [t acc] file st1. cbn [fst snd].
  destruct (bool_decide _); [by intros [= <-]|].
  destruct (Fs.readFile src _) as [raw|]; [|done]. cbn [mbind option_bind].
  destruct (Fs.writeFile t _ _) as [t1|]; [|done]. cbn [mbind option_bind].
  by intros [= <-].
Qed.

(** The dry run on the sample tree with one agent: past [mkdir], the loop
    records the path of the agent and leaves the tree alone. *)
Lemma one_agent_dry_run (tgt t0 : gmap (list (list N)) Fs.node) :
  let ctx := createContext [lit "home"; lit ".cursor"] in
  Fs.mkdir_p tgt (agentsDir ctx) = Some t0 →
  translateAgents prefixRewrite stripSections one_agent tgt ctx (lit "ecc") true
  = Some (t0, [lit "agents/ecc-planner.md"]).
Proof using Type.
  intros ctx Hmk. unfold translateAgents. rewrite Hmk.
  cbn [mbind option_bind]. by vm_compute.
Qed.

(** C10, where the code fails it: on a target that does not exist yet, the
    dry run of [translateAgents] reports the one path that a real run would
    write and writes no file, but it creates the directory of the agents
    and the directories above it. *)
Theorem translateAgents_dry_run_creates_directories :
  let ctx := createContext [lit "home"; lit ".cursor"] in
  translateAgents prefixRewrite stripSections one_agent ∅ ctx (lit "ecc") true
  = Some (<[ [lit "home"; lit ".cursor"; lit "agents"] := Fs.Dir ]>
            (<[ [lit "home"; lit ".cursor"] := Fs.Dir ]>
               (<[ [lit "home"] := Fs.Dir ]> ∅)),
          [lit "agents/ecc-planner.md"]) ∧
  Fs.existsSync ∅ (agentsDir ctx) = false.
Proof using Type.
  intros ctx. split; [|done].
  apply one_agent_dry_run.
  change (agentsDir (createContext [lit "home"; lit ".cursor"]))
    with [lit "home"; lit ".cursor"; lit "agents"].
  unfold Fs.mkdir_p. cbn [Fs.mkdir_from app].
  rewrite lookup_empty.
  rewrite !lookup_insert_ne by (by intros [=]).
  by rewrite lookup_empty.
Qed.
End dry_run.

(** ** The registry merge (lib/translators/mcp.ts) *)

Lemma has_server_false servers k v :
  has_server servers k = false → Obj.get servers k = Some v →
  value_truthy v = false.
Proof. unfold has_server. intros Hh Hk. by rewrite Hk in Hh. Qed.

(** One step of the merge counts the candidate once and keeps every key of
    the registry; the value of a key changes only where it is falsy and
    the candidate bears the name of the key. *)
Lemma install_one_spec dryRun servers a s server :
  let '(servers', a', s') := install_one dryRun (servers, a, s) server in
  (a' + s' = S (a + s))%nat ∧
  ∀ k v, Obj.get servers k = Some v →
    Obj.get servers' k = Some v ∨
    (value_truthy v = false ∧ name server = k ∧
     Obj.get servers' k = Some (VObj (cleanConfig (config server)))).
Proof.
  unfold install_one. destruct (has_server servers (name server)) eqn:Hh.
  - split; [lia | by left].
  - split; [lia|]. intros k v Hk. destruct dryRun; [by left|].
    rewrite obj_get_set. destruct (decide (name server = k)) as [<-|];
      [|by left].
    right. split; [|done]. by apply (has_server_false servers (name server)).
Qed.

Lemma install_all_from dryRun toInstall servers a s :
  let '(servers', a', s') :=
    foldl (install_one dryRun) (servers, a, s) toInstall in
  (a' + s' = a + s + length toInstall)%nat ∧
  ∀ k v, Obj.get servers k = Some v →
    Obj.get servers' k = Some v ∨
    (value_truthy v = false ∧
     ∃ x, x ∈ toInstall ∧ name x = k ∧
          Obj.get servers' k = Some (VObj (cleanConfig (config x)))).
Proof.
  revert servers a s. induction toInstall as [|x l IH]; intros servers a s.
  - simpl. split; [lia | by left].
  - cbn [foldl]. pose proof (install_one_spec dryRun servers a s x) as H1.
    destruct (install_one dryRun (servers, a, s) x) as [[servers1 a1] s1].
    destruct H1 as [Hc1 Hk1]. specialize (IH servers1 a1 s1).
    destruct (foldl _ _ l) as [[servers2 a2] s2]. destruct IH as [Hc2 Hk2].
    split; [simpl; lia|]. intros k v Hk.
    destruct (Hk1 k v Hk) as [Hsame|(Hfalsy & Hname & Hnew)].
    + destruct (Hk2 k v Hsame) as [?|(? & y & ? & ? & ?)]; [by left|].
      right. split; [done|]. exists y. split; [by right | done].
    + right. split; [done|]. exists x. split; [by left|]. split; [done|].
      by destruct (Hk2 k _ Hnew) as [?|([=] & _)].
Qed.

Lemma install_all_spec dryRun toInstall servers :
  let '(servers', a', s') := install_all dryRun toInstall servers in
  (a' + s' = length toInstall)%nat ∧
  ∀ k v, Obj.get servers k = Some v →
    Obj.get servers' k = Some v ∨
    (value_truthy v = false ∧
     ∃ x, x ∈ toInstall ∧ name x = k ∧
          Obj.get servers' k = Some (VObj (cleanConfig (config x)))).
Proof. apply (install_all_from dryRun toInstall servers 0 0). Qed.

Section merge.
Variable JSON_parse : list N → option McpFile.
Variable JSON_stringify : McpConfig → list N.
Variable JSON_stringify_server : value → list N.

(** The ways in which [translateMcp] returns: nothing to install, or the
    loop over the resolved candidates followed by at most one write. *)
Lemma translateMcp_returns (src tgt tgt' : gmap (list (list N)) Fs.node)
    (ctx : TargetContext) (dryRun : bool) (selection : McpSelection)
    (result : McpResult) :
  translateMcp JSON_parse JSON_stringify JSON_stringify_server
    src tgt ctx dryRun selection = Some (tgt', result) →
  ∃ available,
    getAvailableServers JSON_parse JSON_stringify_server src
      = Some available ∧
    let registry := readMcpConfig JSON_parse tgt (mcpFile ctx) in
    let toInstall := resolveSelectedServers available selection in
    (toInstall = [] ∧ tgt' = tgt ∧ result = mkMcpResult 0 0 selection) ∨
    ∃ servers a s,
      install_all dryRun toInstall (mcpServers registry) = (servers, a, s) ∧
      result = mkMcpResult a s selection ∧
      (if negb dryRun && (0 <? a)%nat
       then writeMcpConfig JSON_stringify tgt (mcpFile ctx)
              (mkMcpConfig servers (otherFields registry))
       else Some tgt) = Some tgt'.
Proof using Type.
  unfold translateMcp.
  destruct (getAvailableServers _ _ src) as [available|]; [|done].
  cbn [mbind option_bind]. intros Hrun. exists available. split; [done|].
  cbv zeta. destruct available as [|a0 available].
  { injection Hrun as <- <-. left. by destruct selection. }
  set (av := a0 :: available) in *.
  set (registry := readMcpConfig JSON_parse tgt (mcpFile ctx)) in *.
  destruct selection as [| |names].
  - injection Hrun as <- <-. by left.
  - right.
    destruct (install_all dryRun _ _) as [[servers a] s].
    exists servers, a, s. split; [done|].
    destruct (if negb dryRun && (0 <? a)%nat then _ else _) as [t1|];
      [|done].
    by injection Hrun as <- <-.
  - right.
    destruct (install_all dryRun _ _) as [[servers a] s].
    exists servers, a, s. split; [done|].
    destruct (if negb dryRun && (0 <? a)%nat then _ else _) as [t1|];
      [|done].
    by injection Hrun as <- <-.
Qed.



(** With an engine that reads back what it has written, the registry read
    from the target after the merge holds every server definition that the
    registry read before held, with the same value. *)
Lemma translateMcp_registry_kept
    (src tgt tgt' : gmap (list (list N)) Fs.node) ctx dryRun selection result :
  (∀ c, JSON_parse (JSON_stringify c ++ [NL])
        = Some (mkMcpFile (Some (mcpServers c)) (otherFields c))) →
  translateMcp JSON_parse JSON_stringify JSON_stringify_server
    src tgt ctx dryRun selection = Some (tgt', result) →
  ∀ k v,
    Obj.get (mcpServers (readMcpConfig JSON_parse tgt (mcpFile ctx))) k
      = Some v →
    value_truthy v = true →
    Obj.get (mcpServers (readMcpConfig JSON_parse tgt' (mcpFile ctx))) k
      = Some v.
Proof using Type.
  intros Hrt (available & _ & Hcases)%translateMcp_returns k v Hk Ht.
  cbv zeta in Hcases.
  destruct Hcases as [(_ & -> & _)|(servers & a & s & Hall & _ & Hw)];
    [done|].
  destruct (negb dryRun && (0 <? a)%nat); [|congruence].
  pose proof (install_all_spec dryRun
                (resolveSelectedServers available selection)
                (mcpServers (readMcpConfig JSON_parse tgt (mcpFile ctx))))
    as Hspec.
  rewrite Hall in Hspec. destruct Hspec as [_ Hkept].
  destruct (Hkept k v Hk) as [Hk'|(Hf & _)]; [|congruence].
  unfold writeMcpConfig in Hw.
  apply writeFile_Some in Hw as Hw'.
  revert Hw'. generalize (mcpFile ctx). intros p Hw'.
  destruct p as [|c p]; [naive_solver|].
  assert (tgt' !! (c :: p) = Some (Fs.File
            (JSON_stringify (mkMcpConfig servers
               (otherFields (readMcpConfig JSON_parse tgt (c :: p)))) ++ [NL])))
    as Hl.
  { destruct Hw' as (_ & _ & _ & ->) || idtac. by rewrite lookup_insert_eq. }
  unfold readMcpConfig at 1, Fs.existsSync, Fs.readFile, Fs.lookup_node.
  rewrite Hl. cbn [negb mbind option_bind]. by rewrite Hrt.
Qed.
End merge.

(** The merge on the sample trees: one server is there, one is added. *)
Lemma sample_merge :
  translateMcp sample_parse sample_stringify sample_stringify_server
    sample_source sample_target (createContext [lit "home"; lit ".cursor"])
    false SelAll
  = Some (<[ [lit "home"; lit ".cursor"; lit "mcp.json"]
               := Fs.File (lit "MERGED" ++ [NL]) ]> sample_target,
          mkMcpResult 1 1 SelAll).
Proof.
  unfold translateMcp.
  assert (getAvailableServers sample_parse sample_stringify_server
            sample_source
          = Some [mkAvailableServer (lit "memory") (lit "Persistent memory")
                    (VObj server_memory);
                  mkAvailableServer (lit "time") [] (VObj server_time)]) as ->
    by (by vm_compute).
  cbn [mbind option_bind resolveSelectedServers].
  change (mcpFile (createContext [lit "home"; lit ".cursor"]))
    with [lit "home"; lit ".cursor"; lit "mcp.json"].
  assert (readMcpConfig sample_parse sample_target
            [lit "home"; lit ".cursor"; lit "mcp.json"]
          = mkMcpConfig [(lit "memory", VObj server_memory_installed)] [])
    as -> by (by vm_compute).
  assert (install_all false
            [mkAvailableServer (lit "memory") (lit "Persistent memory")
               (VObj server_memory);
             mkAvailableServer (lit "time") [] (VObj server_time)]
            (mcpServers
               (mkMcpConfig [(lit "memory", VObj server_memory_installed)] []))
          = ([(lit "memory", VObj server_memory_installed);
              (lit "time", VObj (cleanConfig (VObj server_time)))],
             1%nat, 1%nat)) as ->
    by (by vm_compute).
  cbn [negb andb Nat.ltb Nat.leb mbind option_bind].
  unfold writeMcpConfig, sample_stringify.
  assert (Fs.writeFile sample_target [lit "home"; lit ".cursor"; lit "mcp.json"]
            (lit "MERGED" ++ [NL])
          = Some (<[ [lit "home"; lit ".cursor"; lit "mcp.json"]
               := Fs.File (lit "MERGED" ++ [NL]) ]> sample_target)) as ->; [|done].
  apply writeFile_Some. split; [done|]. split; [by vm_compute|].
  split; [|done]. unfold sample_target. by rewrite lookup_insert_eq.
Qed.


(** * Part III: further properties of the code *)

(** ** The clean-up of blank lines, continued (lib/transform.ts) *)

Lemma drop_takeWhile (f : N → bool) s :
  drop (length (takeWhile f s)) s = dropWhile f s.
Proof.
  induction s as [|c s IH]; [done|]. simpl. by destruct (f c).
Qed.

Lemma takeWhile_dropWhile (f : N → bool) s : takeWhile f (dropWhile f s) = [].
Proof.
  induction s as [|c s IH]; [done|]. simpl.
  destruct (f c) eqn:E; [done|]. simpl. by rewrite E.
Qed.

Lemma leading_newlines_cons c s :
  leading_newlines (c :: s)
  = if c =? NL then S (leading_newlines s) else 0%nat.
Proof. unfold leading_newlines. simpl. by destruct (c =? NL). Qed.

Lemma newlines_at_least_Some k prev s n :
  Re.newlines_at_least k prev s = Some n ↔
  n = leading_newlines s ∧ (k ≤ n)%nat.
Proof.
  unfold Re.newlines_at_least, leading_newlines.
  destruct (k <=? _)%nat eqn:E.
  - apply Nat.leb_le in E. split; [by intros [= <-]|]. by intros [-> _].
  - apply Nat.leb_gt in E. split; [done|]. intros [-> ?]. lia.
Qed.

Lemma newlines_at_least_None k prev s :
  Re.newlines_at_least k prev s = None ↔ (leading_newlines s < k)%nat.
Proof.
  unfold Re.newlines_at_least, leading_newlines.
  destruct (k <=? _)%nat eqn:E.
  - apply Nat.leb_le in E. split; [done | lia].
  - apply Nat.leb_gt in E. done.
Qed.

(** What the clean-up leaves: as many line feeds at the start as there
    were, two at most, and nowhere more than two in a row. *)
Lemma collapse_runs s :
  let out := collapseBlankLines s in
  leading_newlines out = (leading_newlines s `min` 2)%nat ∧
  ∀ a b, out = a ++ b → (leading_newlines b ≤ 2)%nat.
Proof.
  unfold collapseBlankLines, Re.replace_global. generalize (@None N).
  intros prev. cbv zeta.
  apply (replace_from_ind (Re.newlines_at_least 3) [NL; NL]
           (λ _ s out,
              leading_newlines out = (leading_newlines s `min` 2)%nat ∧
              ∀ a b, out = a ++ b → (leading_newlines b ≤ 2)%nat)).
  - intros _. split; [done|]. intros a b Hab. symmetry in Hab.
    apply app_eq_nil in Hab as [-> ->]. unfold leading_newlines. simpl. lia.
  - intros prev0 c s' Hm [IH1 IH2].
    assert (leading_newlines (c :: s') < 3)%nat as Hlt.
    { destruct Hm as [Hm|Hm]; [by apply newlines_at_least_None in Hm|].
      apply newlines_at_least_Some in Hm. lia. }
    assert (leading_newlines
              (c :: Re.replace_from (Re.newlines_at_least 3) [NL; NL] 0
                      (Some c) s')
            = (leading_newlines (c :: s') `min` 2)%nat) as Hlead.
    { rewrite leading_newlines_cons in Hlt. rewrite !leading_newlines_cons.
      destruct (c =? NL); [|done]. rewrite IH1. lia. }
    split; [done|]. intros [|c' a] b; simpl.
    + intros <-. rewrite Hlead. lia.
    + intros [= _ ?]. by eapply IH2.
  - intros prev0 c s' n Hm prev' s'' [IH1 IH2].
    apply newlines_at_least_Some in Hm as [Hn Hge].
    assert (leading_newlines s'' = 0%nat) as Hs''.
    { unfold s''. rewrite Hn. unfold leading_newlines.
      by rewrite drop_takeWhile, takeWhile_dropWhile. }
    rewrite Hs'' in IH1. change (0 `min` 2)%nat with 0%nat in IH1.
    split.
    + rewrite <- Hn. change ([NL; NL] ++ ?t) with (NL :: NL :: t).
      rewrite !leading_newlines_cons. change (NL =? NL) with true.
      cbv iota. rewrite IH1. lia.
    + intros [|c1 [|c2 a]] b; simpl.
      * intros <-. rewrite !leading_newlines_cons. change (NL =? NL) with true.
        cbv iota. rewrite IH1. lia.
      * intros [= _ <-]. rewrite !leading_newlines_cons.
        change (NL =? NL) with true. cbv iota. rewrite IH1. lia.
      * intros [= _ _ ?]. by eapply IH2.
Qed.

Lemma test_false (f : list N → bool) s :
  (∀ a b, s = a ++ b → f b = false) → test f s = false.
Proof.
  induction s as [|c s IH]; intros Hf; simpl.
  - rewrite (Hf [] []) by done. done.
  - rewrite (Hf [] (c :: s)) by done. simpl. apply IH.
    intros a b ->. by apply (Hf (c :: a) b).
Qed.

Lemma startsWith_newlines j b :
  startsWith (replicate j NL) b = true → (j ≤ leading_newlines b)%nat.
Proof.
  revert b. induction j as [|j IH]; intros b; [lia|].
  destruct b as [|c b]; [done|]. cbn [startsWith replicate].
  intros [Hc Hb]%andb_true_iff. rewrite leading_newlines_cons.
  rewrite N.eqb_sym in Hc. rewrite Hc. apply IH in Hb. lia.
Qed.

(** X1. The text that the clean-up of blank lines returns holds no three
    line feeds in a row, and cleaning it up again changes nothing. *)
Theorem collapseBlankLines_settled (s : list N) :
  includes (replicate 3 NL) (collapseBlankLines s) = false ∧
  collapseBlankLines (collapseBlankLines s) = collapseBlankLines s.
Proof.
  destruct (collapse_runs s) as [_ Hruns]. split.
  - apply test_false. intros a b Hab.
    destruct (startsWith (replicate 3 NL) b) eqn:E; [|done].
    apply startsWith_newlines in E. apply Hruns in Hab. lia.
  - unfold collapseBlankLines at 1. unfold Re.replace_global.
    apply replace_from_id. intros (a & b & Hab & [n Hn]).
    apply newlines_at_least_Some in Hn as [-> Hn].
    apply Hruns in Hab. lia.
Qed.

(** X2. The clean-up of blank lines removes line feeds and nothing else:
    what is left when the line feeds are taken out is the same before and
    after, and the text does not grow. *)
Theorem collapseBlankLines_keeps_text (s : list N) :
  filter (λ c, c ≠ NL) (collapseBlankLines s) = filter (λ c, c ≠ NL) s ∧
  (length (collapseBlankLines s) ≤ length s)%nat.
Proof.
  unfold collapseBlankLines, Re.replace_global. generalize (@None N).
  intros prev.
  apply (replace_from_ind (Re.newlines_at_least 3) [NL; NL]
           (λ _ s out,
              filter (λ c, c ≠ NL) out = filter (λ c, c ≠ NL) s ∧
              (length out ≤ length s)%nat)).
  - done.
  - intros _ c s' _ [IH1 IH2]. split; [|simpl; lia].
    rewrite !filter_cons. by rewrite IH1.
  - intros prev0 c s' n Hm prev' s'' [IH1 IH2].
    apply newlines_at_least_Some in Hm as [Hn Hge].
    assert (c :: s' = replicate (S n) NL ++ s'') as Hsplit.
    { unfold s''. rewrite Hn. unfold leading_newlines.
      rewrite drop_takeWhile.
      rewrite (proj1 (dropWhile_spec (λ c, c =? NL) (c :: s'))) at 1.
      f_equal. generalize (takeWhile_Forall (λ c, c =? NL) (c :: s')).
      generalize (takeWhile (λ c, c =? NL) (c :: s')).
      intros l Hl. induction Hl as [|x l Hx%N.eqb_eq _ IH]; [done|].
      subst x. cbn [length replicate]. by rewrite <- IH. }
    rewrite Hsplit. split.
    + rewrite !filter_app, IH1. f_equal.
      clear. induction (S n) as [|j IH]; [done|]. simpl.
      rewrite filter_cons_False by (by intros []). done.
    + rewrite !length_app, length_replicate. simpl. lia.
Qed.

(** ** The static rules, continued (lib/constants.ts) *)

Lemma includes_false p s : ¬ occurs p s → includes p s = false.
Proof.
  intros Hocc. apply test_false. intros a b ->.
  destruct (startsWith p b) eqn:E; [|done].
  apply startsWith_prefix in E as [k ->]. destruct Hocc. by exists a, k.
Qed.

(** The clean-up of blank lines takes line feeds out of runs of line feeds:
    a text without a line feed that occurs behind it occurred before. *)
Lemma collapse_occurs p s :
  p ≠ [] → (NL ∉ p) → occurs p (collapseBlankLines s) → occurs p s.
Proof.
  intros Hp Hnl. unfold collapseBlankLines, Re.replace_global.
  generalize (@None N). intros prev.
  enough ((∀ q b, (NL ∉ q) →
             Re.replace_from (Re.newlines_at_least 3) [NL; NL] 0 prev s
               = q ++ b → ∃ b', s = q ++ b') ∧
          (occurs p (Re.replace_from (Re.newlines_at_least 3) [NL; NL] 0
                       prev s) → occurs p s)) as [_ H]; [done|].
  apply (replace_from_ind (Re.newlines_at_least 3) [NL; NL]
           (λ _ s out,
              (∀ q b, (NL ∉ q) → out = q ++ b → ∃ b', s = q ++ b') ∧
              (occurs p out → occurs p s))).
  - intros _. split.
    + intros q b _ Hqb. symmetry in Hqb.
      apply app_eq_nil in Hqb as [-> _]. by exists [].
    + done.
  - intros _ c s' _ [IH1 IH2].
    assert (∀ q b, (NL ∉ q) →
              c :: Re.replace_from (Re.newlines_at_least 3) [NL; NL] 0
                     (Some c) s' = q ++ b →
              ∃ b', c :: s' = q ++ b') as Hpre.
    { intros [|c' q] b Hq; [by exists (c :: s')|].
      intros [= <- Hout]. apply not_elem_of_cons in Hq as [_ Hq].
      destruct (IH1 q b Hq Hout) as [b' ->]. by exists b'. }
    split; [done|]. intros ([|c' a] & b & Hab).
    + destruct (Hpre p b Hnl Hab) as [b' ->]. by exists [], b'.
    + injection Hab as <- Hab.
      destruct IH2 as (a1 & b1 & ->); [by exists a, b|].
      by exists (c :: a1), b1.
  - intros prev0 c s' n _ prev' s'' [IH1 IH2]. split.
    + intros [|c' q] b Hq; [by exists (c :: s')|].
      intros [= <- _]. destruct Hq. by left.
    + destruct p as [|c0 p0]; [done|].
      apply not_elem_of_cons in Hnl as [Hc0 _].
      intros ([|c1 [|c2 a]] & b & Hab).
      * by injection Hab as <- _.
      * by injection Hab as _ <- _.
      * injection Hab as _ _ Hab.
        destruct IH2 as (a1 & b1 & Hs''); [by exists a, b|].
        exists (take (S n) (c :: s') ++ a1), b1.
        rewrite <- (assoc_L (++)), <- Hs''. unfold s''.
        by rewrite take_drop.
Qed.

Section rewritten.
Variable prefixRewrite : list N → list N → list N.
Variable stripSections : list N → list N → list N.

(** X3. Whatever the rules that depend on the prefix do, the text that
    [transformContent] returns holds none of the terms that the static
    rules replace without regard to word boundaries: neither the path of
    the settings directory of Claude, nor the name of its configuration
    file, nor its product name. *)
Theorem transformContent_terms_gone
    (content prefix : list N) (sourcePath : option (list N)) :
  let result :=
    transformContent prefixRewrite stripSections content prefix sourcePath in
  includes (lit "~/.claude/") result = false ∧
  includes (lit "CLAUDE.md") result = false ∧
  includes (lit "Claude Code") result = false.
Proof using Type.
  unfold transformContent. cbv zeta.
  set (x := prefixRewrite prefix _).
  assert (∀ i p r,
            unquoted_rules !! i = Some (mkLiteralRule false p r) →
            p ≠ [] → (NL ∉ p) →
            includes p (collapseBlankLines (applyStatic x)) = false)
    as Hgone.
  { intros i p r Hi Hp Hnl. apply includes_false.
    intros Hocc%collapse_occurs; [|done..].
    revert Hocc. apply (quiet_quoted p r); [done|].
    pose proof (unquoted_quiet x) as Hq. rewrite Forall_forall in Hq.
    apply Hq. by eapply list_elem_of_lookup_2. }
  split; [|split].
  - apply (Hgone 0%nat _ (lit "~/.cursor/")); [done..|].
    apply (bool_decide_unpack _). by vm_compute.
  - apply (Hgone 1%nat _ (lit "project configuration")); [done..|].
    apply (bool_decide_unpack _). by vm_compute.
  - apply (Hgone 3%nat _ (lit "Cursor")); [done..|].
    apply (bool_decide_unpack _). by vm_compute.
Qed.
End rewritten.

(** ** The header codec, continued (lib/transform.ts) *)

Lemma elem_of_trim x s : x ∈ trim s → x ∈ s.
Proof.
  unfold trim, trimStart. intros Hin.
  destruct (trimEnd_spec (dropWhile is_space s)) as (b & Hb & _).
  rewrite (proj1 (dropWhile_spec is_space s)), Hb.
  rewrite !elem_of_app. auto.
Qed.

Lemma elem_of_unquote x s : x ∈ unquote s → x ∈ s.
Proof.
  unfold unquote, slice_1_m1. destruct (_ || _); [|done].
  intros Hin%subseteq_take. revert Hin. apply subseteq_drop.
Qed.

(** No line feed is left where every run of line feeds is replaced. *)
Lemma replace_newlines_none rep s :
  (NL ∉ rep) →
  NL ∉ Re.replace_global (Re.newlines_at_least 1) rep s.
Proof.
  intros Hrep. unfold Re.replace_global. generalize (@None N). intros prev.
  apply (replace_from_ind (Re.newlines_at_least 1) rep
           (λ _ _ out, NL ∉ out)).
  - intros _. apply not_elem_of_nil.
  - intros prev0 c s' Hm IH. apply not_elem_of_cons. split; [|done].
    intros <-. destruct Hm as [Hm|Hm].
    + apply newlines_at_least_None in Hm.
      rewrite leading_newlines_cons in Hm. change (NL =? NL) with true in Hm.
      cbv iota in Hm. lia.
    + apply newlines_at_least_Some in Hm. lia.
  - intros prev0 c s' n _ prev' s'' IH. rewrite elem_of_app. tauto.
Qed.

Lemma render_one_line v : NL ∉ render v.
Proof.
  destruct v as [value|[|]]; simpl.
  - intros Hin%elem_of_trim. revert Hin. apply replace_newlines_none.
    apply (bool_decide_unpack _). by vm_compute.
  - apply (bool_decide_unpack _). by vm_compute.
  - apply (bool_decide_unpack _). by vm_compute.
Qed.

Lemma field_line_one_line kv : (NL ∉ kv.1) → NL ∉ field_line kv.
Proof.
  intros Hk. rewrite field_line_render, !elem_of_app.
  intros [?|[Hin|Hin]]; [done| |by apply render_one_line in Hin].
  revert Hin. apply (bool_decide_unpack _). by vm_compute.
Qed.

(** X4. [buildFrontmatter] writes one line per field between two lines of
    three dashes, whatever line feeds the values hold: a value of several
    lines is written on one. *)
Theorem buildFrontmatter_lines (H : list (list N * field)) :
  Forall (λ kv, NL ∉ kv.1) H →
  split NL (buildFrontmatter H)
  = [lit "---"] ++ (field_line <$> H) ++ [lit "---"].
Proof.
  intros Hkeys. unfold buildFrontmatter. apply split_join; [done|].
  rewrite !Forall_app. split; [|split].
  - constructor; [|done]. apply (bool_decide_unpack _). by vm_compute.
  - apply Forall_fmap. eapply Forall_impl; [exact Hkeys|].
    intros kv Hk. by apply field_line_one_line.
  - constructor; [|done]. apply (bool_decide_unpack _). by vm_compute.
Qed.

Lemma buildFrontmatter_lines_witness :
  split NL (buildFrontmatter
              [ (lit "name", FString (lit "ecc-planner"));
                (lit "description",
                 FString (lit "Plans." ++ [NL; NL] ++ lit "Waits.")) ])
  = [lit "---"]
    ++ (field_line <$>
          [ (lit "name", FString (lit "ecc-planner"));
            (lit "description",
             FString (lit "Plans." ++ [NL; NL] ++ lit "Waits.")) ])
    ++ [lit "---"].
Proof.
  apply (buildFrontmatter_lines
           [ (lit "name", FString (lit "ecc-planner"));
             (lit "description",
              FString (lit "Plans." ++ [NL; NL] ++ lit "Waits.")) ]).
  repeat constructor; apply (bool_decide_unpack _); by vm_compute.
Defined.

(** A written header with a text behind it: the parser finds the header,
    and what follows it without the white space at its start. *)
Lemma match_frontmatter_document kv H rest :
  Forall (λ kv, is_header_key kv.1 = true
                ∧ no_line_terminator (render kv.2) = true) (kv :: H) →
  match_frontmatter (buildFrontmatter (kv :: H) ++ rest)
  = Some (join [NL] (field_line <$> kv :: H), dropWhile is_space rest).
Proof.
  intros Hall. rewrite buildFrontmatter_shape.
  set (lines := field_line <$> kv :: H).
  assert (Forall (λ l, (NL ∉ l) ∧ ∃ c l', l = c :: l' ∧ is_word c = true) lines)
    as Hlines.
  { apply Forall_fmap. eapply Forall_impl; [exact Hall|].
    intros kv' [? ?]. by apply field_line_ok. }
  assert (∃ c J, join [NL] lines = c :: J ∧ is_word c = true)
    as (c & J & HJ & Hc).
  { subst lines. rewrite fmap_cons in *.
    apply Forall_cons in Hlines as [(_ & c & l' & Hl & Hc) _].
    rewrite Hl, join_head. eauto. }
  rewrite <- !(assoc_L (++)).
  unfold match_frontmatter. rewrite startsWith_app.
  rewrite (drop_app_length' (lit "---") _ 3) by done.
  assert (match_close (join [NL] lines ++ CLOSING ++ rest)
          = Some (join [NL] lines, dropWhile is_space rest)) as Hclose.
  { unfold match_close. rewrite indexOf_join_lines.
    - cbn [mbind option_bind]. rewrite take_app_length.
      rewrite (assoc_L (++)).
      rewrite drop_app_length'; [done|].
      rewrite length_app. change (length CLOSING) with 4%nat. lia.
    - by subst lines.
    - eapply Forall_impl; [exact Hlines|]. intros l (? & c' & l' & ? & ?).
      split; [done|]. exists c', l'. split; [done|]. by apply word_not_dash. }
  rewrite HJ in *.
  change ([NL] ++ (c :: J) ++ CLOSING ++ rest)
    with (NL :: c :: J ++ CLOSING ++ rest).
  cbn [takeWhile]. change (is_space NL) with true. cbv iota.
  rewrite (word_not_space c Hc). cbn [length match_open lookup list_lookup].
  rewrite (word_not_NL c Hc). rewrite N.eqb_refl.
  change (drop 1 (NL :: c :: J ++ CLOSING ++ rest))
    with ((c :: J) ++ CLOSING ++ rest).
  by rewrite Hclose.
Qed.

(** Reading a key of an object to which distinct keys were assigned in
    turn. *)
Lemma foldl_set_get {V W} (g : W → V) (H : list (list N * W))
    (acc : list (list N * V)) k :
  NoDup H.*1 →
  Obj.get (foldl (λ fm kv, Obj.set fm kv.1 (g kv.2)) acc H) k
  = match Obj.get H k with
    | Some w => Some (g w)
    | None => Obj.get acc k
    end.
Proof.
  revert acc. induction H as [|[k0 w0] H IH]; intros acc Hnd; [done|].
  rewrite fmap_cons in Hnd. apply NoDup_cons in Hnd as [Hk0 Hnd].
  cbn [foldl Obj.get fst snd]. rewrite IH by done. rewrite obj_get_set.
  destruct (decide (k0 = k)) as [<-|Hne]; [|done].
  cbn [fst] in Hk0. apply obj_get_None in Hk0. by rewrite Hk0.
Qed.

(** X5. A document as the translators write it, a header of at least one
    field, a blank line and a text, is read back by [parseFrontmatter]:
    the header that it returns holds every key with its written value, the
    quotes around it dropped, and nothing else, so that reading a key
    yields the value written for it; the body is the text without the
    white space at its start. *)
Theorem parseFrontmatter_document (H : list (list N * field)) (text : list N) :
  H ≠ [] → NoDup H.*1 →
  Forall (λ kv, is_header_key kv.1 = true
                ∧ no_line_terminator (render kv.2) = true) H →
  let doc := parseFrontmatter (buildFrontmatter H ++ [NL; NL] ++ text) in
  frontmatter doc ≡ₚ (λ kv, (kv.1, unquote (render kv.2))) <$> H ∧
  (∀ k, Obj.get (frontmatter doc) k
        = (λ v, unquote (render v)) <$> Obj.get H k) ∧
  body doc = trimStart text.
Proof.
  intros Hne Hnd Hall. destruct H as [|kv H]; [done|]. cbv zeta.
  unfold parseFrontmatter. rewrite match_frontmatter_document by done.
  cbn [frontmatter body]. rewrite split_join.
  - assert (∀ l acc,
        Forall (λ kv, is_header_key kv.1 = true
                      ∧ no_line_terminator (render kv.2) = true) l →
        foldl parse_line acc (field_line <$> l)
        = foldl (λ fm kv, Obj.set fm kv.1 (unquote (render kv.2))) acc l)
      as Hfold.
    { induction l as [|kv' l IH]; intros acc Hl; [done|].
      apply Forall_cons in Hl as [[? ?] Hl]. rewrite fmap_cons. cbn [foldl].
      rewrite parse_line_field by done. by apply IH. }
    rewrite Hfold by done. split; [|split; [|done]].
    + by rewrite (foldl_set_fresh (λ v, unquote (render v)) _ []).
    + intros k.
      rewrite (foldl_set_get (λ v, unquote (render v)) (kv :: H) [] k Hnd).
      by destruct (Obj.get (kv :: H) k).
  - done.
  - apply Forall_fmap. eapply Forall_impl; [exact Hall|].
    intros kv' [? ?]. by apply field_line_ok.
Qed.

Lemma parseFrontmatter_document_witness :
  Obj.get
    (frontmatter
       (parseFrontmatter
          (buildFrontmatter
             [ (lit "name", FString (lit "ecc-planner"));
               (lit "description", FString (lit "Plans first.")) ]
           ++ [NL; NL] ++ lit "  # Planner")))
    (lit "description")
  = (λ v, unquote (render v)) <$>
      Obj.get [ (lit "name", FString (lit "ecc-planner"));
                (lit "description", FString (lit "Plans first.")) ]
              (lit "description").
Proof.
  apply (parseFrontmatter_document
           [ (lit "name", FString (lit "ecc-planner"));
             (lit "description", FString (lit "Plans first.")) ]
           (lit "  # Planner")).
  - done.
  - apply (bool_decide_unpack _). by vm_compute.
  - repeat constructor; by vm_compute.
Defined.

Lemma obj_set_NoDup {V} (o : list (list N * V)) k v :
  NoDup o.*1 → NoDup (Obj.set o k v).*1.
Proof.
  intros Hnd. unfold Obj.set. destruct (Obj.get o k) eqn:Hk.
  - by rewrite obj_replace_keys.
  - rewrite (fmap_Permutation fst _ _ (obj_create_Permutation o k v)).
    rewrite fmap_cons. apply NoDup_cons. split; [|done].
    by apply obj_get_None.
Qed.

Lemma obj_set_Forall {V} (P : list N * V → Prop) (o : list (list N * V)) k v :
  Forall P o → P (k, v) → Forall P (Obj.set o k v).
Proof.
  intros Ho Hkv. unfold Obj.set. destruct (Obj.get o k).
  - by apply obj_replace_Forall.
  - rewrite obj_create_Permutation. by constructor.
Qed.

(** What the line pattern of the parser yields. *)
Lemma match_kv_Some line key v :
  match_kv line = Some (key, v) →
  (∃ c k', key = c :: k' ∧ is_word c = true) ∧
  Forall (λ c, is_key_char c = true) key ∧
  no_line_terminator v = true.
Proof.
  unfold match_kv. destruct line as [|c line]; [done|].
  destruct (is_word c) eqn:Hc; [|done].
  set (k := takeWhile is_key_char (c :: line)).
  destruct (drop (length k) (c :: line)) as [|c' rest]; [done|].
  destruct (c' =? COLON); [|done].
  destruct (forallb _ _) eqn:Hv; [|done]. intros [= <- <-].
  split; [|split; [apply takeWhile_Forall | done]].
  subst k. cbn [takeWhile]. unfold is_key_char at 1. rewrite Hc. simpl. eauto.
Qed.

Lemma parse_line_keeps fm line :
  NoDup fm.*1 →
  Forall (λ kv, is_header_key kv.1 = true
                ∧ no_line_terminator kv.2 = true) fm →
  NoDup (parse_line fm line).*1 ∧
  Forall (λ kv, is_header_key kv.1 = true
                ∧ no_line_terminator kv.2 = true) (parse_line fm line).
Proof.
  intros Hnd Hall. unfold parse_line.
  destruct (match_kv line) as [[key v]|] eqn:Hkv; [|done].
  unfold Obj.set_string. destruct (decide (key = lit "__proto__")); [done|].
  split; [by apply obj_set_NoDup|]. apply obj_set_Forall; [done|].
  apply match_kv_Some in Hkv as ((c & k' & -> & Hc) & Hkey & Hv).
  cbn [fst snd]. split.
  - unfold is_header_key. rewrite Hc. cbn [andb].
    rewrite (proj2 (forallb_Forall _ _) Hkey). cbn [andb].
    by rewrite bool_decide_eq_false_2.
  - apply forallb_Forall, Forall_forall. intros x Hx%elem_of_unquote%elem_of_trim.
    apply forallb_Forall in Hv. rewrite Forall_forall in Hv. by apply Hv.
Qed.

(** X6. Whatever the text, the header that [parseFrontmatter] returns has
    distinct keys, each of them a word character followed by word
    characters and dashes, and values without a line terminator; the body
    that it returns is an end piece of the text. *)
Theorem parseFrontmatter_shape (content : list N) :
  let doc := parseFrontmatter content in
  NoDup (frontmatter doc).*1 ∧
  Forall (λ kv, is_header_key kv.1 = true
                ∧ no_line_terminator kv.2 = true) (frontmatter doc) ∧
  body doc `suffix_of` content.
Proof.
  cbv zeta. unfold parseFrontmatter.
  destruct (match_frontmatter content) as [[fmRaw rest]|] eqn:Hm;
    cbn [frontmatter body]; [|split; [constructor | done]].
  assert (∀ lines fm,
            NoDup fm.*1 →
            Forall (λ kv, is_header_key kv.1 = true
                          ∧ no_line_terminator kv.2 = true) fm →
            NoDup (foldl parse_line fm lines).*1 ∧
            Forall (λ kv, is_header_key kv.1 = true
                          ∧ no_line_terminator kv.2 = true)
                   (foldl parse_line fm lines)) as Hfold.
  { induction lines as [|l lines IH]; intros fm Hnd Hall; [done|].
    cbn [foldl]. destruct (parse_line_keeps fm l Hnd Hall). by apply IH. }
  destruct (Hfold (split NL fmRaw) []) as [Hnd Hall]; [constructor | done |].
  split; [done|]. split; [done|].
  unfold match_frontmatter in Hm.
  destruct (startsWith (lit "---") content); [|done].
  apply match_open_Some in Hm as (j & _ & _ & Hclose).
  unfold match_close in Hclose.
  destruct (indexOf CLOSING _) as [i|]; [|done].
  injection Hclose as _ <-.
  etrans; [apply dropWhile_suffix|]. etrans; [apply suffix_drop|].
  etrans; [apply suffix_drop|]. apply suffix_drop.
Qed.

(** ** The title and the description of a document (lib/transform.ts) *)

Lemma search_lines_Some {A} (f : list N → option A) bol s r :
  search_lines f bol s = Some r → ∃ a b, s = a ++ b ∧ f b = Some r.
Proof.
  revert bol. induction s as [|c s IH]; intros bol; simpl.
  - destruct bol; [|done]. destruct (f []) eqn:E; [|done].
    intros [= ->]. by exists [], [].
  - destruct (if bol then f (c :: s) else None) eqn:E.
    + intros [= ->]. destruct bol; [|done]. by exists [], (c :: s).
    + intros (a & b & -> & Hb)%IH. by exists (c :: a), b.
Qed.

Lemma heading_text_Some k s g :
  heading_text k s = Some g →
  g ≠ [] ∧ Forall (λ c, is_line_terminator c = false) g.
Proof.
  induction k as [|k IH]; [done|]. cbn [heading_text].
  destruct (takeWhile _ (drop (S k) s)) as [|c g'] eqn:E; [done|].
  intros [= <-]. split; [done|]. rewrite <- E.
  eapply Forall_impl; [apply takeWhile_Forall|].
  intros x Hx. by apply negb_true_iff.
Qed.

(** X7. The title that [extractTitle] returns is on one line and has no
    white space at either end: it holds no line terminator and trimming it
    changes nothing.  For a text without a hash it is the empty string. *)
Theorem extractTitle_shape (content : list N) :
  no_line_terminator (extractTitle content) = true ∧
  trim (extractTitle content) = extractTitle content ∧
  (HASH ∉ content → extractTitle content = []).
Proof.
  unfold extractTitle.
  destruct (search_lines match_heading true content) as [g|] eqn:Hs;
    [|done].
  apply search_lines_Some in Hs as (a & b & -> & Hb).
  unfold match_heading in Hb. destruct b as [|c b]; [done|].
  destruct (c =? HASH) eqn:Hc; [|done]. apply N.eqb_eq in Hc. subst c.
  split; [|split; [apply trim_idemp|]].
  - apply heading_text_Some in Hb as [_ Hg].
    apply forallb_Forall, Forall_forall. intros x Hx%elem_of_trim.
    rewrite Forall_forall in Hg. by rewrite (Hg x Hx).
  - intros []. apply elem_of_app. right. by left.
Qed.

Lemma takeWhile_app_stop (f : N → bool) a s :
  Forall (λ c, f c = true) a → (∀ c, head s = Some c → f c = false) →
  takeWhile f (a ++ s) = a.
Proof.
  intros Ha Hs. rewrite takeWhile_app_all by done.
  destruct s as [|c s]; simpl; [by rewrite app_nil_r|].
  rewrite (Hs c) by done. by rewrite app_nil_r.
Qed.

(** X8. Where a document begins with a heading, a hash, a blank and a text
    on one line that neither is empty nor has white space at either end,
    [extractTitle] returns the text of the heading. *)
Theorem extractTitle_heading (t rest : list N) :
  t ≠ [] → tight t → no_line_terminator t = true →
  (∀ c, head rest = Some c → is_line_terminator c = true) →
  extractTitle (lit "# " ++ t ++ rest) = t.
Proof.
  intros Hne Ht Hlt Hrest. unfold extractTitle.
  destruct t as [|c t]; [done|].
  assert (is_space c = false) as Hc by (by apply (proj1 Ht)).
  change (lit "# " ++ (c :: t) ++ rest)
    with (HASH :: 32 :: c :: t ++ rest).
  cbn [search_lines match_heading]. rewrite N.eqb_refl.
  cbn [takeWhile]. change (is_space 32) with true. cbv iota.
  rewrite Hc. cbn [length heading_text drop].
  change (c :: t ++ rest) with ((c :: t) ++ rest).
  rewrite takeWhile_app_stop.
  - by rewrite trim_tight.
  - apply forallb_Forall in Hlt. done.
  - intros c' Hc'. by rewrite (Hrest c' Hc').
Qed.

Lemma extractTitle_heading_witness :
  extractTitle (lit "# " ++ lit "Plan first"
                ++ ([NL; NL] ++ lit "Restate the requirements."))
  = lit "Plan first".
Proof.
  apply (extractTitle_heading (lit "Plan first")
           ([NL; NL] ++ lit "Restate the requirements.")).
  - done.
  - split; intros c [= <-]; by vm_compute.
  - by vm_compute.
  - intros c [= <-]. by vm_compute.
Defined.

(** X9. The description that [inferDescription] returns is at most 200
    code units long, unless it is the title of the document. *)
Theorem inferDescription_bound (content : list N) :
  (length (inferDescription content) ≤ 200)%nat ∨
  inferDescription content = extractTitle content.
Proof.
  unfold inferDescription. cbv zeta.
  destruct (search_lines match_first_paragraph true _) as [g|].
  - left. destruct (200 <? length (trim g))%nat eqn:E.
    + apply Nat.ltb_lt in E. rewrite length_app, length_take.
      change (length (lit "...")) with 3%nat. lia.
    + by apply Nat.ltb_ge in E.
  - unfold or_else. destruct (truthy (extractTitle content)); [by right|].
    left. vm_compute. lia.
Qed.

(** ** Cleaning (sync.ts) *)

Lemma rm_rf_removes : removes Fs.rm_rf.
Proof.
  intros t p t' [= <-]. split.
  - apply map_lookup_filter_None. right. intros x _ Hp. by apply Hp.
  - intros q Hq. destruct (decide (p `prefix_of` q)) as [Hp|Hp].
    + split; [|done]. apply map_lookup_filter_None. right.
      intros x _ Hn. by apply Hn.
    + destruct Hq. destruct (t !! q) as [x|] eqn:Hx.
      * by apply map_lookup_filter_Some.
      * apply map_lookup_filter_None. by left.
Qed.

Lemma rm_f_removes : removes Fs.rm_f.
Proof.
  intros t p t'. unfold Fs.rm_f.
  destruct (Fs.lookup_node t p) as [[|]|]; intros [= <-].
  - split; [apply lookup_delete_eq|]. intros q Hq.
    destruct (decide (p = q)) as [->|Hne]; [by rewrite lookup_delete_eq|].
    by rewrite lookup_delete_ne in Hq.
  - split; [apply lookup_delete_eq|]. intros q Hq.
    destruct (decide (p = q)) as [->|Hne]; [by rewrite lookup_delete_eq|].
    by rewrite lookup_delete_ne in Hq.
Qed.

(** The loop of a step of [runClean]: every listed entry is removed and
    recorded; nothing else changes. *)
Lemma clean_loop
    (rm : gmap (list (list N)) Fs.node → list (list N)
          → option (gmap (list (list N)) Fs.node))
    (dir : list (list N)) (files : list (list N))
    (t t' : gmap (list (list N)) Fs.node) (acc removed : list (list N)) :
  removes rm → Forall (λ f, plain_name f = true) files →
  for_each (λ st f, t' ← rm st.1 (Fs.join dir [f]); Some (t', st.2 ++ [f]))
           files (t, acc) = Some (t', removed) →
  removed = acc ++ files ∧
  (∀ f, f ∈ files → t' !! (dir ++ [f]) = None) ∧
  (∀ q, t' !! q ≠ t !! q →
        t' !! q = None ∧ ∃ f, f ∈ files ∧ (dir ++ [f]) `prefix_of` q).
Proof.
  intros Hrm. revert t acc.
  induction files as [|f files IH]; intros t acc Hplain.
  - intros [= <- <-]. rewrite app_nil_r. split; [done|].
    split; [by intros f ?%elem_of_nil | done].
  - apply Forall_cons in Hplain as [Hf Hplain]. cbn [for_each fst snd].
    rewrite join_plain by done.
    destruct (rm t (dir ++ [f])) as [t1|] eqn:Hrm1; [|done].
    cbn [mbind option_bind]. intros Hloop.
    destruct (Hrm _ _ _ Hrm1) as [Hgone Hframe1].
    destruct (IH t1 (acc ++ [f]) Hplain Hloop) as (-> & Hnone & Hframe).
    split; [by rewrite <- (assoc_L (++))|].
    assert (∀ q, t1 !! q = None → t' !! q = None) as Hstay.
    { intros q Hq. destruct (decide (t' !! q = t1 !! q)) as [->|Hne]; [done|].
      by apply Hframe in Hne as [? _]. }
    split.
    + intros f' [->|Hin]%elem_of_cons; [by apply Hstay | by apply Hnone].
    + intros q Hq. destruct (decide (t' !! q = t1 !! q)) as [Heq|Hne].
      * rewrite Heq in Hq. apply Hframe1 in Hq as [Hq1 Hpre].
        split; [by apply Hstay|]. exists f. split; [by left | done].
      * apply Hframe in Hne as [? (f' & ? & ?)]. split; [done|].
        exists f'. split; [by right | done].
Qed.

Lemma plain_names_entry (t : gmap (list (list N)) Fs.node) dir f :
  plain_names t → is_Some (t !! (dir ++ [f])) → plain_name f = true.
Proof.
  intros Ht [x Hx]. specialize (Ht _ _ Hx). cbn beta in Ht.
  apply forallb_Forall in Ht. rewrite Forall_app in Ht.
  destruct Ht as [_ Ht]. by apply (Forall_singleton _ f) in Ht.
Qed.

(** One step of [runClean]. *)
Lemma clean_dir_spec
    (rm : gmap (list (list N)) Fs.node → list (list N)
          → option (gmap (list (list N)) Fs.node))
    (dir : list (list N)) (pat : list N)
    (t t' : gmap (list (list N)) Fs.node) (removed : list (list N)) :
  removes rm → plain_names t →
  clean_dir rm dir pat t = Some (t', removed) →
  (if Fs.existsSync t dir
   then Fs.readdir t dir = Some (Fs.children t dir) ∧
        removed = filter (λ d, startsWith pat d = true) (Fs.children t dir)
   else removed = []) ∧
  (∀ f, f ∈ removed → t' !! (dir ++ [f]) = None) ∧
  (∀ q, t' !! q ≠ t !! q →
        t' !! q = None ∧ ∃ f, f ∈ removed ∧ (dir ++ [f]) `prefix_of` q).
Proof.
  intros Hrm Hplain. unfold clean_dir.
  destruct (Fs.existsSync t dir).
  2:{ intros [= <- <-]. split; [done|].
      split; [by intros f ?%elem_of_nil | done]. }
  unfold Fs.readdir.
  destruct (Fs.lookup_node t dir) as [[|]|]; [done| |done].
  cbn [mbind option_bind]. intros Hloop.
  apply clean_loop in Hloop as (-> & Hnone & Hframe); [done|done|].
  apply Forall_forall. intros f [_ Hf]%list_elem_of_filter.
  apply elem_of_children in Hf. by eapply plain_names_entry.
Qed.

Lemma shrink_plain (t t' : gmap (list (list N)) Fs.node) :
  (∀ q, t' !! q ≠ t !! q → t' !! q = None) →
  plain_names t → plain_names t'.
Proof.
  intros Hsh Ht p x Hp. destruct (decide (t' !! p = t !! p)) as [Heq|Hne].
  - rewrite Heq in Hp. by apply (Ht p x).
  - apply Hsh in Hne. congruence.
Qed.

Lemma context_dirs cursorDir :
  let ctx := createContext cursorDir in
  skillsDir ctx = cursorDir ++ [lit "skills"] ∧
  agentsDir ctx = cursorDir ++ [lit "agents"] ∧
  commandsDir ctx = cursorDir ++ [lit "commands"] ∧
  mcpFile ctx = cursorDir ++ [lit "mcp.json"].
Proof.
  cbv zeta. unfold createContext.
  cbn [skillsDir agentsDir commandsDir mcpFile]. by rewrite !join_plain.
Qed.

(** The three steps of [runClean], one after the other. *)
Lemma runClean_steps (t t' : gmap (list (list N)) Fs.node)
    (ctx : TargetContext) (prefix : list N) (res : CleanResult) :
  prefix ≠ [] →
  runClean t ctx prefix = Some (t', res) →
  ∃ t1 t2,
    clean_dir Fs.rm_rf (skillsDir ctx) (prefix ++ [DASH]) t
      = Some (t1, clean_skills res) ∧
    clean_dir Fs.rm_f (agentsDir ctx) (prefix ++ [DASH]) t1
      = Some (t2, clean_agents res) ∧
    clean_dir Fs.rm_f (commandsDir ctx) (prefix ++ [DASH]) t2
      = Some (t', clean_commands res) ∧
    totalRemoved res
    = (length (clean_skills res) + length (clean_agents res)
       + length (clean_commands res))%nat.
Proof.
  intros Hp. unfold runClean. rewrite (proj2 (truthy_true prefix) Hp).
  cbn [negb]. change (prefix ++ lit "-") with (prefix ++ [DASH]).
  destruct (clean_dir Fs.rm_rf _ _ t) as [[t1 s1]|]; [|done].
  cbn [mbind option_bind].
  destruct (clean_dir Fs.rm_f _ _ t1) as [[t2 s2]|] eqn:E2; [|done].
  cbn [mbind option_bind].
  destruct (clean_dir Fs.rm_f _ _ t2) as [[t3 s3]|] eqn:E3; [|done].
  cbn [mbind option_bind]. intros [= <- <-]. exists t1, t2.
  cbn [clean_skills clean_agents clean_commands totalRemoved].
  by rewrite E2, E3.
Qed.

(** After a step, and whatever is removed later, no entry of the directory
    bears the prefix. *)
Lemma clean_dir_no_entry
    (rm : gmap (list (list N)) Fs.node → list (list N)
          → option (gmap (list (list N)) Fs.node))
    (dir : list (list N)) (pat : list N)
    (t0 t1 t' : gmap (list (list N)) Fs.node) (removed : list (list N))
    (f : list N) :
  removes rm → plain_names t0 →
  clean_dir rm dir pat t0 = Some (t1, removed) →
  (∀ q, t' !! q ≠ t1 !! q → t' !! q = None) →
  has_entry t' dir f → pat `prefix_of` f → False.
Proof.
  intros Hrm Hplain Hclean Hsh [Hdir [x Hx]] Hpat.
  destruct (clean_dir_spec _ _ _ _ _ _ Hrm Hplain Hclean)
    as (Hlist & Hnone & Hframe).
  assert (∀ q y, t' !! q = Some y → t1 !! q = Some y) as H1.
  { intros q y Hq. destruct (decide (t' !! q = t1 !! q)) as [<-|Hne]; [done|].
    apply Hsh in Hne. congruence. }
  assert (∀ q y, t1 !! q = Some y → t0 !! q = Some y) as H0.
  { intros q y Hq. destruct (decide (t1 !! q = t0 !! q)) as [<-|Hne]; [done|].
    apply Hframe in Hne as [? _]. congruence. }
  assert (Fs.lookup_node t0 dir = Some Fs.Dir) as Hdir0.
  { destruct dir as [|c dir]; [done|]. simpl in *. auto. }
  rewrite (existsSync_dir _ _ Hdir0) in Hlist. destruct Hlist as [_ ->].
  assert (t1 !! (dir ++ [f]) = None) as Hgone; [|apply H1 in Hx; congruence].
  apply Hnone, list_elem_of_filter. split; [by apply startsWith_prefix|].
  apply elem_of_children. exists x. auto.
Qed.

Lemma scanDir_nil (t : gmap (list (list N)) Fs.node) dir prefix :
  (∀ f, has_entry t dir f → (prefix ++ [DASH]) `prefix_of` f → False) →
  scanDir t dir prefix = [].
Proof.
  intros Hno. apply elem_of_nil_inv. intros f Hf.
  apply elem_of_scanDir in Hf as (_ & He & Hp). by eapply Hno.
Qed.

(** X10. Cleaning and scanning agree: in a target that [runClean] has
    cleaned for a prefix, [scanDirectory] finds nothing under that
    prefix. *)
Theorem runClean_then_scan (t t' : gmap (list (list N)) Fs.node)
    (cursorDir : list (list N)) (prefix : list N) (res : CleanResult) :
  plain_names t →
  runClean t (createContext cursorDir) prefix = Some (t', res) →
  scanDirectory t' cursorDir prefix = mkScan cursorDir [] [] [] 0.
Proof.
  intros Hplain Hclean. destruct (decide (prefix = [])) as [->|Hp].
  { done. }
  destruct (runClean_steps _ _ _ _ _ Hp Hclean)
    as (t1 & t2 & Hs & Ha & Hc & _).
  pose proof (clean_dir_spec _ _ _ _ _ _ rm_rf_removes Hplain Hs)
    as (_ & _ & Hf1).
  assert (∀ q, t1 !! q ≠ t !! q → t1 !! q = None) as Hsh1
    by (intros q Hq; by apply Hf1 in Hq as [? _]).
  pose proof (shrink_plain _ _ Hsh1 Hplain) as Hplain1.
  pose proof (clean_dir_spec _ _ _ _ _ _ rm_f_removes Hplain1 Ha)
    as (_ & _ & Hf2).
  assert (∀ q, t2 !! q ≠ t1 !! q → t2 !! q = None) as Hsh2
    by (intros q Hq; by apply Hf2 in Hq as [? _]).
  pose proof (shrink_plain _ _ Hsh2 Hplain1) as Hplain2.
  pose proof (clean_dir_spec _ _ _ _ _ _ rm_f_removes Hplain2 Hc)
    as (_ & _ & Hf3).
  assert (∀ q, t' !! q ≠ t2 !! q → t' !! q = None) as Hsh3
    by (intros q Hq; by apply Hf3 in Hq as [? _]).
  assert (∀ q, t' !! q ≠ t1 !! q → t' !! q = None) as Hsh13.
  { intros q Hq. destruct (decide (t' !! q = t2 !! q)) as [Heq|Hne]; [|auto].
    rewrite Heq in *. auto. }
  unfold scanDirectory. cbv zeta.
  rewrite (scanDir_nil t' (skillsDir _)), (scanDir_nil t' (agentsDir _)),
    (scanDir_nil t' (commandsDir _)); [done|..].
  - intros f.
    by apply (clean_dir_no_entry _ _ _ t2 t' t' _ f rm_f_removes Hplain2 Hc).
  - intros f.
    by apply (clean_dir_no_entry _ _ _ t1 t2 t' _ f rm_f_removes Hplain1 Ha).
  - intros f.
    by apply (clean_dir_no_entry _ _ _ t t1 t' _ f rm_rf_removes Hplain Hs).
Qed.

Lemma installed_target_plain : plain_names installed_target.
Proof. apply (bool_decide_unpack _). by vm_compute. Qed.

Lemma installed_target_cleans :
  is_Some (runClean installed_target
             (createContext [lit "home"; lit ".cursor"]) (lit "ecc")).
Proof.
  assert ((λ _, ()) <$> runClean installed_target
            (createContext [lit "home"; lit ".cursor"]) (lit "ecc")
          = Some ()) as Hrun by (by vm_compute).
  by destruct (runClean _ _ _).
Qed.

Lemma runClean_then_scan_witness :
  ∃ t' res,
    runClean installed_target (createContext [lit "home"; lit ".cursor"])
      (lit "ecc") = Some (t', res) ∧
    scanDirectory t' [lit "home"; lit ".cursor"] (lit "ecc")
    = mkScan [lit "home"; lit ".cursor"] [] [] [] 0.
Proof.
  destruct installed_target_cleans as [[t' res] Hclean].
  exists t', res. split; [done|].
  exact (runClean_then_scan installed_target t' [lit "home"; lit ".cursor"]
           (lit "ecc") res installed_target_plain Hclean).
Defined.

Lemma children_NoDup (t : gmap (list (list N)) Fs.node) d :
  NoDup (Fs.children t d).
Proof.
  unfold Fs.children. pose proof (NoDup_fst_map_to_list t) as Hnd.
  induction (map_to_list t) as [|e l IH]; [constructor|].
  rewrite fmap_cons in Hnd. apply NoDup_cons in Hnd as [Hnot Hnd].
  cbn [omap list_omap]. destruct (Fs.child_of d e.1) as [n|] eqn:Hn; [|auto].
  apply NoDup_cons. split; [|auto].
  intros (e' & He' & Hn')%list_elem_of_omap. apply Hnot.
  apply child_of_Some in Hn, Hn'. rewrite Hn, <- Hn'.
  by apply list_elem_of_fmap_2.
Qed.

Lemma scanDir_NoDup (t : gmap (list (list N)) Fs.node) dir prefix :
  NoDup (scanDir t dir prefix).
Proof.
  unfold scanDir. destruct (_ || _); [constructor|].
  unfold Fs.readdir. destruct (Fs.lookup_node t dir) as [[|]|];
    try constructor.
  apply NoDup_filter, children_NoDup.
Qed.

(** Two trees that agree on a directory and on its entries list the same
    entries there. *)
Lemma scanDir_agree (t t1 : gmap (list (list N)) Fs.node) dir prefix :
  Fs.lookup_node t1 dir = Fs.lookup_node t dir →
  (∀ n, t1 !! (dir ++ [n]) = t !! (dir ++ [n])) →
  scanDir t1 dir prefix ≡ₚ scanDir t dir prefix.
Proof.
  intros Hd Hn. apply NoDup_Permutation; [apply scanDir_NoDup..|].
  intros f. rewrite !elem_of_scanDir. unfold has_entry. by rewrite Hd, Hn.
Qed.

(** What a step removes is what a scan of the directory lists. *)
Lemma clean_dir_scan
    (rm : gmap (list (list N)) Fs.node → list (list N)
          → option (gmap (list (list N)) Fs.node))
    (dir : list (list N)) (prefix : list N)
    (t t' : gmap (list (list N)) Fs.node) (removed : list (list N)) :
  removes rm → plain_names t → prefix ≠ [] →
  clean_dir rm dir (prefix ++ [DASH]) t = Some (t', removed) →
  removed = scanDir t dir prefix.
Proof.
  intros Hrm Hplain Hp Hclean.
  destruct (clean_dir_spec _ _ _ _ _ _ Hrm Hplain Hclean) as (Hlist & _).
  unfold scanDir. rewrite (proj2 (truthy_true prefix) Hp).
  destruct (Fs.existsSync t dir); [|done].
  destruct Hlist as [-> ->]. done.
Qed.

Lemma sibling_prefix (c : list (list N)) (a f b : list N) rest :
  (c ++ [a; f]) `prefix_of` (c ++ b :: rest) → a = b.
Proof.
  intros Hpre%prefix_app_inv. destruct Hpre as [k Hk]. by injection Hk.
Qed.

Lemma sibling_untouched (t t1 : gmap (list (list N)) Fs.node)
    (c : list (list N)) (a b : list N) :
  a ≠ b →
  (∀ q, t1 !! q ≠ t !! q → ∃ f, ((c ++ [a]) ++ [f]) `prefix_of` q) →
  Fs.lookup_node t1 (c ++ [b]) = Fs.lookup_node t (c ++ [b]) ∧
  ∀ n, t1 !! ((c ++ [b]) ++ [n]) = t !! ((c ++ [b]) ++ [n]).
Proof.
  intros Hab Hframe. split.
  - rewrite !lookup_node_cons by (by destruct c).
    destruct (decide (t1 !! (c ++ [b]) = t !! (c ++ [b]))) as [|Hne]; [done|].
    apply Hframe in Hne as [f Hpre]. rewrite <- (assoc_L (++)) in Hpre.
    by apply sibling_prefix in Hpre.
  - intros n.
    destruct (decide (t1 !! ((c ++ [b]) ++ [n]) = t !! ((c ++ [b]) ++ [n])))
      as [|Hne]; [done|].
    apply Hframe in Hne as [f Hpre]. rewrite <- !(assoc_L (++)) in Hpre.
    by apply sibling_prefix in Hpre.
Qed.

(** The steps of [runClean] with what each of them removes and leaves. *)
Lemma runClean_listed (t t' : gmap (list (list N)) Fs.node)
    (cursorDir : list (list N)) (prefix : list N) (res : CleanResult) :
  plain_names t → prefix ≠ [] →
  runClean t (createContext cursorDir) prefix = Some (t', res) →
  let scan := scanDirectory t cursorDir prefix in
  let ctx := createContext cursorDir in
  clean_skills res ≡ₚ skills scan ∧
  clean_agents res ≡ₚ agents scan ∧
  clean_commands res ≡ₚ commands scan ∧
  totalRemoved res = totalFiles scan ∧
  ∀ q, t' !! q ≠ t !! q →
       t' !! q = None ∧
       ∃ c f, f ∈ listing c scan ∧ (container_dir ctx c ++ [f]) `prefix_of` q.
Proof.
  intros Hplain Hp Hclean scan ctx.
  destruct (runClean_steps _ _ _ _ _ Hp Hclean)
    as (t1 & t2 & Hs & Ha & Hc & Htotal).
  destruct (context_dirs cursorDir) as (Hsd & Had & Hcd & _).
  fold ctx in Hs, Ha, Hc, Hsd, Had, Hcd.
  pose proof (clean_dir_spec _ _ _ _ _ _ rm_rf_removes Hplain Hs)
    as (_ & _ & Hf1).
  assert (∀ q, t1 !! q ≠ t !! q → t1 !! q = None) as Hsh1
    by (intros q Hq; by apply Hf1 in Hq as [? _]).
  pose proof (shrink_plain _ _ Hsh1 Hplain) as Hplain1.
  pose proof (clean_dir_spec _ _ _ _ _ _ rm_f_removes Hplain1 Ha)
    as (_ & _ & Hf2).
  assert (∀ q, t2 !! q ≠ t1 !! q → t2 !! q = None) as Hsh2
    by (intros q Hq; by apply Hf2 in Hq as [? _]).
  pose proof (shrink_plain _ _ Hsh2 Hplain1) as Hplain2.
  pose proof (clean_dir_spec _ _ _ _ _ _ rm_f_removes Hplain2 Hc)
    as (_ & _ & Hf3).
  pose proof (clean_dir_scan _ _ _ _ _ _ rm_rf_removes Hplain Hp Hs) as Hl1.
  pose proof (clean_dir_scan _ _ _ _ _ _ rm_f_removes Hplain1 Hp Ha) as Hl2.
  pose proof (clean_dir_scan _ _ _ _ _ _ rm_f_removes Hplain2 Hp Hc) as Hl3.
  (* the agents and the commands are where they were *)
  assert (∀ b, b ≠ lit "skills" →
            Fs.lookup_node t1 (cursorDir ++ [b])
              = Fs.lookup_node t (cursorDir ++ [b]) ∧
            ∀ n, t1 !! ((cursorDir ++ [b]) ++ [n])
                 = t !! ((cursorDir ++ [b]) ++ [n])) as Hsame1.
  { intros b Hb. apply (sibling_untouched t t1 cursorDir (lit "skills") b);
      [done|].
    intros q Hq. apply Hf1 in Hq as (_ & f & _ & Hpre).
    rewrite Hsd in Hpre. eauto. }
  assert (∀ b, b ≠ lit "agents" →
            Fs.lookup_node t2 (cursorDir ++ [b])
              = Fs.lookup_node t1 (cursorDir ++ [b]) ∧
            ∀ n, t2 !! ((cursorDir ++ [b]) ++ [n])
                 = t1 !! ((cursorDir ++ [b]) ++ [n])) as Hsame2.
  { intros b Hb. apply (sibling_untouched t1 t2 cursorDir (lit "agents") b);
      [done|].
    intros q Hq. apply Hf2 in Hq as (_ & f & _ & Hpre).
    rewrite Had in Hpre. eauto. }
  assert (clean_agents res ≡ₚ agents scan) as Hpa.
  { rewrite Hl2. unfold scan, scanDirectory. cbn [agents]. fold ctx.
    rewrite Had. destruct (Hsame1 (lit "agents")) as [? ?]; [done|].
    by apply scanDir_agree. }
  assert (clean_commands res ≡ₚ commands scan) as Hpc.
  { rewrite Hl3. unfold scan, scanDirectory. cbn [commands]. fold ctx.
    rewrite Hcd. destruct (Hsame1 (lit "commands")) as [? ?]; [done|].
    destruct (Hsame2 (lit "commands")) as [? ?]; [done|].
    etrans; by apply scanDir_agree. }
  assert (clean_skills res = skills scan) as Hps by done.
  split; [by rewrite Hps|]. split; [done|]. split; [done|]. split.
  { rewrite Htotal. unfold scan, scanDirectory. cbn [totalFiles].
    fold ctx. fold scan.
    change (scanDir t (skillsDir ctx) prefix) with (skills scan).
    change (scanDir t (agentsDir ctx) prefix) with (agents scan).
    change (scanDir t (commandsDir ctx) prefix) with (commands scan).
    by rewrite Hps, Hpa, Hpc. }
  intros q Hq.
  destruct (decide (t' !! q = t2 !! q)) as [Heq3|Hne3].
  - rewrite Heq3 in *. destruct (decide (t2 !! q = t1 !! q)) as [Heq2|Hne2].
    + rewrite Heq2 in *. apply Hf1 in Hq as (? & f & Hf & Hpre).
      split; [done|]. exists Skills, f. split; [|done].
      cbn [listing]. by rewrite <- Hps.
    + apply Hf2 in Hne2 as (? & f & Hf & Hpre).
      split; [done|]. exists Agents, f. split; [|done].
      cbn [listing]. by rewrite <- Hpa.
  - apply Hf3 in Hne3 as (? & f & Hf & Hpre).
    split; [done|]. exists Commands, f. split; [|done].
    cbn [listing]. by rewrite <- Hpc.
Qed.

(** X11. [runClean] removes what [scanDirectory] lists: the entries that it
    reports as removed from each of the three directories are those that a
    scan of the target for the same prefix lists there, and the total is
    the same. *)
Theorem runClean_removes_listed (t t' : gmap (list (list N)) Fs.node)
    (cursorDir : list (list N)) (prefix : list N) (res : CleanResult) :
  plain_names t →
  runClean t (createContext cursorDir) prefix = Some (t', res) →
  let scan := scanDirectory t cursorDir prefix in
  clean_skills res ≡ₚ skills scan ∧
  clean_agents res ≡ₚ agents scan ∧
  clean_commands res ≡ₚ commands scan ∧
  totalRemoved res = totalFiles scan.
Proof.
  intros Hplain Hclean. destruct (decide (prefix = [])) as [->|Hp].
  { injection Hclean as <- <-. done. }
  destruct (runClean_listed _ _ _ _ _ Hplain Hp Hclean)
    as (? & ? & ? & ? & _).
  done.
Qed.

Lemma runClean_removes_listed_witness :
  ∃ t' res,
    runClean installed_target (createContext [lit "home"; lit ".cursor"])
      (lit "ecc") = Some (t', res) ∧
    totalRemoved res
    = totalFiles (scanDirectory installed_target [lit "home"; lit ".cursor"]
                    (lit "ecc")).
Proof.
  destruct installed_target_cleans as [[t' res] Hclean].
  exists t', res. split; [done|].
  exact (proj2 (proj2 (proj2
           (runClean_removes_listed installed_target t'
              [lit "home"; lit ".cursor"] (lit "ecc") res
              installed_target_plain Hclean)))).
Defined.

(** X12. [runClean] touches nothing but what it reports: every path of the
    target that is changed is gone, and lies at or below an entry that a
    scan for the prefix lists in one of the three directories, an entry
    whose name begins with the prefix and a dash.  The registry file is as
    it was. *)
Theorem runClean_frame (t t' : gmap (list (list N)) Fs.node)
    (cursorDir : list (list N)) (prefix : list N) (res : CleanResult) :
  plain_names t →
  runClean t (createContext cursorDir) prefix = Some (t', res) →
  let ctx := createContext cursorDir in
  let scan := scanDirectory t cursorDir prefix in
  t' !! mcpFile ctx = t !! mcpFile ctx ∧
  ∀ q, t' !! q ≠ t !! q →
       t' !! q = None ∧
       ∃ c f, f ∈ listing c scan ∧ (prefix ++ [DASH]) `prefix_of` f ∧
              (container_dir ctx c ++ [f]) `prefix_of` q.
Proof.
  intros Hplain Hclean ctx scan. destruct (decide (prefix = [])) as [->|Hp].
  { injection Hclean as <- <-. done. }
  destruct (runClean_listed _ _ _ _ _ Hplain Hp Hclean)
    as (_ & _ & _ & _ & Hframe).
  split.
  - destruct (decide (t' !! mcpFile ctx = t !! mcpFile ctx)) as [|Hne];
      [done|].
    apply Hframe in Hne as (_ & c & f & _ & Hpre). exfalso.
    destruct (context_dirs cursorDir) as (Hsd & Had & Hcd & Hmcp).
    fold ctx in Hsd, Had, Hcd, Hmcp. rewrite Hmcp in Hpre.
    apply prefix_length in Hpre. revert Hpre. fold ctx.
    destruct c; cbn [container_dir]; rewrite ?Hsd, ?Had, ?Hcd;
      rewrite !length_app; cbn [length]; lia.
  - intros q Hq. apply Hframe in Hq as (Hnone & c & f & Hf & Hpre).
    split; [done|]. exists c, f. split; [done|]. split; [|done].
    apply elem_of_listing, elem_of_scanDir in Hf. apply Hf.
Qed.

Lemma runClean_frame_witness :
  ∃ t' res,
    runClean installed_target (createContext [lit "home"; lit ".cursor"])
      (lit "ecc") = Some (t', res) ∧
    t' !! [lit "home"; lit ".cursor"; lit "mcp.json"]
    = installed_target !! [lit "home"; lit ".cursor"; lit "mcp.json"].
Proof.
  destruct installed_target_cleans as [[t' res] Hclean].
  exists t', res. split; [done|].
  exact (proj1 (runClean_frame installed_target t'
                  [lit "home"; lit ".cursor"] (lit "ecc") res
                  installed_target_plain Hclean)).
Defined.

(** ** The registry merge, continued (lib/translators/mcp.ts) *)

Lemma has_server_set servers k v k' :
  has_server (Obj.set servers k v) k'
  = if decide (k = k') then value_truthy v else has_server servers k'.
Proof.
  unfold has_server. rewrite obj_get_set. by destruct (decide (k = k')).
Qed.

(** Behind the loop, every candidate is in the registry. *)
Lemma install_all_installed toInstall servers a s :
  let '(servers', _, _) :=
    foldl (install_one false) (servers, a, s) toInstall in
  (∀ k, has_server servers k = true → has_server servers' k = true) ∧
  ∀ x, x ∈ toInstall → has_server servers' (name x) = true.
Proof.
  revert servers a s. induction toInstall as [|x l IH]; intros servers a s.
  - simpl. split; [done|]. by intros x ?%elem_of_nil.
  - cbn [foldl]. unfold install_one at 2.
    destruct (has_server servers (name x)) eqn:Hx.
    + specialize (IH servers a (S s)).
      destruct (foldl _ _ l) as [[servers' a'] s']. destruct IH as [Hmono Hall].
      split; [done|]. intros y [->|Hy]%elem_of_cons; auto.
    + specialize (IH (Obj.set servers (name x)
                        (VObj (cleanConfig (config x))))
                     (S a) s).
      destruct (foldl _ _ l) as [[servers' a'] s']. destruct IH as [Hmono Hall].
      assert (∀ k, has_server servers k = true →
                   has_server servers' k = true) as Hmono'.
      { intros k Hk. apply Hmono. rewrite has_server_set.
        by destruct (decide _). }
      split; [done|]. intros y [->|Hy]%elem_of_cons; [|auto].
      apply Hmono. rewrite has_server_set. by rewrite decide_True.
Qed.

(** Where every candidate is in the registry, the loop skips them all. *)
Lemma install_all_skips dryRun toInstall servers a s :
  (∀ x, x ∈ toInstall → has_server servers (name x) = true) →
  foldl (install_one dryRun) (servers, a, s) toInstall
  = (servers, a, (s + length toInstall)%nat).
Proof.
  revert s. induction toInstall as [|x l IH]; intros s Hall.
  - simpl. by rewrite Nat.add_0_r.
  - cbn [foldl]. unfold install_one at 2.
    rewrite (Hall x) by (by left). rewrite IH by (intros; apply Hall; by right).
    f_equal. simpl. lia.
Qed.

(** X13. The loop of [translateMcp] over the candidates settles: run again
    over the same candidates on the registry that it has left, it adds
    nothing, skips every candidate and leaves the registry as it is. *)
Theorem install_all_settles (toInstall : list AvailableServer)
    (servers : list (list N * value)) :
  let merged := (install_all false toInstall servers).1.1 in
  install_all false toInstall merged = (merged, 0%nat, length toInstall).
Proof.
  cbv zeta.
  pose proof (install_all_installed toInstall servers 0 0) as Hin.
  fold (install_all false toInstall servers) in Hin.
  destruct (install_all false toInstall servers) as [[merged a] s].
  destruct Hin as [_ Hall].
  cbn [fst]. unfold install_all. by rewrite install_all_skips.
Qed.

Lemma resolveSelectedServers_subseteq available selection x :
  x ∈ resolveSelectedServers available selection → x ∈ available.
Proof.
  destruct selection as [| |names]; simpl; [by intros ?%elem_of_nil|done|].
  by intros [_ ?]%list_elem_of_filter.
Qed.

(** Every entry of the registry behind the loop was there before, or is
    the cleaned definition of a candidate. *)
Lemma install_all_provenance toInstall servers a s :
  let '(servers', _, _) :=
    foldl (install_one false) (servers, a, s) toInstall in
  ∀ k v, Obj.get servers' k = Some v →
         Obj.get servers k = Some v ∨
         ∃ x, x ∈ toInstall ∧ name x = k ∧
              v = VObj (cleanConfig (config x)).
Proof.
  revert servers a s. induction toInstall as [|x l IH]; intros servers a s.
  - simpl. auto.
  - cbn [foldl]. unfold install_one at 2.
    destruct (has_server servers (name x)) eqn:Hx.
    + specialize (IH servers a (S s)).
      destruct (foldl _ _ l) as [[servers' a'] s']. intros k v Hk.
      destruct (IH k v Hk) as [?|(y & ? & ? & ?)]; [by left|].
      right. exists y. split; [by right | done].
    + specialize (IH (Obj.set servers (name x)
                        (VObj (cleanConfig (config x))))
                     (S a) s).
      destruct (foldl _ _ l) as [[servers' a'] s']. intros k v Hk.
      destruct (IH k v Hk) as [Hget|(y & ? & ? & ?)].
      * rewrite obj_get_set in Hget.
        destruct (decide (name x = k)) as [Hxk|]; [|by left].
        injection Hget as <-. right. exists x. split; [by left | done].
      * right. exists y. split; [by right | done].
Qed.



Section merge_more.
Variable JSON_parse : list N → option McpFile.
Variable JSON_stringify : McpConfig → list N.
Variable JSON_stringify_server : value → list N.

Lemma available_of_spec (srcServers : list (list N * value))
    (available : list AvailableServer) (x : AvailableServer) :
  available_of JSON_stringify_server srcServers = Some available →
  x ∈ available →
  (name x, config x) ∈ srcServers ∧
  (name x ∉ TOKEN_REQUIRED_MCP_SERVERS) ∧
  requiresAuth JSON_stringify_server (config x) = Some false.
Proof using Type.
  revert available.
  induction srcServers as [|[k c] rest IH]; intros available; cbn [available_of].
  - by intros [= <-] ?%elem_of_nil.
  - destruct (bool_decide (k ∈ TOKEN_REQUIRED_MCP_SERVERS)) eqn:Hk.
    + intros Hav Hx. destruct (IH _ Hav Hx) as (? & ? & ?).
      split; [by right | done].
    + destruct (requiresAuth JSON_stringify_server c) as [auth|] eqn:Hc;
        [|done].
      cbn [mbind option_bind].
      destruct (available_of JSON_stringify_server rest) as [more|]; [|done].
      cbn [mbind option_bind]. intros [= <-] Hx.
      assert (x ∈ more →
              (name x, config x) ∈ (k, c) :: rest ∧
              (name x ∉ TOKEN_REQUIRED_MCP_SERVERS) ∧
              requiresAuth JSON_stringify_server (config x) = Some false)
        as Hmore.
      { intros Hin. destruct (IH _ eq_refl Hin) as (? & ? & ?).
        split; [by right | done]. }
      destruct auth; [by apply Hmore|].
      apply elem_of_cons in Hx as [->|Hx]; [|by apply Hmore].
      cbn [name config]. split; [by left|]. split; [|done].
      by apply bool_decide_eq_false in Hk.
Qed.

Lemma getAvailableServers_spec (src : gmap (list (list N)) Fs.node)
    (available : list AvailableServer) (x : AvailableServer) :
  getAvailableServers JSON_parse JSON_stringify_server src = Some available →
  x ∈ available →
  source_server JSON_parse src (name x) (config x) ∧
  (name x ∉ TOKEN_REQUIRED_MCP_SERVERS) ∧
  requiresAuth JSON_stringify_server (config x) = Some false.
Proof using Type.
  unfold getAvailableServers, source_server.
  destruct (negb (Fs.existsSync src _)); [by intros [= <-] ?%elem_of_nil|].
  destruct (Fs.readFile src _) as [raw|]; [|done]. cbn [mbind option_bind].
  destruct (JSON_parse raw) as [file|] eqn:Hfile; [|done].
  cbn [mbind option_bind]. intros Hav Hx.
  destruct (available_of_spec _ _ _ Hav Hx) as (? & ? & ?).
  split; [by exists raw, file | done].
Qed.

(** X14. Where the test that the loop makes on the registry of the target
    holds for the name of every resolved candidate (the name is bound to a
    truthy value, or it is not bound and is the name of a property that
    every object inherits), [translateMcp] adds nothing, counts every
    candidate as skipped and leaves the target as it is, dry run or
    not. *)
Theorem translateMcp_nothing_to_add
    (src tgt : gmap (list (list N)) Fs.node) (ctx : TargetContext)
    (dryRun : bool) (selection : McpSelection)
    (available : list AvailableServer) :
  getAvailableServers JSON_parse JSON_stringify_server src = Some available →
  (∀ x, x ∈ resolveSelectedServers available selection →
        has_server (mcpServers (readMcpConfig JSON_parse tgt (mcpFile ctx)))
                   (name x) = true) →
  translateMcp JSON_parse JSON_stringify JSON_stringify_server
    src tgt ctx dryRun selection
  = Some (tgt, mkMcpResult 0
                 (length (resolveSelectedServers available selection))
                 selection).
Proof using Type.
  intros Hav Hall. unfold translateMcp. rewrite Hav.
  cbn [mbind option_bind].
  destruct available as [|a0 available]; [by destruct selection|].
  destruct selection as [| |names]; [done| |].
  - unfold install_all. rewrite install_all_skips by done.
    by destruct dryRun.
  - unfold install_all. rewrite install_all_skips by done.
    by destruct dryRun.
Qed.

(** X15. [translateMcp] installs nothing but available servers, cleaned:
    every entry of the registry that it writes either was in the registry
    of the target, with the same value, or is listed under its name by the
    source, is not on the list of the servers that need a token and passes
    [requiresAuth], and its value is the definition of the source without
    the description and with [npx] replaced. *)
Theorem translateMcp_installs_available
    (src tgt tgt' : gmap (list (list N)) Fs.node) (ctx : TargetContext)
    (dryRun : bool) (selection : McpSelection) (result : McpResult) :
  translateMcp JSON_parse JSON_stringify JSON_stringify_server
    src tgt ctx dryRun selection = Some (tgt', result) →
  let registry := readMcpConfig JSON_parse tgt (mcpFile ctx) in
  tgt' = tgt ∨
  ∃ merged,
    Fs.writeFile tgt (mcpFile ctx)
      (JSON_stringify (mkMcpConfig merged (otherFields registry)) ++ [NL])
      = Some tgt' ∧
    ∀ k v, Obj.get merged k = Some v →
      Obj.get (mcpServers registry) k = Some v ∨
      ∃ c, source_server JSON_parse src k c ∧
           (k ∉ TOKEN_REQUIRED_MCP_SERVERS) ∧
           requiresAuth JSON_stringify_server c = Some false ∧
           v = VObj (cleanConfig c) ∧
           command (cleanConfig c) ≠ Some (lit "npx") ∧
           config_description (cleanConfig c) = None.
Proof using Type.
  intros (available & Hav & Hcases)%translateMcp_returns. cbv zeta in *.
  destruct Hcases as [(_ & -> & _)|(servers & a & s & Hall & _ & Hw)];
    [by left|].
  destruct dryRun; cbn [negb andb] in Hw; [left; congruence|].
  destruct (0 <? a)%nat; [|left; congruence].
  right. exists servers. split; [done|]. intros k v Hk.
  pose proof (install_all_provenance
                (resolveSelectedServers available selection)
                (mcpServers (readMcpConfig JSON_parse tgt (mcpFile ctx)))
                0 0) as Hprov.
  fold (install_all false (resolveSelectedServers available selection)
          (mcpServers (readMcpConfig JSON_parse tgt (mcpFile ctx)))) in Hprov.
  rewrite Hall in Hprov.
  destruct (Hprov k v Hk) as [?|(x & Hx%resolveSelectedServers_subseteq
                                  & <- & ->)]; [by left|].
  right. exists (config x).
  destruct (getAvailableServers_spec src available x Hav Hx) as (? & ? & ?).
  split; [done|]. split; [done|]. split; [done|]. split; [done|].
  split; [|done]. unfold cleanConfig. cbn [command].
  destruct (decide (command (spread (config x)) = Some (lit "npx")));
    [|done].
  by intros [=].
Qed.


End merge_more.

Lemma sample_available_spec :
  getAvailableServers sample_parse sample_stringify_server sample_source
  = Some sample_available.
Proof. by vm_compute. Qed.

Lemma translateMcp_nothing_to_add_witness :
  translateMcp sample_parse sample_stringify sample_stringify_server
    sample_source sample_target (createContext [lit "home"; lit ".cursor"])
    false (SelNames [lit "memory"])
  = Some (sample_target,
          mkMcpResult 0
            (length (resolveSelectedServers sample_available
                       (SelNames [lit "memory"])))
            (SelNames [lit "memory"])).
Proof.
  apply (translateMcp_nothing_to_add sample_parse sample_stringify
           sample_stringify_server sample_source sample_target
           (createContext [lit "home"; lit ".cursor"]) false
           (SelNames [lit "memory"]) sample_available).
  - apply sample_available_spec.
  - intros x Hx.
    assert (resolveSelectedServers sample_available (SelNames [lit "memory"])
            = [mkAvailableServer (lit "memory") (lit "Persistent memory")
                 (VObj server_memory)]) as Hr by (by vm_compute).
    rewrite Hr in Hx. apply list_elem_of_singleton in Hx as ->.
    by vm_compute.
Defined.

Lemma translateMcp_installs_available_witness :
  ∃ merged,
    Fs.writeFile sample_target [lit "home"; lit ".cursor"; lit "mcp.json"]
      (sample_stringify (mkMcpConfig merged []) ++ [NL])
    = Some (<[ [lit "home"; lit ".cursor"; lit "mcp.json"]
                 := Fs.File (lit "MERGED" ++ [NL]) ]> sample_target).
Proof.
  destruct (translateMcp_installs_available sample_parse sample_stringify
              sample_stringify_server sample_source sample_target
              (<[ [lit "home"; lit ".cursor"; lit "mcp.json"]
                    := Fs.File (lit "MERGED" ++ [NL]) ]> sample_target)
              (createContext [lit "home"; lit ".cursor"]) false SelAll
              (mkMcpResult 1 1 SelAll) sample_merge)
    as [Hsame|(merged & Hw & _)].
  - exfalso.
    assert (Fs.readFile sample_target
              [lit "home"; lit ".cursor"; lit "mcp.json"]
            = Some (lit "TARGET")) as Hread by (by vm_compute).
    rewrite <- Hsame in Hread. unfold Fs.readFile, Fs.lookup_node in Hread.
    by rewrite lookup_insert_eq in Hread.
  - exists merged. exact Hw.
Defined.


(** ** Scanning both places (lib/scanner.ts) *)

(** X18. [scanAll] reports the directory of the user and the directory of
    the project, in this order, each of them only if it exists and holds
    an item under the prefix, with what [scanDirectory] finds there, and
    the directory of the project only if it is another one than that of
    the user.  With the empty prefix it reports nothing. *)
Theorem scanAll_spec (t : gmap (list (list N)) Fs.node)
    (homedir cwd : list (list N)) (prefix : list N) :
  let results := scanAll t homedir cwd prefix in
  let userDir := Fs.join homedir [lit ".cursor"] in
  let projectDir := Fs.join cwd [lit ".cursor"] in
  Forall (λ r, (0 < totalFiles r)%nat ∧
               Fs.existsSync t (scan_cursorDir r) = true ∧
               r = scanDirectory t (scan_cursorDir r) prefix) results ∧
  sublist (scan_cursorDir <$> results) [userDir; projectDir] ∧
  NoDup (scan_cursorDir <$> results) ∧
  (prefix = [] → results = []).
Proof.
  cbv zeta. unfold scanAll.
  set (userDir := Fs.join homedir [lit ".cursor"]).
  set (projectDir := Fs.join cwd [lit ".cursor"]).
  destruct (Fs.existsSync t userDir) eqn:Hu;
    destruct (Fs.existsSync t projectDir) eqn:Hp; cbn [andb];
    try destruct (bool_decide (projectDir = userDir)) eqn:Hne; cbn [negb];
    try apply bool_decide_eq_false in Hne;
    try destruct (0 <? totalFiles (scanDirectory t userDir prefix))%nat eqn:H1;
    try destruct (0 <? totalFiles (scanDirectory t projectDir prefix))%nat
      eqn:H2;
    try apply Nat.ltb_lt in H1; try apply Nat.ltb_lt in H2;
    cbn [app fmap list_fmap scan_cursorDir scanDirectory];
    (split; [repeat constructor; done|]);
    (split; [by repeat first [apply sublist_nil | apply sublist_skip
                               | apply sublist_cons]|]);
    (split; [repeat constructor; set_solver|]);
    intros ->; try done; exfalso;
    first [ by apply Nat.lt_irrefl in H1 | by apply Nat.lt_irrefl in H2 ].
Qed.

(** ** Dry runs, continued (lib/translators) *)

Section dry_run_more.
Variable prefixRewrite : list N → list N → list N.
Variable stripSections : list N → list N → list N.

(** X19. A dry run of [translateContexts] leaves the target as it is and
    returns the paths that the real run returns. *)
Theorem translateContexts_dry_run
    (src tgt tgt' : gmap (list (list N)) Fs.node) (ctx : TargetContext)
    (prefix : list N) (written : list (list N)) :
  translateContexts prefixRewrite stripSections src tgt ctx prefix false
    = Some (tgt', written) →
  translateContexts prefixRewrite stripSections src tgt ctx prefix true
    = Some (tgt, written).
Proof using Type.
  unfold translateContexts.
  destruct (Fs.readdir src _) as [entries|]; [|by intros [= <- <-]].
  intros Hreal.
  eapply (for_each_dry _ _ _ _ (tgt, []) (tgt', written) Hreal tgt).
  Unshelve.
  intros [t acc] file st1. cbn [fst snd].
  destruct (Fs.readFile src _) as [raw|]; [|done]. cbn [mbind option_bind].
  destruct (Fs.mkdir_p t _) as [t1|]; [|done]. cbn [mbind option_bind].
  destruct (Fs.writeFile t1 _ _) as [t2|]; [|done]. cbn [mbind option_bind].
  by intros [= <-].
Qed.

Lemma copy_sub_files_dry (src : gmap (list (list N)) Fs.node)
    (prefix skillName : list N) (skillOutDir subPath : list (list N))
    (sub : list N) (subFiles : list (list N))
    (st stf : gmap (list (list N)) Fs.node * list (list N))
    (t : gmap (list (list N)) Fs.node) :
  copy_sub_files prefixRewrite stripSections src prefix false skillName
    skillOutDir subPath sub subFiles st = Some stf →
  copy_sub_files prefixRewrite stripSections src prefix true skillName
    skillOutDir subPath sub subFiles (t, st.2) = Some (t, stf.2).
Proof using Type.
  unfold copy_sub_files. intros Hreal.
  eapply (for_each_dry _ _ _ _ st stf Hreal t).
  Unshelve.
  intros [t0 acc] sf st1. cbn [fst snd].
  destruct (negb _); [by intros [= <-]|].
  destruct (Fs.readFile src _) as [raw|]; [|done]. cbn [mbind option_bind].
  destruct (Fs.mkdir_p t0 _) as [t1|]; [|done]. cbn [mbind option_bind].
  destruct (Fs.writeFile t1 _ _) as [t2|]; [|done]. cbn [mbind option_bind].
  by intros [= <-].
Qed.

(** X20. A dry run of [translateSkills] leaves the target as it is and
    returns the paths that the real run returns. *)
Theorem translateSkills_dry_run
    (src tgt tgt' : gmap (list (list N)) Fs.node) (ctx : TargetContext)
    (prefix : list N) (written : list (list N)) :
  translateSkills prefixRewrite stripSections src tgt ctx prefix false
    = Some (tgt', written) →
  translateSkills prefixRewrite stripSections src tgt ctx prefix true
    = Some (tgt, written).
Proof using Type.
  unfold translateSkills.
  destruct (Fs.readdir src _) as [dirs|]; [|by intros [= <- <-]].
  intros Hreal.
  eapply (for_each_dry _ _ _ _ (tgt, []) (tgt', written) Hreal tgt).
  Unshelve.
  intros [t acc] dir st1. cbn [fst snd].
  destruct (bool_decide _); [by intros [= <-]|].
  destruct (negb _); [by intros [= <-]|].
  destruct (Fs.readFile src _) as [raw|]; [|done]. cbn [mbind option_bind].
  destruct (Fs.mkdir_p t _) as [t1|]; [|done]. cbn [mbind option_bind].
  destruct (Fs.writeFile t1 _ _) as [t2|]; [|done]. cbn [mbind option_bind].
  destruct (Fs.readdir src _) as [subEntries|]; [|done].
  cbn [mbind option_bind]. intros Hsub t0.
  eapply (for_each_dry _ _ _ _ (t2, _) st1 Hsub t0).
  Unshelve.
  intros [t3 acc3] sub st3. cbn [fst snd].
  destruct (decide _); [by intros [= <-]|].
  destruct (Fs.readdir src _) as [subFiles|]; [|by intros [= <-]].
  intros Hfiles t4.
  by apply (copy_sub_files_dry _ _ _ _ _ _ _ (t3, acc3)).
Qed.
End dry_run_more.

Lemma sample_repo_contexts :
  is_Some (translateContexts no_rewrite no_rewrite sample_repo ∅
             (createContext [lit "home"; lit ".cursor"]) (lit "ecc") false).
Proof.
  assert ((λ _, ()) <$> translateContexts no_rewrite no_rewrite sample_repo ∅
            (createContext [lit "home"; lit ".cursor"]) (lit "ecc") false
          = Some ()) as Hrun by (by vm_compute).
  by destruct (translateContexts _ _ _ _ _ _ _).
Qed.

Lemma translateContexts_dry_run_witness :
  ∃ written,
    translateContexts no_rewrite no_rewrite sample_repo ∅
      (createContext [lit "home"; lit ".cursor"]) (lit "ecc") true
    = Some (∅, written).
Proof.
  destruct sample_repo_contexts as [[tgt' written] Hreal].
  exists written.
  exact (translateContexts_dry_run no_rewrite no_rewrite sample_repo ∅ tgt'
           (createContext [lit "home"; lit ".cursor"]) (lit "ecc") written
           Hreal).
Defined.

Lemma sample_repo_skills :
  is_Some (translateSkills no_rewrite no_rewrite sample_repo ∅
             (createContext [lit "home"; lit ".cursor"]) (lit "ecc") false).
Proof.
  assert ((λ _, ()) <$> translateSkills no_rewrite no_rewrite sample_repo ∅
            (createContext [lit "home"; lit ".cursor"]) (lit "ecc") false
          = Some ()) as Hrun by (by vm_compute).
  by destruct (translateSkills _ _ _ _ _ _ _).
Qed.

Lemma translateSkills_dry_run_witness :
  ∃ written,
    translateSkills no_rewrite no_rewrite sample_repo ∅
      (createContext [lit "home"; lit ".cursor"]) (lit "ecc") true
    = Some (∅, written).
Proof.
  destruct sample_repo_skills as [[tgt' written] Hreal].
  exists written.
  exact (translateSkills_dry_run no_rewrite no_rewrite sample_repo ∅ tgt'
           (createContext [lit "home"; lit ".cursor"]) (lit "ecc") written
           Hreal).
Defined.

Lemma sample_repo_commands :
  is_Some (translateCommands no_rewrite no_rewrite extractTitle
             inferDescription sample_repo ∅
             (createContext [lit "home"; lit ".cursor"]) (lit "ecc") false).
Proof.
  assert ((λ _, ()) <$> translateCommands no_rewrite no_rewrite extractTitle
            inferDescription sample_repo ∅
            (createContext [lit "home"; lit ".cursor"]) (lit "ecc") false
          = Some ()) as Hrun by (by vm_compute).
  by destruct (translateCommands _ _ _ _ _ _ _ _ _).
Qed.

Lemma translateCommands_dry_run_witness :
  ∃ written,
    translateCommands no_rewrite no_rewrite extractTitle inferDescription
      sample_repo ∅ (createContext [lit "home"; lit ".cursor"]) (lit "ecc")
      true
    = Some (∅, written).
Proof.
  destruct sample_repo_commands as [[tgt' written] Hreal].
  exists written.
  exact (translateCommands_dry_run no_rewrite no_rewrite extractTitle
           inferDescription sample_repo ∅ tgt'
           (createContext [lit "home"; lit ".cursor"]) (lit "ecc") written
           Hreal).
Defined.

Lemma one_agent_installs :
  is_Some (translateAgents no_rewrite no_rewrite one_agent ∅
             (createContext [lit "home"; lit ".cursor"]) (lit "ecc") false).
Proof.
  assert ((λ _, ()) <$> translateAgents no_rewrite no_rewrite one_agent ∅
            (createContext [lit "home"; lit ".cursor"]) (lit "ecc") false
          = Some ()) as Hrun by (by vm_compute).
  by destruct (translateAgents _ _ _ _ _ _ _).
Qed.

Lemma translateAgents_dry_run_witness :
  ∃ written,
    translateAgents no_rewrite no_rewrite one_agent ∅
      (createContext [lit "home"; lit ".cursor"]) (lit "ecc") true
    = Some (match Fs.readdir one_agent [SRC_AGENTS] with
            | Some _ =>
                default ∅
                  (Fs.mkdir_p ∅
                     (agentsDir (createContext [lit "home"; lit ".cursor"])))
            | None => ∅
            end, written).
Proof.
  destruct one_agent_installs as [[tgt' written] Hreal].
  exists written.
  exact (translateAgents_dry_run no_rewrite no_rewrite one_agent ∅ tgt'
           (createContext [lit "home"; lit ".cursor"]) (lit "ecc") written
           Hreal).
Defined.

(** ** Installing and scanning (lib/translators/hooks.ts, lib/scanner.ts) *)

Lemma join_two (base : list (list N)) (a b : list N) :
  Fs.join base [a; b] = Fs.join (Fs.join base [a]) [b].
Proof.
  unfold Fs.join. cbn [mbind list_bind]. rewrite !app_nil_r.
  apply foldl_app.
Qed.

(** X21. What [translateHooks] installs, [scanDirectory] finds: behind a
    run that is not dry, on a source that holds the hooks file, a scan of
    the target for the prefix lists the coding standards among the
    skills. *)
Theorem translateHooks_then_scan
    (src tgt tgt' : gmap (list (list N)) Fs.node)
    (cursorDir : list (list N)) (prefix : list N)
    (written : list (list N)) :
  prefix ≠ [] →
  plain_name (prefixName prefix (lit "coding-standards")) = true →
  Fs.existsSync src [SRC_HOOKS; lit "hooks.json"] = true →
  translateHooks src tgt (createContext cursorDir) prefix false
    = Some (tgt', written) →
  prefixName prefix (lit "coding-standards")
    ∈ skills (scanDirectory tgt' cursorDir prefix).
Proof.
  intros Hp Hplain Hex. rewrite translateHooks_unfold, Hex.
  set (name := prefixName prefix (lit "coding-standards")) in *.
  assert (hook_rules_dir (createContext cursorDir) prefix
          = cursorDir ++ [lit "skills"; name; lit "rules"]) as Hdir.
  { unfold hook_rules_dir. fold name. rewrite join_two.
    rewrite !join_plain by done.
    destruct (context_dirs cursorDir) as (-> & _).
    by rewrite <- !(assoc_L (++)). }
  rewrite Hdir. set (dir := cursorDir ++ [lit "skills"; name; lit "rules"]).
  destruct (Fs.mkdir_p tgt dir) as [t0|] eqn:Hmk; [|done].
  cbn [mbind option_bind].
  destruct (mkdir_p_spec _ _ _ Hmk) as [Hlook _].
  rewrite hooks_loop_real
    by (done || apply extracted_rules_plain || apply extracted_rules_nodup).
  destruct (decide _) as [_|]; [|done]. intros [= <- _].
  apply mkdir_from_spec in Hmk as [Hdirs _]. cbn [app] in Hdirs.
  assert (∀ q, length q < length dir → 
            hook_written dir t0 EXTRACTED_RULES !! q = t0 !! q)%nat as Hkeep.
  { intros q Hq. apply written_other. intros r _ ->.
    rewrite length_app in Hq. simpl in Hq. lia. }
  assert (length dir = length cursorDir + 3)%nat as Hlen
    by (unfold dir; rewrite length_app; simpl; lia).
  apply elem_of_scanDir. split; [done|]. split.
  - destruct (context_dirs cursorDir) as (-> & _). split.
    + rewrite lookup_node_cons by (by destruct cursorDir).
      rewrite Hkeep by (rewrite length_app; simpl; lia).
      specialize (Hdirs (length cursorDir + 1)%nat).
      unfold dir in Hdirs. rewrite take_app_add' in Hdirs by done.
      apply Hdirs. rewrite length_app. simpl. lia.
    + rewrite Hkeep by (rewrite !length_app; simpl; lia).
      specialize (Hdirs (length cursorDir + 2)%nat).
      unfold dir in Hdirs. rewrite take_app_add' in Hdirs by done.
      rewrite <- (assoc_L (++)). cbn [take] in Hdirs. cbn [app].
      rewrite Hdirs; [done|]. rewrite length_app. simpl. lia.
  - unfold name. rewrite prefixName_nonempty by done.
    rewrite (assoc_L (++)). by apply prefix_app_r.
Qed.

Lemma hooks_only_installs :
  is_Some (translateHooks hooks_only ∅
             (createContext [lit "home"; lit ".cursor"]) (lit "ecc") false).
Proof.
  assert ((λ _, ()) <$> translateHooks hooks_only ∅
            (createContext [lit "home"; lit ".cursor"]) (lit "ecc") false
          = Some ()) as Hrun by (by vm_compute).
  by destruct (translateHooks _ _ _ _ _).
Qed.

Lemma translateHooks_then_scan_witness :
  ∃ tgt' written,
    translateHooks hooks_only ∅ (createContext [lit "home"; lit ".cursor"])
      (lit "ecc") false = Some (tgt', written) ∧
    prefixName (lit "ecc") (lit "coding-standards")
      ∈ skills (scanDirectory tgt' [lit "home"; lit ".cursor"] (lit "ecc")).
Proof.
  destruct hooks_only_installs as [[tgt' written] Hrun].
  exists tgt', written. split; [done|].
  apply (translateHooks_then_scan hooks_only ∅ tgt'
           [lit "home"; lit ".cursor"] (lit "ecc") written).
  - done.
  - by vm_compute.
  - by vm_compute.
  - exact Hrun.
Defined.

(** ** The paths of the commands (lib/translators/commands.ts) *)

Section command_paths.
Variable prefixRewrite : list N → list N → list N.
Variable stripSections : list N → list N → list N.
Variable extractTitle : list N → list N.
Variable inferDescription : list N → list N.

(** X22. What [translateCommands] reports is read off the names of the
    source documents: for every document of the [commands] directory whose
    name ends in [.md] and that is not on the skip list, in the order of
    the directory, the path of a skill and the path of a command, both
    named by the prefix and the name of the document without its
    extension. *)
Theorem translateCommands_reports
    (src tgt : gmap (list (list N)) Fs.node) (ctx : TargetContext)
    (prefix : list N) (entries : list (list N)) :
  Fs.readdir src [SRC_COMMANDS] = Some entries →
  Forall (λ file, is_Some (Fs.readFile src (Fs.join [SRC_COMMANDS] [file])))
         (translated_commands entries) →
  translateCommands prefixRewrite stripSections extractTitle
    inferDescription src tgt ctx prefix true
  = Some (tgt, translated_commands entries ≫= command_paths prefix).
Proof using Type.
  intros Hdir Hread. unfold translateCommands. cbv zeta.
  change (Fs.join [] [SRC_COMMANDS]) with [SRC_COMMANDS]. rewrite Hdir.
  cbn [mbind option_bind]. unfold translated_commands in *.
  set (body := λ (st : gmap (list (list N)) Fs.node * list (list N))
                 (file : list N), _).
  enough (∀ acc, for_each body (md_files entries) (tgt, acc)
                 = Some (tgt, acc ++ (filter _ (md_files entries)
                                        ≫= command_paths prefix))) as Hgen
    by apply (Hgen []).
  subst body.
  induction (md_files entries) as [|file files IH]; intros acc.
  - cbn. by rewrite app_nil_r.
  - cbn [for_each fst snd].
    rewrite filter_cons in Hread |- *.
    destruct (decide (SRC_COMMANDS ++ lit "/" ++ file ∉ SKIP_FILES))
      as [Hskip|Hskip].
    + rewrite bool_decide_eq_false_2 by done.
      apply Forall_cons in Hread as [[raw Hraw] Hread]. rewrite Hraw.
      cbn [mbind option_bind]. rewrite IH by done.
      rewrite bind_cons. unfold command_paths at 2.
      by rewrite <- (assoc_L (++)).
    + rewrite bool_decide_eq_true_2 by (by apply dec_stable).
      cbn [mbind option_bind]. by apply IH.
Qed.
End command_paths.

Lemma translateCommands_reports_witness :
  translateCommands no_rewrite no_rewrite extractTitle inferDescription
    sample_repo ∅ (createContext [lit "home"; lit ".cursor"]) (lit "ecc") true
  = Some (∅, translated_commands [lit "plan.md"]
             ≫= command_paths (lit "ecc")).
Proof.
  apply (translateCommands_reports no_rewrite no_rewrite extractTitle
           inferDescription sample_repo ∅
           (createContext [lit "home"; lit ".cursor"]) (lit "ecc")
           [lit "plan.md"]).
  - by vm_compute.
  - apply (bool_decide_unpack _). by vm_compute.
Defined.

(** ** Installing commands and scanning (lib/translators/commands.ts) *)

Lemma keeps_refl (t : gmap (list (list N)) Fs.node) : keeps t t.
Proof. by intros q. Qed.

Lemma keeps_trans (t1 t2 t3 : gmap (list (list N)) Fs.node) :
  keeps t1 t2 → keeps t2 t3 → keeps t1 t3.
Proof.
  intros H12 H23 q. destruct (H12 q) as [? ?], (H23 q) as [? ?]. auto.
Qed.

Lemma mkdir_p_keeps (t t' : gmap (list (list N)) Fs.node) p :
  Fs.mkdir_p t p = Some t' → keeps t t'.
Proof.
  intros [_ Hframe]%mkdir_p_spec q.
  destruct (decide (t' !! q = t !! q)) as [->|Hne]; [done|].
  apply Hframe in Hne as (Hnone & _). rewrite Hnone.
  split; [done | by intros [? ?]].
Qed.

Lemma writeFile_keeps (t t' : gmap (list (list N)) Fs.node) p c :
  Fs.writeFile t p c = Some t' → keeps t t'.
Proof.
  intros (_ & _ & Hp & ->)%writeFile_Some q.
  destruct (decide (p = q)) as [<-|Hne].
  - rewrite lookup_insert_eq. split; [done | eauto].
  - by rewrite lookup_insert_ne.
Qed.

Lemma keeps_has_entry (t t' : gmap (list (list N)) Fs.node) dir f :
  keeps t t' → has_entry t dir f → has_entry t' dir f.
Proof.
  intros Hk [Hd Hf]. split; [|by apply Hk].
  destruct dir as [|c dir]; [done|]. simpl in *. by apply Hk.
Qed.

Lemma mkdir_p_has_entry (t t' : gmap (list (list N)) Fs.node) dir f :
  Fs.mkdir_p t (dir ++ [f]) = Some t' → has_entry t' dir f.
Proof.
  intros Hmk. pose proof Hmk as [Hl _]%mkdir_p_spec.
  apply mkdir_from_spec in Hmk as [Hdirs _]. cbn [app] in Hdirs. split.
  - destruct dir as [|c dir]; [done|].
    rewrite lookup_node_cons by done.
    specialize (Hdirs (length (c :: dir))).
    rewrite take_app_length in Hdirs. apply Hdirs.
    rewrite length_app. simpl. lia.
  - rewrite lookup_node_cons in Hl by (by destruct dir). by rewrite Hl.
Qed.

Lemma plain_name_md n :
  plain_name n = true → plain_name (n ++ lit ".md") = true.
Proof.
  unfold plain_name. rewrite !andb_true_iff, !negb_true_iff.
  rewrite !bool_decide_eq_false. intros [[Hs _] _].
  split; [split|].
  - rewrite elem_of_app. intros [?|Hin]; [done|]. revert Hin.
    apply (bool_decide_unpack _). by vm_compute.
  - intros [Heq|Heq]; apply (f_equal length) in Heq;
      rewrite length_app in Heq; simpl in Heq; lia.
  - intros Heq. apply (f_equal length) in Heq.
    rewrite length_app in Heq. simpl in Heq. lia.
Qed.

Section commands_scan.
Variable prefixRewrite : list N → list N → list N.
Variable stripSections : list N → list N → list N.
Variable extractTitle : list N → list N.
Variable inferDescription : list N → list N.

(** X25. What [translateCommands] installs, [scanDirectory] finds: behind
    a run that is not dry, for every document that it translates, a scan
    of the target for the prefix lists the skill among the skills and the
    command among the commands, both under the prefixed name of the
    document. *)
Theorem translateCommands_then_scan
    (src tgt tgt' : gmap (list (list N)) Fs.node)
    (cursorDir : list (list N)) (prefix : list N)
    (entries written : list (list N)) (file : list N) :
  prefix ≠ [] →
  Fs.readdir src [SRC_COMMANDS] = Some entries →
  file ∈ translated_commands entries →
  plain_name (prefixName prefix (strip_md file)) = true →
  translateCommands prefixRewrite stripSections extractTitle
    inferDescription src tgt (createContext cursorDir) prefix false
    = Some (tgt', written) →
  let scan := scanDirectory tgt' cursorDir prefix in
  prefixName prefix (strip_md file) ∈ skills scan ∧
  prefixName prefix (strip_md file) ++ lit ".md" ∈ commands scan.
Proof using Type.
  intros Hp Hdir Hfile Hplain. unfold translateCommands. cbv zeta.
  change (Fs.join [] [SRC_COMMANDS]) with [SRC_COMMANDS]. rewrite Hdir.
  destruct (Fs.mkdir_p tgt _) as [t0|]; [|done]. cbn [mbind option_bind].
  set (ctx := createContext cursorDir).
  set (name := prefixName prefix (strip_md file)) in *.
  set (body := λ (st : gmap (list (list N)) Fs.node * list (list N))
                 (file : list N), _).
  unfold translated_commands in Hfile.
  apply list_elem_of_filter in Hfile as [Hskip Hfile].
  enough (∀ files st stf,
            for_each body files st = Some stf →
            keeps st.1 stf.1 ∧
            (file ∈ files →
             has_entry stf.1 (skillsDir ctx) name ∧
             has_entry stf.1 (commandsDir ctx) (name ++ lit ".md")))
    as Hloop.
  { intros Hrun. destruct (Hloop _ _ _ Hrun) as [_ [Hs Hc]]; [done|].
    cbn [fst] in Hs, Hc.
    assert ((prefix ++ [DASH]) `prefix_of` name) as Hpre.
    { unfold name. rewrite prefixName_nonempty by done.
      rewrite (assoc_L (++)). by apply prefix_app_r. }
    unfold scanDirectory. cbn [skills commands]. fold ctx.
    split; apply elem_of_scanDir; (split; [done|]); (split; [done|]);
      [done|]. by apply prefix_app_r. }
  clear tgt' written. induction files as [|f files IH]; intros st stf.
  - intros [= <-]. split; [apply keeps_refl | by intros ?%elem_of_nil].
  - cbn [for_each]. destruct (body st f) as [st1|] eqn:Hstep; [|done].
    cbn [mbind option_bind]. intros Hrest.
    destruct (IH _ _ Hrest) as [Hk Hin].
    assert (keeps st.1 st1.1 ∧
            (f = file →
             has_entry st1.1 (skillsDir ctx) name ∧
             has_entry st1.1 (commandsDir ctx) (name ++ lit ".md")))
      as [Hk1 Hent].
    { revert Hstep. unfold body. destruct st as [t acc]. cbn [fst snd].
      destruct (bool_decide (_ ∈ SKIP_FILES)) eqn:Hs.
      { intros [= <-]. split; [apply keeps_refl|]. intros ->.
        by apply bool_decide_eq_true in Hs. }
      destruct (Fs.readFile src _) as [raw|]; [|done].
      cbn [mbind option_bind].
      destruct (Fs.mkdir_p t _) as [t1|] eqn:Hmk; [|done].
      cbn [mbind option_bind].
      destruct (Fs.writeFile t1 _ _) as [t2|] eqn:Hw1; [|done].
      cbn [mbind option_bind].
      destruct (Fs.writeFile t2 _ _) as [t3|] eqn:Hw2; [|done].
      cbn [mbind option_bind]. intros [= <-]. cbn [fst].
      pose proof (mkdir_p_keeps _ _ _ Hmk) as K1.
      pose proof (writeFile_keeps _ _ _ _ Hw1) as K2.
      pose proof (writeFile_keeps _ _ _ _ Hw2) as K3.
      split; [exact (keeps_trans _ _ _ K1 (keeps_trans _ _ _ K2 K3))|].
      intros ->. fold name in Hmk, Hw1, Hw2.
      rewrite (join_plain _ name) in Hmk by done.
      rewrite (join_plain _ (name ++ lit ".md")) in Hw2
        by (by apply plain_name_md).
      split.
      - apply (keeps_has_entry t1); [by eapply keeps_trans|].
        by eapply mkdir_p_has_entry.
      - by eapply writeFile_has_entry. }
    split; [by eapply keeps_trans|].
    intros [->|Hin']%elem_of_cons; [|auto].
    destruct Hent as [? ?]; [done|].
    split; by eapply keeps_has_entry.
Qed.
End commands_scan.

Lemma translateCommands_then_scan_witness :
  ∃ tgt' written,
    translateCommands no_rewrite no_rewrite extractTitle inferDescription
      sample_repo ∅ (createContext [lit "home"; lit ".cursor"]) (lit "ecc")
      false = Some (tgt', written) ∧
    prefixName (lit "ecc") (strip_md (lit "plan.md"))
      ∈ skills (scanDirectory tgt' [lit "home"; lit ".cursor"] (lit "ecc")).
Proof.
  destruct sample_repo_commands as [[tgt' written] Hrun].
  exists tgt', written. split; [done|].
  refine (proj1 (translateCommands_then_scan no_rewrite no_rewrite
                   extractTitle inferDescription sample_repo ∅ tgt'
                   [lit "home"; lit ".cursor"] (lit "ecc")
                   [lit "plan.md"] written (lit "plan.md") _ _ _ _ Hrun)).
  - done.
  - by vm_compute.
  - apply (bool_decide_unpack _). by vm_compute.
  - by vm_compute.
Defined.
